(** * LocaleLoader: the locale index of i18n-ally

    A shallow embedding of [src/core/LocaleLoader.ts]: the file store, the
    namespace tree, the flatten index, coverage, shadow records, machine
    translation and write-back, the directory scan and the watcher, followed
    by the properties of the specification that concern them.

    Conventions of the embedding.
    - A JavaScript object used as a map ([Record<string, T>]) is the
      association list of its own properties in insertion order, with
      distinct keys: [Object.keys], [Object.values] and [Object.entries]
      enumerate it in list order.  The engine's rule that integer-like keys
      enumerate first is not modelled; a property that speaks of an order
      asks for keys that are not integer-like.
    - A read [o[k]] follows the prototype chain: the objects of the loader
      are plain objects, so a name that is not an own key and is a name of
      [Object.prototype] ([constructor], [toString], ...) reads as the
      member of [Object.prototype] and not as [undefined].  [js_get] is
      that read; the loader's own maps ([this.flattenLocaleTree], the
      children of a tree, the object [set] writes into) are read with it.
      The map of the records of an entry belongs to the class [LocaleNode],
      which is not part of the sources, and is read by its own keys.
    - An assignment [o[k] = v] gives the object the own property [k].  For
      the one name for which JavaScript does otherwise, [__proto__], the
      assignment gives the children of a tree no own property ([setChild]);
      the prototype it replaces is not modelled, and a property that
      depends on it asks for documents without that key.
    - A call that can throw returns a [Result]; a promise is modelled by
      its outcome, [Fulfilled] or [Rejected], and an exception thrown in
      an async method rejects its promise.  A method that touches the
      state or the disk is a function of the world that returns an outcome
      and the world after it.
    - The directory scan ([loadDirectory], [loadAll], [init]) runs over a
      directory structure given by the collaborators [readdir],
      [isDirectory] and [resolve]; the registration of a watcher is recorded
      as its root, and the handler of the watcher is a method of its own.
    - Collaborators that are not part of the file ([getKeyname],
      [replaceLocalePath], [getFileInfo], [MachinTranslate], the prompts of
      the editor, [JSON.parse], the directories and the write errors of the
      host, the configuration in [Global]) are parameters. *)

From Stdlib Require Import String Ascii List ZArith NArith Bool Lia Arith.
From Stdlib Require Import DecimalString Permutation.
Import ListNotations.
Local Open Scope list_scope.
Local Open Scope string_scope.

Set Implicit Arguments.
Set Default Proof Using "Type".

(* ================================================================== *)
(** ** JavaScript objects as insertion-ordered maps *)

Definition Obj (A : Type) : Type := list (string * A).

(** [o[k]] *)
Fixpoint obj_get {A} (k : string) (o : Obj A) : option A :=
  match o with
  | [] => None
  | (k', v) :: o' => if String.eqb k' k then Some v else obj_get k o'
  end.

(** [o[k] = v]: an existing key keeps its place, a new key goes last. *)
Fixpoint obj_set {A} (k : string) (v : A) (o : Obj A) : Obj A :=
  match o with
  | [] => [(k, v)]
  | (k', v') :: o' =>
      if String.eqb k' k then (k', v) :: o' else (k', v') :: obj_set k v o'
  end.

(** [delete o[k]] *)
Fixpoint obj_delete {A} (k : string) (o : Obj A) : Obj A :=
  match o with
  | [] => []
  | (k', v') :: o' =>
      if String.eqb k' k then obj_delete k o' else (k', v') :: obj_delete k o'
  end.

Definition obj_has {A} (k : string) (o : Obj A) : bool :=
  match obj_get k o with Some _ => true | None => false end.

Definition Object_keys {A} (o : Obj A) : list string := map fst o.
Definition Object_values {A} (o : Obj A) : list A := map snd o.

(** *** Reads through the prototype chain *)

(** The names of the members of [Object.prototype], which every plain
    object inherits. *)
Definition prototype_names : list string :=
  [ "constructor"; "__defineGetter__"; "__defineSetter__"; "hasOwnProperty";
    "__lookupGetter__"; "__lookupSetter__"; "isPrototypeOf";
    "propertyIsEnumerable"; "toString"; "valueOf"; "__proto__";
    "toLocaleString" ].

Definition inherited (name : string) : bool :=
  existsb (String.eqb name) prototype_names.

(** What a read [o[k]] of a plain object gives: an own property, the member
    of [Object.prototype] of that name (a function, or the prototype itself
    for [__proto__]; truthy, and without any of the properties the loader
    reads from its items), or [undefined]. *)
Inductive Read (A : Type) : Type :=
| Own (a : A)
| Member (name : string)
| Undefined.
Arguments Own {A} a.
Arguments Member {A} name.
Arguments Undefined {A}.

Definition js_get {A} (k : string) (o : Obj A) : Read A :=
  match obj_get k o with
  | Some v => Own v
  | None => if inherited k then Member k else Undefined
  end.

(** lodash [uniq]: the first occurrence of every element, in order. *)
Fixpoint uniq (l : list string) : list string :=
  match l with
  | [] => []
  | x :: r => x :: filter (fun y => negb (String.eqb y x)) (uniq r)
  end.

(* ================================================================== *)
(** ** Key paths: [split('.')] and [join('.')] *)

Definition dot : ascii := "."%char.

(** [s.split('.')]: never empty, the empty string gives one empty segment. *)
Fixpoint split_dot (s : string) : list string :=
  match s with
  | EmptyString => [EmptyString]
  | String c s' =>
      if Ascii.eqb c dot then EmptyString :: split_dot s'
      else match split_dot s' with
           | [] => [String c EmptyString]
           | x :: xs => String c x :: xs
           end
  end.

(** [l.join('.')] *)
Definition join_dot (l : list string) : string := String.concat "." l.

Fixpoint has_dot (s : string) : bool :=
  match s with
  | EmptyString => false
  | String c s' => Ascii.eqb c dot || has_dot s'
  end.

(** A key that can stand as one segment of a dotted key path. *)
Definition plain_key (s : string) : Prop := s <> EmptyString /\ has_dot s = false.

(** The key path of a member [key] below the key path [keypath]; the
    ternary [keypath ? `${keypath}.${key}` : key] of [subTree], which is also
    the [prev ? prev + delimiter + key : key] of [flat]. *)
Definition childKeyPath (keypath key : string) : string :=
  match keypath with
  | EmptyString => key
  | _ => keypath ++ "." ++ key
  end.

(* ================================================================== *)
(** ** Documents *)

(** What [JSON.parse] returns.  Objects and arrays are both lists of own
    enumerable properties (for an array the keys are its indices); numbers
    are restricted to the integers that a double holds exactly and prints
    in full, those of [exactNumbers] below. *)
Inductive kind : Type := KObject | KArray.

Unset Elimination Schemes.
Inductive json : Type :=
| JNull
| JBool (b : bool)
| JNum (z : Z)
| JStr (s : string)
| JObj (k : kind) (props : list (string * json)).
Set Elimination Schemes.

(** JavaScript truthiness, the test behind [!value] and [a && b]. *)
Definition truthy (v : json) : bool :=
  match v with
  | JNull => false
  | JBool b => b
  | JNum z => negb (Z.eqb z 0)
  | JStr s => negb (String.eqb s EmptyString)
  | JObj _ _ => true
  end.

(** Truthiness of a possibly [undefined] value. *)
Definition truthy_opt (v : option json) : bool :=
  match v with Some x => truthy x | None => false end.

(** lodash [isObject] *)
Definition isObject (v : json) : bool :=
  match v with JObj _ _ => true | _ => false end.

(** The value found by following [path] from [v], when every step is an own
    property. *)
Fixpoint doc_get (path : list string) (v : json) : option json :=
  match path with
  | [] => Some v
  | key :: rest =>
      match v with
      | JObj _ props =>
          match obj_get key props with
          | Some x => doc_get rest x
          | None => None
          end
      | _ => None
      end
  end.

(** [p] is a prefix of [q]. *)
Fixpoint is_prefix (p q : list string) : bool :=
  match p, q with
  | [], _ => true
  | _ :: _, [] => false
  | x :: p', y :: q' => String.eqb x y && is_prefix p' q'
  end.

(** Two paths none of which leads through the other. *)
Definition incomparable (p q : list string) : bool :=
  negb (is_prefix p q) && negb (is_prefix q p).

(** *** [flat]

    Modelled from the spec: [flat] is the npm package imported at the top of
    the file, its code is not part of the sources.  The flattened form maps
    the dot-joined full key path of every member to its value; a member that
    is a non-empty object or array is descended into, everything else (an
    empty object included) is a value of the result. *)
Fixpoint flat_prop (prev key : string) (value : json) (output : Obj json)
  {struct value} : Obj json :=
  let newKey := childKeyPath prev key in
  match value with
  | JObj _ (p :: ps) =>
      (fix step (object : list (string * json)) (output : Obj json) : Obj json :=
         match object with
         | [] => output
         | (k, v) :: object' => step object' (flat_prop newKey k v output)
         end) (p :: ps) output
  | _ => obj_set newKey value output
  end.

Definition flat_step (object : list (string * json)) (prev : string)
  (output : Obj json) : Obj json :=
  fold_left (fun out kv => flat_prop prev (fst kv) (snd kv) out) object output.

Definition flat (value : list (string * json)) : Obj json :=
  flat_step value EmptyString [].

(** *** Leaves and well-formed documents *)

(** The paths from a value to the values [flat] keeps below it (everything
    but a non-empty object or array), in the order of the members; the empty
    path leads to the value itself. *)
Fixpoint leafPaths_value (v : json) : list (list string * json) :=
  match v with
  | JObj _ (p :: ps) =>
      (fix members (ms : list (string * json)) : list (list string * json) :=
         match ms with
         | [] => []
         | (k, x) :: ms' =>
             (map (fun pv => (k :: fst pv, snd pv)) (leafPaths_value x)
              ++ members ms')%list
         end) (p :: ps)
  | _ => [([], v)]
  end.

Definition leafPaths (object : list (string * json)) : list (list string * json) :=
  flat_map (fun kv => map (fun pv => (fst kv :: fst pv, snd pv))
                        (leafPaths_value (snd kv))) object.

(** The key path of a path below the key path [prev]. *)
Definition pathKey (prev : string) (path : list string) : string :=
  fold_left childKeyPath path prev.

(** [P] holds of every object and array of a value. *)
Fixpoint everyObject (P : kind -> list (string * json) -> bool) (v : json) : bool :=
  match v with
  | JObj k props =>
      P k props
      && (fix all (ps : list (string * json)) : bool :=
            match ps with
            | [] => true
            | (_, x) :: ps' => everyObject P x && all ps'
            end) props
  | _ => true
  end.

Fixpoint distinct (l : list string) : bool :=
  match l with
  | [] => true
  | x :: r => negb (existsb (String.eqb x) r) && distinct r
  end.

Definition plain_keyb (s : string) : bool :=
  negb (String.eqb s EmptyString) && negb (has_dot s).

(** The keys of every object are distinct (as they are in JavaScript),
    non-empty and without a dot. *)
Definition plainKeys (object : list (string * json)) : bool :=
  everyObject (fun _ props => distinct (map fst props)
                              && forallb plain_keyb (map fst props))
    (JObj KObject object).

(** A nested mapping: no arrays. *)
Definition noArrays (object : list (string * json)) : bool :=
  everyObject (fun k _ => match k with KObject => true | KArray => false end)
    (JObj KObject object).

(** No member at any depth is an empty object or array. *)
Definition noEmptyObjects (object : list (string * json)) : bool :=
  forallb (fun kv => everyObject (fun _ props => match props with
                                                 | [] => false
                                                 | _ => true
                                                 end) (snd kv)) object.

(** *** [unflatten]

    Modelled from the spec: the loader never calls the inverse of [flat] and
    the package is not part of the sources.  Unflattening writes every entry
    of the flattened form back at the segments of its key, in order,
    creating the intermediate mappings and never writing through a value. *)
Fixpoint unflatten_put (path : list string) (value : json)
  (recipient : list (string * json)) : list (string * json) :=
  match path with
  | [] => recipient
  | [key] => obj_set key value recipient
  | key :: rest =>
      match obj_get key recipient with
      | Some (JObj k inner) =>
          obj_set key (JObj k (unflatten_put rest value inner)) recipient
      | Some _ => recipient
      | None => obj_set key (JObj KObject (unflatten_put rest value [])) recipient
      end
  end.

Definition unflatten (target : Obj json) : list (string * json) :=
  fold_left (fun result kv => unflatten_put (split_dot (fst kv)) (snd kv) result)
    target [].

(** [Object.entries] of a parsed document, as [subTree] and [flat] take it
    at the top level: the members of an object or array, nothing for a number
    or a boolean, the characters of a string by index (bytes here, UTF-16
    units in JavaScript); on [null] JavaScript throws. *)
Definition index_key (i : nat) : string := NilZero.string_of_uint (Nat.to_uint i).

Fixpoint string_props (i : nat) (s : string) : list (string * json) :=
  match s with
  | EmptyString => []
  | String c s' => (index_key i, JStr (String c EmptyString)) :: string_props (S i) s'
  end.

Definition own_props (v : json) : option (list (string * json)) :=
  match v with
  | JNull => None
  | JBool _ | JNum _ => Some []
  | JStr s => Some (string_props 0 s)
  | JObj _ props => Some props
  end.

(* ================================================================== *)
(** ** lodash [set] *)

Definition is_digit (c : ascii) : bool :=
  let n := nat_of_ascii c in Nat.leb 48 n && Nat.leb n 57.

Fixpoint all_digits (s : string) : bool :=
  match s with
  | EmptyString => true
  | String c s' => is_digit c && all_digits s'
  end.

Fixpoint digits_value (acc : N) (s : string) : N :=
  match s with
  | EmptyString => acc
  | String c s' => digits_value (10 * acc + N.of_nat (nat_of_ascii c - 48))%N s'
  end.

(** lodash [reIsUint]: a decimal numeral without leading zero. *)
Definition reIsUint (s : string) : bool :=
  match s with
  | EmptyString => false
  | String c s' =>
      if Ascii.eqb c "0"%char then String.eqb s' EmptyString
      else is_digit c && all_digits s'
  end.

(** lodash [isIndex] with its default bound [MAX_SAFE_INTEGER]. *)
Definition isIndex (s : string) : bool :=
  reIsUint s && N.ltb (digits_value 0 s) 9007199254740991.

(** The keys [baseSet] refuses to assign. *)
Definition unsafe_key (key : string) : bool :=
  String.eqb key "__proto__" || String.eqb key "constructor"
  || String.eqb key "prototype".

Fixpoint has_bracket (s : string) : bool :=
  match s with
  | EmptyString => false
  | String c s' => Ascii.eqb c "["%char || Ascii.eqb c "]"%char || has_bracket s'
  end.

(** lodash [castPath] of a string on an object: the string itself when it is
    a plain property name or an own key of the object, else its segments.
    The bracket notation of lodash paths ([a[0].b]) is not modelled: the
    segments are those of [split('.')], which is what lodash computes for a
    path without brackets. *)
Definition castPath (value : string) (object : list (string * json)) : list string :=
  if negb (has_dot value) || obj_has value object then [value]
  else split_dot value.

(** The loop of lodash [baseSet] from the object [nested] on: every key
    but the last is assigned the object found there or, when there is none,
    a fresh array or object according to the next key; the last key is
    assigned the value.  What is found there is read through the prototype
    chain: under a name of [Object.prototype] that is no own key, the object
    found is the inherited function; it becomes an own member and the rest
    of the path is set on the function itself.  A member that holds a
    function is left out by [JSON.stringify], and a document has no value
    for it: the document is then what it was. *)
Fixpoint baseSet_from (path : list string) (value : json)
  (nested : list (string * json)) : list (string * json) :=
  match path with
  | [] => nested
  | key :: rest =>
      if unsafe_key key then nested
      else match rest with
           | [] => obj_set key value nested
           | next :: _ =>
               match js_get key nested with
               | Own (JObj k inner) =>
                   obj_set key (JObj k (baseSet_from rest value inner)) nested
               | Member _ => nested
               | _ =>
                   obj_set key
                     (JObj (if isIndex next then KArray else KObject)
                        (baseSet_from rest value []))
                     nested
               end
           end
  end.

(** [set(object, path, value)] *)
Definition lodash_set (object : json) (path : string) (value : json) : json :=
  match object with
  | JObj k props => JObj k (baseSet_from (castPath path props) value props)
  | _ => object
  end.

(* ================================================================== *)
(** ** [JSON.stringify(value, null, 2)] *)

Definition dquote : string := String (ascii_of_nat 34) EmptyString.
Definition newline : string := String (ascii_of_nat 10) EmptyString.
Definition backslash : string := String (ascii_of_nat 92) EmptyString.

Definition hex_digit (n : nat) : ascii :=
  if Nat.ltb n 10 then ascii_of_nat (48 + n) else ascii_of_nat (87 + n).

Definition escape_char (c : ascii) : string :=
  let n := nat_of_ascii c in
  if Nat.eqb n 34 then backslash ++ dquote
  else if Nat.eqb n 92 then backslash ++ backslash
  else if Nat.eqb n 8 then backslash ++ "b"
  else if Nat.eqb n 9 then backslash ++ "t"
  else if Nat.eqb n 10 then backslash ++ "n"
  else if Nat.eqb n 12 then backslash ++ "f"
  else if Nat.eqb n 13 then backslash ++ "r"
  else if Nat.ltb n 32 then
    backslash ++ "u00" ++ String (hex_digit (n / 16)) (String (hex_digit (n mod 16)) EmptyString)
  else String c EmptyString.

Fixpoint escape (s : string) : string :=
  match s with
  | EmptyString => EmptyString
  | String c s' => escape_char c ++ escape s'
  end.

Definition quote (s : string) : string := dquote ++ escape s ++ dquote.

(** The length of an array given by its properties: one more than its
    largest index. *)
Definition array_index (key : string) : option nat :=
  if reIsUint key && N.ltb (digits_value 0 key) 4294967295
  then Some (N.to_nat (digits_value 0 key)) else None.

Definition array_length {A} (props : Obj A) : nat :=
  fold_left (fun n kv => match array_index (fst kv) with
                         | Some i => Nat.max n (S i)
                         | None => n
                         end) props 0.

Definition braces (opening closing indent inner : string) (partial : list string) : string :=
  match partial with
  | [] => opening ++ closing
  | _ => opening ++ newline ++ inner
         ++ String.concat ("," ++ newline ++ inner) partial
         ++ newline ++ indent ++ closing
  end.

Fixpoint stringify (indent : string) (v : json) {struct v} : string :=
  match v with
  | JNull => "null"
  | JBool true => "true"
  | JBool false => "false"
  | JNum z => NilZero.string_of_int (Z.to_int z)
  | JStr s => quote s
  | JObj k props =>
      let inner := (indent ++ "  ")%string in
      let printed :=
        (fix each (ps : list (string * json)) : Obj string :=
           match ps with
           | [] => []
           | (key, x) :: ps' => (key, stringify inner x) :: each ps'
           end) props in
      match k with
      | KObject =>
          braces "{" "}" indent inner
            (map (fun kv => quote (fst kv) ++ ": " ++ snd kv) printed)
      | KArray =>
          braces "[" "]" indent inner
            (map (fun i => match obj_get (index_key i) printed with
                           | Some s => s
                           | None => "null"
                           end) (seq 0 (array_length printed)))
      end
  end.

Definition JSON_stringify (v : json) : string := stringify EmptyString v.

(* ================================================================== *)
(** ** The data model ([types.ts]) *)

Module LocaleRecord.
Record t : Type := mk {
  keypath : string;
  keyname : string;
  value : json;
  locale : string;
  filepath : option string;   (* [undefined] for an unresolved shadow *)
  shadow : bool
}.
End LocaleRecord.

Module LocaleNode.
Record t : Type := mk {
  keypath : string;
  keyname : string;
  locales : Obj LocaleRecord.t
}.
End LocaleNode.

(** [LocaleNode | LocaleTree], told apart by their [type] tag; the children of
    a tree are an object from key names to such items. *)
Unset Elimination Schemes.
Inductive TreeItem : Type :=
| Node (n : LocaleNode.t)
| Tree (keypath keyname : string) (children : list (string * TreeItem)).
Set Elimination Schemes.

Module ParsedFile.
Record t : Type := mk {
  filepath : string;
  locale : string;
  value : list (string * json);   (* the members of the parsed document *)
  nested : bool;
  flatten : Obj json
}.
End ParsedFile.

Module Coverage.
Record t : Type := mk {
  locale : string;
  total : nat;
  translated : nat;
  keys : list string
}.
End Coverage.

Module PendingWrite.
Record t : Type := mk {
  locale : string;
  value : json;
  filepath : option string;
  keypath : string
}.
End PendingWrite.

(** [Errors.ts]: the error types the loader raises. *)
Inductive ErrorType : Type :=
| translating_same_locale
| translating_empty_source_value
| translating_unknown_error
| filepath_not_specified.

(** An exception of the host, by its message. *)
Definition Exn : Type := string.

(** What a rejected promise carries: an [AllyError] with its type and cause,
    or an exception of the host (file system, [JSON.parse]). *)
Inductive Thrown : Type :=
| AllyError (type : ErrorType) (cause : option Exn)
| HostError (e : Exn).

Inductive Outcome (A : Type) : Type :=
| Fulfilled (a : A)
| Rejected (e : Thrown).
Arguments Fulfilled {A} a.
Arguments Rejected {A} e.

(** The exception of a read or a call on [undefined]. *)
Definition TypeError : Thrown := HostError "TypeError".

(** What a call gives: the value it returns, or what it throws. *)
Inductive Result (A : Type) : Type :=
| Return (a : A)
| Throw (e : Thrown).
Arguments Return {A} a.
Arguments Throw {A} e.

(** A loop whose body can throw: the exception ends it. *)
Fixpoint foldR {A B} (f : A -> B -> Result A) (l : list B) (a : A)
  : Result A :=
  match l with
  | [] => Return a
  | b :: rest =>
      match f a b with
      | Return a' => foldR f rest a'
      | Throw e => Throw e
      end
  end.

(** An exception thrown in an async method rejects its promise. *)
Definition settle {A} (r : Result A) : Outcome A :=
  match r with Return a => Fulfilled a | Throw e => Rejected e end.

(** The fields of the class. *)
Record LocaleLoader : Type := mkLoader {
  files : Obj ParsedFile.t;
  flattenLocaleTree : Obj LocaleNode.t;
  localeTree : TreeItem
}.

(** The loader together with the documents on disk, by path. *)
Record World : Type := mkWorld {
  loader : LocaleLoader;
  disk : Obj string
}.

(** An async method: it reads and changes the world and settles. *)
Definition Async (A : Type) : Type := World -> Outcome A * World.

Definition ret {A} (a : A) : Async A := fun w => (Fulfilled a, w).
Definition throw {A} (e : Thrown) : Async A := fun w => (Rejected e, w).
Definition bind {A B} (m : Async A) (f : A -> Async B) : Async B :=
  fun w => match m w with
           | (Fulfilled a, w') => f a w'
           | (Rejected e, w') => (Rejected e, w')
           end.

Notation "x <- m ;; k" := (bind m (fun x => k))
  (at level 61, m at next level, right associativity).
Notation "m ;;; k" := (bind m (fun _ => k))
  (at level 61, right associativity).

(** [existsSync] and [fs.readFile] on the documents. *)
Definition existsSync (filepath : string) : Async bool :=
  fun w => (Fulfilled (obj_has filepath (disk w)), w).

Definition readFile (filepath : string) : Async string :=
  fun w => match obj_get filepath (disk w) with
           | Some raw => (Fulfilled raw, w)
           | None => (Rejected (HostError "ENOENT"), w)
           end.

Definition getLoader : Async LocaleLoader := fun w => (Fulfilled (loader w), w).
Definition setLoader (l : LocaleLoader) : Async unit :=
  fun w => (Fulfilled tt, mkWorld l (disk w)).

(** [Promise.all]: rejected with the first rejection in settle order,
    fulfilled with all the values when nothing is rejected.  [order] lists
    task indices in the order in which they settle (the translation calls
    complete in an order the loader does not control). *)
Fixpoint first_rejected {A} (tasks : list (Outcome A)) (order : list nat)
  : option Thrown :=
  match order with
  | [] => None
  | i :: rest =>
      match nth_error tasks i with
      | Some (Rejected e) => Some e
      | _ => first_rejected tasks rest
      end
  end.

Fixpoint fulfilled_values {A} (tasks : list (Outcome A)) : list A :=
  match tasks with
  | [] => []
  | Fulfilled a :: rest => a :: fulfilled_values rest
  | Rejected _ :: rest => fulfilled_values rest
  end.

Definition Promise_all {A} (tasks : list (Outcome A)) (order : list nat)
  : Outcome (list A) :=
  match first_rejected tasks (order ++ seq 0 (length tasks))%list with
  | Some e => Rejected e
  | None => Fulfilled (fulfilled_values tasks)
  end.

(** [notEmpty] of [utils]: keeps what is not [undefined]. *)
Fixpoint filter_notEmpty {A} (l : list (option A)) : list A :=
  match l with
  | [] => []
  | Some a :: r => a :: filter_notEmpty r
  | None :: r => filter_notEmpty r
  end.

(** The argument of [MachineTranslate]. *)
Inductive NodeOrRecord : Type :=
| OfNode (n : LocaleNode.t)
| OfRecord (r : LocaleRecord.t).

(** The argument of [writeToFile]. *)
Inductive Pendings : Type :=
| One (p : option PendingWrite.t)
| Many (ps : list (option PendingWrite.t)).

(* ================================================================== *)
(** ** Sample collaborators and files

    Concrete values at which the properties below are exercised. *)

(** The key name of a key path: its last segment. *)
Definition sample_getKeyname (keypath : string) : string :=
  last (split_dot keypath) EmptyString.

(** Locale files named after their locale, side by side. *)
Definition sample_replaceLocalePath (filepath locale : string) : string :=
  locale ++ ".json".

(** A translation service that is down for German. *)
Definition sample_translate (text : json) (from to : string) : string + Exn :=
  if String.eqb to "de" then inr "service unavailable" else inl "bonjour".

(** A translation service that answers every request. *)
Definition sample_translate_ok (text : json) (from to : string) : string + Exn :=
  inl ("translated to " ++ to).

Definition obj (props : list (string * json)) : json := JObj KObject props.

(** A parser that knows the documents of the samples. *)
Definition sample_documents : list json :=
  [ obj [("a", obj [("b", JStr EmptyString)])];
    obj [("a", obj [("b", obj [("d", JNum 1)])])];
    obj [("a", JStr "x")] ].

Definition sample_JSON_parse (raw : string) : option json :=
  find (fun d => String.eqb raw (JSON_stringify d ++ newline)) sample_documents.

(** Prompts that are cancelled. *)
Definition sample_showInputBox (keypath locale : string) : option string := None.
Definition sample_showQuickPick (paths : list string) (keypath : string)
  : option string := None.

(** A file as [loadFile] stores it. *)
Definition parsedFile (filepath locale : string) (value : list (string * json))
  : ParsedFile.t :=
  ParsedFile.mk filepath locale value true (flat value).

Definition emptyTree : TreeItem := Tree EmptyString EmptyString [].

(** A loader that holds the given files and has not been rebuilt yet. *)
Definition loaderOf (fs : list ParsedFile.t) : LocaleLoader :=
  mkLoader (map (fun f => (ParsedFile.filepath f, f)) fs) [] emptyTree.

(** [en.json = {"a":{"b":"hello"}}], [fr.json = {"a":{"b":""}}] and an empty
    [de.json]. *)
Definition en_json : ParsedFile.t :=
  parsedFile "en.json" "en" [("a", obj [("b", JStr "hello")])].
Definition fr_json : ParsedFile.t :=
  parsedFile "fr.json" "fr" [("a", obj [("b", JStr EmptyString)])].
Definition fr_empty_json : ParsedFile.t := parsedFile "fr.json" "fr" [].

(** Files of mixed shapes: a value, a nested mapping and an empty mapping at
    [a]; a nested and a dotted key for [a.b]. *)
Definition en_a_y_json : ParsedFile.t :=
  parsedFile "en/more.json" "en" [("a", JStr "y")].
Definition fr_a_json : ParsedFile.t := parsedFile "fr.json" "fr" [("a", JStr "z")].
Definition fr_a_b_json : ParsedFile.t :=
  parsedFile "fr.json" "fr" [("a", obj [("b", JStr "y")])].
Definition en_a_empty_json : ParsedFile.t := parsedFile "en.json" "en" [("a", obj [])].
Definition en_nested_json : ParsedFile.t :=
  parsedFile "en/a.json" "en" [("a", obj [("b", JStr "x")])].
Definition en_dotted_json : ParsedFile.t :=
  parsedFile "en/b.json" "en" [("a.b", JStr "y")].
Definition fr_dotted_json : ParsedFile.t :=
  parsedFile "fr.json" "fr" [("a.b", JStr "y")].

(** [en.json = {"a":"x"}] and [en.json = {"a":{"":"x"}}] *)
Definition en_a_json : ParsedFile.t := parsedFile "en.json" "en" [("a", JStr "x")].
Definition en_a_empty_key_json : ParsedFile.t :=
  parsedFile "en.json" "en" [("a", obj [(EmptyString, JStr "x")])].
Definition de_empty_json : ParsedFile.t := parsedFile "de.json" "de" [].

(** Locale files named after their two-letter locale, [fr.json] or
    [/locales/fr.json], and the extension of a path that ends in [.json]. *)
Definition sample_getFileInfo (filepath : string) : string * bool :=
  (substring (String.length filepath - 7) 2 filepath, true).
Definition sample_extname (filepath : string) : string :=
  substring (String.length filepath - 5) 5 filepath.

(** A parser that knows one document that is no mapping, the number [42]. *)
Definition sample_JSON_parse_number (raw : string) : option json :=
  if String.eqb raw "42" then Some (JNum 42) else None.

(** Files with a key that is a name of [Object.prototype]: at the top of
    the document, and below [a]. *)
Definition en_constructor_json : ParsedFile.t :=
  parsedFile "en.json" "en" [("constructor", JStr "x")].
Definition en_a_constructor_json : ParsedFile.t :=
  parsedFile "en.json" "en"
    [("a", obj [("constructor", JStr "x"); ("b", JStr "y")])].

(** [path.resolve] on paths without [.] and [..] segments: an absolute path
    stands, a relative one goes below the path it is resolved against. *)
Definition sample_resolve (from to : string) : string :=
  if String.prefix "/" to then to
  else if String.eqb from "/" then "/" ++ to
  else from ++ "/" ++ to.

(** A disk that takes every write. *)
Definition sample_writeError (filepath : string) : option Exn := None.

(** A workspace at [/] with the directory [locales], which holds [en.json]
    and a file that is ignored; and the files of that directory as the
    scan and the watcher store them, under their resolved paths. *)
Definition sample_readdir (path : string) : list string + Exn :=
  if String.eqb path "/locales" then inl ["en.json"; "_draft.json"]
  else inr "ENOENT".
Definition sample_isDirectory (path : string) : bool + Exn := inl false.

Definition locales_en_json : ParsedFile.t :=
  parsedFile "/locales/en.json" "en" [("a", JStr "x")].
Definition locales_fr_json : ParsedFile.t :=
  parsedFile "/locales/fr.json" "fr" [("a", JStr "z")].
Definition locales_en_constructor_json : ParsedFile.t :=
  parsedFile "/locales/en.json" "en" [("constructor", JStr "x")].
(* ================================================================== *)
(** ** The class [LocaleLoader] *)

Section Loader.

(** The collaborators. *)
Variable getKeyname : string -> string.
Variable replaceLocalePath : string -> string -> string.
Variable getFileInfo : string -> string * bool.
Variable extname : string -> string.
(** [Global.sourceLanguage] and [Global.displayLanguage] *)
Variable sourceLanguage : string.
Variable displayLanguage : string.
(** The translation call: the translated text, or what it throws. *)
Variable MachinTranslate : json -> string -> string -> string + Exn.
(** The prompts of the editor, given the key path and the locale or the
    candidate paths; [None] when the user cancels. *)
Variable showInputBox : string -> string -> option string.
Variable showQuickPick : list string -> string -> option string.
(** [JSON.parse]; [None] when it throws. *)
Variable JSON_parse : string -> option json.
(** The directories of the workspace, beside the content of the files:
    [fs.readdir], the [isDirectory()] of [fs.lstat], both of which throw an
    exception of the host when they fail, and [path.resolve] of one path
    against another; [cwd] is the working directory, against which
    [path.resolve] of a single path resolves. *)
Variable readdir : string -> list string + Exn.
Variable isDirectory : string -> bool + Exn.
Variable resolve : string -> string -> string.
Variable cwd : string.
(** The exception with which the host refuses to write a file, if it does
    (a directory that does not exist, a file that is read-only). *)
Variable writeError : string -> option Exn.
(** [Global.rootPath] ([None] when there is no workspace) and
    [Global.localesPaths] *)
Variable Global_rootPath : option string.
Variable Global_localesPaths : list string.

(** [fs.writeFile]: the file holds the content, unless the host refuses the
    write, which leaves the disk as it is. *)
Definition writeFile (filepath content : string) : Async unit :=
  fun w =>
    match writeError filepath with
    | Some e => (Rejected (HostError e), w)
    | None =>
        (Fulfilled tt, mkWorld (loader w) (obj_set filepath content (disk w)))
    end.

Definition newTree (keypath : string) : TreeItem :=
  Tree keypath (getKeyname keypath) [].

(** Modelled from the spec: the class [LocaleNode] is declared in [types.ts],
    which is not part of the sources.  An entry node holds one record per
    locale and is created without any; its key name is derived from its key
    path as [newTree] does. *)
Definition newLocaleNode (keypath : string) : LocaleNode.t :=
  LocaleNode.mk keypath (getKeyname keypath) [].

(** Modelled from the spec: the method [getValue] of [LocaleNode], absent
    with the class.  It is the value the entry has for the locale,
    [undefined] when the entry has no record for it. *)
Definition getValue (node : LocaleNode.t) (locale : string) : option json :=
  option_map LocaleRecord.value (obj_get locale (LocaleNode.locales node)).

Definition locales (l : LocaleLoader) : list string :=
  uniq (map ParsedFile.locale (Object_values (files l))).

(** [keys.filter(key => tree[key] && tree[key].getValue(locale))]: a key
    without an entry is left out; under a name of [Object.prototype] that is
    no key of the index, [tree[key]] is the inherited member, which has no
    method [getValue], and the call throws. *)
Fixpoint translatedKeys (tree : Obj LocaleNode.t) (locale : string)
  (keys : list string) : Result (list string) :=
  match keys with
  | [] => Return []
  | key :: rest =>
      match js_get key tree with
      | Member _ => Throw TypeError
      | Undefined => translatedKeys tree locale rest
      | Own node =>
          match translatedKeys tree locale rest with
          | Return translated =>
              Return (if truthy_opt (getValue node locale)
                      then key :: translated else translated)
          | Throw e => Throw e
          end
      end
  end.

Definition getCoverage (l : LocaleLoader) (locale : string)
  (keys : option (list string)) : Result Coverage.t :=
  let keys := match keys with
              | Some ks => ks
              | None => Object_keys (flattenLocaleTree l)
              end in
  let total := length keys in
  match translatedKeys (flattenLocaleTree l) locale keys with
  | Return translated =>
      Return (Coverage.mk locale total (length translated) keys)
  | Throw e => Throw e
  end.

Definition getNodeByKey (l : LocaleLoader) (keypath : string)
  : Read LocaleNode.t :=
  js_get keypath (flattenLocaleTree l).

(** The record [getShadowFilePath] takes the path from: that of the source
    language or else the first one, [undefined] without any. *)
Definition sourceRecordOf (node : LocaleNode.t) : option LocaleRecord.t :=
  match obj_get sourceLanguage (LocaleNode.locales node) with
  | Some r => Some r
  | None => hd_error (Object_values (LocaleNode.locales node))
  end.

Definition getShadowFilePath (l : LocaleLoader) (keypath locale : string)
  : Result (option string) :=
  match getNodeByKey l keypath with
  | Own node =>
      match sourceRecordOf node with
      | Some r =>
          match LocaleRecord.filepath r with
          | Some fp =>
              if String.eqb fp EmptyString then Return None
              else Return (Some (replaceLocalePath fp locale))
          | None => Return None
          end
      | None => Return None
      end
  | Member _ => Throw TypeError   (* [node.locales] is [undefined] *)
  | Undefined => Return None
  end.

(** One turn of the loop of [getShadowLocales]. *)
Definition getShadowLocales_locale (l : LocaleLoader) (node : LocaleNode.t)
  (acc : Obj LocaleRecord.t) (locale : string) : Result (Obj LocaleRecord.t) :=
  match obj_get locale (LocaleNode.locales node) with
  | Some r =>
      (* locales already exists *)
      Return (obj_set locale r acc)
  | None =>
      (* create shadow locale *)
      match getShadowFilePath l (LocaleNode.keypath node) locale with
      | Return filepath =>
          Return
            (obj_set locale
               (LocaleRecord.mk (LocaleNode.keypath node)
                  (LocaleNode.keyname node) (JStr EmptyString) locale
                  filepath true)
               acc)
      | Throw e => Throw e
      end
  end.

Definition getShadowLocales (l : LocaleLoader) (node : LocaleNode.t)
  : Result (Obj LocaleRecord.t) :=
  foldR (getShadowLocales_locale l node) (locales l) [].

(** The query returns a mapping, or [undefined] (for the member of
    [Object.prototype] found under its name, which has no [locales]). *)
Definition getTranslationsByKey (l : LocaleLoader) (keypath : string)
  (shadow : bool) : Result (option (Obj LocaleRecord.t)) :=
  match getNodeByKey l keypath with
  | Undefined => Return (Some [])
  | Own node =>
      if shadow then
        match getShadowLocales l node with
        | Return shadows => Return (Some shadows)
        | Throw e => Throw e
        end
      else Return (Some (LocaleNode.locales node))
  | Member _ =>
      if shadow then
        (* [getShadowLocales] of the member: its [locales] is [undefined],
           and is read for the first known locale *)
        match locales l with
        | [] => Return (Some [])
        | _ :: _ => Throw TypeError
        end
      else Return None
  end.

(** [getTreeNodeByKey] from a given tree on.  The recursion is on the tree:
    the search for [tree.children[root]] is written out so that the
    recursive call is made on a child.  Without an own child, the read
    gives the member of [Object.prototype] when [root] is the name of
    one. *)
Fixpoint getTreeNodeByKey_from (keypath : string) (tree : TreeItem)
  {struct tree} : Read TreeItem :=
  match tree with
  | Node _ => Undefined   (* not a [LocaleTree] *)
  | Tree _ _ children =>
      let keys := split_dot keypath in
      let root := hd EmptyString keys in
      let remaining := join_dot (tl keys) in
      (fix child (cs : list (string * TreeItem)) : Read TreeItem :=
         match cs with
         | [] =>
             if inherited root && String.eqb remaining EmptyString
             then Member root else Undefined
         | (k, node) :: cs' =>
             if String.eqb k root then
               if String.eqb remaining EmptyString then Own node
               else match node with
                    | Tree _ _ _ => getTreeNodeByKey_from remaining node
                    | Node _ => Undefined
                    end
             else child cs'
         end) children
  end.

(** [tree = tree || this.localeTree] *)
Definition getTreeNodeByKey (l : LocaleLoader) (keypath : string)
  (tree : option TreeItem) : Read TreeItem :=
  getTreeNodeByKey_from keypath
    (match tree with Some t => t | None => localeTree l end).

(** [getClosestNodeByKey] from a given tree on; [atRoot] is the outcome of
    the identity test [tree === this.localeTree]. *)
Fixpoint getClosestNodeByKey_from (atRoot : bool) (keypath : string)
  (tree : TreeItem) {struct tree} : Read TreeItem :=
  match tree with
  | Node _ => Undefined   (* not a [LocaleTree] *)
  | Tree _ _ children =>
      let keys := split_dot keypath in
      let root := hd EmptyString keys in
      let remaining := join_dot (tl keys) in
      (fix child (cs : list (string * TreeItem)) : Read TreeItem :=
         match cs with
         | [] =>
             if inherited root && String.eqb remaining EmptyString
             then Member root   (* end of the search: [!remaining] *)
             else
               (* still at the root, nothing found; else return last node *)
               if atRoot then Undefined else Own tree
         | (k, node) :: cs' =>
             if String.eqb k root then
               match node with
               | Node _ => Own node   (* end of the search *)
               | Tree _ _ _ =>
                   if String.eqb remaining EmptyString then Own node
                   else (* go deeper *)
                     getClosestNodeByKey_from false remaining node
               end
             else child cs'
         end) children
  end.

(** Without a tree the search starts at the root, [this.localeTree]; a tree
    that is passed is taken to be another object than the root. *)
Definition getClosestNodeByKey (l : LocaleLoader) (keypath : string)
  (tree : option TreeItem) : Read TreeItem :=
  match tree with
  | None => getClosestNodeByKey_from true keypath (localeTree l)
  | Some t => getClosestNodeByKey_from false keypath t
  end.


Definition getFilepathsOfLocale (l : LocaleLoader) (locale : string)
  : list string :=
  map ParsedFile.filepath
    (filter (fun f => String.eqb (ParsedFile.locale f) locale)
       (Object_values (files l))).

Definition requestMissingFilepath (locale keypath : string)
  : Async (option string) :=
  l <- getLoader ;;
  let paths := getFilepathsOfLocale l locale in
  match paths with
  | [p] => ret (Some p)
  | [] => ret (showInputBox keypath locale)
  | _ => ret (showQuickPick paths keypath)
  end.

Definition MachineTranslateRecord (l : LocaleLoader) (record : LocaleRecord.t)
  (sourceLanguage : string) : Outcome (option PendingWrite.t) :=
  if String.eqb (LocaleRecord.locale record) sourceLanguage then
    Rejected (AllyError translating_same_locale None)
  else
    match getNodeByKey l (LocaleRecord.keypath record) with
    | Undefined => Rejected (AllyError translating_empty_source_value None)
    | Member _ =>
        (* [sourceNode.locales] is [undefined], and the read of the source
           language in it throws, before the [try] *)
        Rejected TypeError
    | Own sourceNode =>
        match obj_get sourceLanguage (LocaleNode.locales sourceNode) with
        | None => Rejected (AllyError translating_empty_source_value None)
        | Some sourceRecord =>
            if negb (truthy (LocaleRecord.value sourceRecord)) then
              Rejected (AllyError translating_empty_source_value None)
            else
              match MachinTranslate (LocaleRecord.value sourceRecord)
                      sourceLanguage (LocaleRecord.locale record) with
              | inl result =>
                  Fulfilled
                    (Some (PendingWrite.mk (LocaleRecord.locale record)
                             (JStr result) (LocaleRecord.filepath record)
                             (LocaleRecord.keypath record)))
              | inr e =>
                  Rejected (AllyError translating_unknown_error (Some e))
              end
        end
    end.

(** An exception of [getShadowLocales] is thrown before any task is
    started, and rejects the promise. *)
Definition MachineTranslateNode (l : LocaleLoader) (node : LocaleNode.t)
  (sourceLanguage : string) (order : list nat) : Outcome (list PendingWrite.t) :=
  match getShadowLocales l node with
  | Throw e => Rejected e
  | Return shadows =>
      let tasks :=
        map (fun record => MachineTranslateRecord l record sourceLanguage)
          (filter (fun record =>
                     negb (String.eqb (LocaleRecord.locale record)
                             sourceLanguage))
             (Object_values shadows)) in
      match Promise_all tasks order with
      | Fulfilled pendings => Fulfilled (filter_notEmpty pendings)
      | Rejected e => Rejected e
      end
  end.

Definition MachineTranslate (l : LocaleLoader) (node : NodeOrRecord)
  (source : option string) (order : list nat) : Outcome (list PendingWrite.t) :=
  let source :=
    match source with
    | Some s => if String.eqb s EmptyString then sourceLanguage else s
    | None => sourceLanguage
    end in
  match node with
  | OfNode n => MachineTranslateNode l n source order
  | OfRecord r =>
      match MachineTranslateRecord l r source with
      | Fulfilled pending => Fulfilled (filter_notEmpty [pending])
      | Rejected e => Rejected e
      end
  end.

(** [!filepath] *)
Definition resolved (filepath : option string) : option string :=
  match filepath with
  | Some fp => if String.eqb fp EmptyString then None else Some fp
  | None => None
  end.

Definition writeToSingleFile (pending : PendingWrite.t) : Async unit :=
  filepath <-
    match resolved (PendingWrite.filepath pending) with
    | Some fp => ret (Some fp)
    | None => requestMissingFilepath (PendingWrite.locale pending)
                (PendingWrite.keypath pending)
    end ;;
  match resolved filepath with
  | None => throw (AllyError filepath_not_specified None)
  | Some filepath =>
      present <- existsSync filepath ;;
      original <-
        (if present : bool then
           originalRaw <- readFile filepath ;;
           match JSON_parse originalRaw with
           | Some v => ret v
           | None => throw (HostError "SyntaxError")
           end
         else ret (JObj KObject [])) ;;
      let writting :=
        JSON_stringify
          (lodash_set original (PendingWrite.keypath pending)
             (PendingWrite.value pending)) ++ newline in
      writeFile filepath writting
  end.

Fixpoint writeAll (pendings : list PendingWrite.t) : Async unit :=
  match pendings with
  | [] => ret tt
  | pending :: rest => writeToSingleFile pending ;;; writeAll rest
  end.

Definition writeToFile (pendings : Pendings) : Async unit :=
  let pendings := match pendings with One p => [p] | Many ps => ps end in
  writeAll (filter_notEmpty pendings).

Definition unsetFile (filepath : string) (l : LocaleLoader) : LocaleLoader :=
  mkLoader (obj_delete filepath (files l)) (flattenLocaleTree l) (localeTree l).

(** A failure to read or parse evicts the file and is not raised. *)
Definition loadFile (filepath : string) : Async unit :=
  fun w =>
    let (locale, nested) := getFileInfo filepath in
    let parsed :=
      match obj_get filepath (disk w) with
      | Some raw =>
          match JSON_parse raw with
          | Some v => own_props v
          | None => None
          end
      | None => None
      end in
    let l := loader w in
    match parsed with
    | Some value =>
        (Fulfilled tt,
         mkWorld
           (mkLoader
              (obj_set filepath
                 (ParsedFile.mk filepath locale value nested (flat value))
                 (files l))
              (flattenLocaleTree l) (localeTree l))
           (disk w))
    | None => (Fulfilled tt, mkWorld (unsetFile filepath l) (disk w))
    end.

(** [node.locales[locale] = record] *)
Definition setLocale (node : LocaleNode.t) (locale : string)
  (record : LocaleRecord.t) : LocaleNode.t :=
  LocaleNode.mk (LocaleNode.keypath node) (LocaleNode.keyname node)
    (obj_set locale record (LocaleNode.locales node)).

(** The record [updateFlattenLocalesTree] builds for a key of a file. *)
Definition flattenRecord (file : ParsedFile.t) (keypath : string)
  : LocaleRecord.t :=
  LocaleRecord.mk keypath (getKeyname keypath)
    (match obj_get keypath (ParsedFile.flatten file) with
     | Some v => v
     | None => JNull   (* not reached: [keypath] is a key of [file.flatten] *)
     end)
    (ParsedFile.locale file) (Some (ParsedFile.filepath file)) false.

(** One turn of the inner loop of [updateFlattenLocalesTree].  Under a name
    of [Object.prototype], [tree[keypath]] is the inherited member: no entry
    is created, and the assignment into its [locales], which is
    [undefined], throws. *)
Definition updateFlatten_key (file : ParsedFile.t) (tree : Obj LocaleNode.t)
  (keypath : string) : Result (Obj LocaleNode.t) :=
  let tree :=
    match js_get keypath tree with
    | Undefined => obj_set keypath (newLocaleNode keypath) tree
    | _ => tree
    end in
  match js_get keypath tree with
  | Own node =>
      Return
        (obj_set keypath
           (setLocale node (ParsedFile.locale file) (flattenRecord file keypath))
           tree)
  | _ => Throw TypeError
  end.

(** One turn of its outer loop. *)
Definition updateFlatten_file (tree : Obj LocaleNode.t) (file : ParsedFile.t)
  : Result (Obj LocaleNode.t) :=
  foldR (updateFlatten_key file) (Object_keys (ParsedFile.flatten file)) tree.

(** The index [updateFlattenLocalesTree] assigns to [this.flattenLocaleTree],
    unless it throws on the way. *)
Definition updateFlattenLocalesTree (l : LocaleLoader)
  : Result (Obj LocaleNode.t) :=
  foldR updateFlatten_file (Object_values (files l)) [].

(** The record [subTree] builds for a scalar member of a file. *)
Definition treeRecord (file : ParsedFile.t) (newKeyPath key : string)
  (value : json) : LocaleRecord.t :=
  LocaleRecord.mk newKeyPath key value (ParsedFile.locale file)
    (Some (ParsedFile.filepath file)) false.

(** [tree.children[key] = item]: the children get the own member [key],
    but for the name [__proto__], whose assignment replaces the prototype
    of the children and gives them no member.  (What is read through a
    replaced prototype is not modelled: a property that rests on the reads
    of the children asks for files without a key [__proto__].) *)
Definition setChild (key : string) (item : TreeItem) (children : Obj TreeItem)
  : Obj TreeItem :=
  if String.eqb key "__proto__" then children else obj_set key item children.

(** One turn of the loop of [subTree]: the member [key] of the object under
    [keypath] is merged into the children of the tree.  A nested mapping is
    merged into the group found under the key, or into a new one.  For
    another value, an entry is created when nothing is found under the key,
    and the record is stored when an entry is found; under a name of
    [Object.prototype] that is no child, what is found is the inherited
    member, which is no entry: the value is skipped. *)
Fixpoint subTree_member (keypath : string) (file : ParsedFile.t)
  (key : string) (value : json) (children : Obj TreeItem) {struct value}
  : Obj TreeItem :=
  let newKeyPath := childKeyPath keypath key in
  match value with
  | JObj _ object =>
      (* [tree = originalTree || newTree(newKeyPath)] *)
      let '(kp, kn, cs) :=
        match js_get key children with
        | Own (Tree kp kn cs) => (kp, kn, cs)
        | _ => (newKeyPath, getKeyname newKeyPath, [])
        end in
      setChild key
        (Tree kp kn
           ((fix loop (entries : list (string * json)) (cs : Obj TreeItem)
               : Obj TreeItem :=
               match entries with
               | [] => cs
               | (k, v) :: entries' =>
                   loop entries' (subTree_member newKeyPath file k v cs)
               end) object cs))
        children
  | _ =>
      let children :=
        match js_get key children with
        | Undefined => obj_set key (Node (newLocaleNode newKeyPath)) children
        | _ => children
        end in
      match js_get key children with
      | Own (Node node) =>
          (* [node.locales[file.locale] = record], in place *)
          obj_set key
            (Node (setLocale node (ParsedFile.locale file)
                     (treeRecord file newKeyPath key value)))
            children
      | _ => children
      end
  end.

Definition subTree_loop (object : list (string * json)) (keypath : string)
  (file : ParsedFile.t) (children : Obj TreeItem) : Obj TreeItem :=
  fold_left (fun cs kv => subTree_member keypath file (fst kv) (snd kv) cs)
    object children.

(** [subTree(object, keypath, file, tree)] *)
Definition subTree (object : list (string * json)) (keypath : string)
  (file : ParsedFile.t) (tree : option TreeItem) : TreeItem :=
  match (match tree with Some t => t | None => newTree keypath end) with
  | Tree kp kn cs => Tree kp kn (subTree_loop object keypath file cs)
  | Node n => Node n   (* not a [LocaleTree] *)
  end.

Definition updateLocalesTree (l : LocaleLoader) : TreeItem :=
  fold_left
    (fun tree file => subTree (ParsedFile.value file) EmptyString file (Some tree))
    (Object_values (files l)) (newTree EmptyString).

(** [update]: the tree is rebuilt and assigned first; when the rebuild of
    the flatten index throws, the index is left as it was and the exception
    leaves [update].  The "changed" event dispatched at the end has no
    effect on the state. *)
Definition update (l : LocaleLoader) : Result unit * LocaleLoader :=
  let l1 := mkLoader (files l) (flattenLocaleTree l) (updateLocalesTree l) in
  match updateFlattenLocalesTree l1 with
  | Return tree => (Return tt, mkLoader (files l1) tree (localeTree l1))
  | Throw e => (Throw e, l1)
  end.

(** A call of a method of the loader in an async method. *)
Definition call (method : LocaleLoader -> Result unit * LocaleLoader)
  : Async unit :=
  fun w =>
    let (result, l) := method (loader w) in
    (settle result, mkWorld l (disk w)).

(** The handler [updateFile] of the watcher, on the path of the event. *)
Inductive WatchEvent : Type := Del | Change | Create.

Definition updateFile (type : WatchEvent) (fsPath : string) : Async unit :=
  let filepath := resolve cwd fsPath in
  if negb (String.eqb (extname filepath) ".json") then ret tt
  else
    match type with
    | Del =>
        l <- getLoader ;;
        setLoader (mkLoader (obj_delete filepath (files l))
                     (flattenLocaleTree l) (localeTree l)) ;;;
        call update
    | Change | Create =>
        loadFile filepath ;;;
        call update
    end.

(* ---------------------------------------------------------------- *)
(** *** The directory scan: [loadDirectory], [loadAll], [init] *)

(** [await] of a call of the host. *)
Definition await {A} (r : A + Exn) : Async A :=
  fun w => match r with
           | inl a => (Fulfilled a, w)
           | inr e => (Rejected (HostError e), w)
           end.

(** [for (const p of paths) await this.loadFile(p)] *)
Fixpoint loadFiles (paths : list string) : Async unit :=
  match paths with
  | [] => ret tt
  | p :: rest => loadFile p ;;; loadFiles rest
  end.

(** One turn of the loop of [loadDirectory]. *)
Definition loadDirectory_entry (rootPath filename : string) : Async unit :=
  (* filename starts with underscore will be ignored *)
  if String.prefix "_" filename then ret tt
  else
    let filePath := resolve rootPath filename in
    isDir <- await (isDirectory filePath) ;;
    if negb isDir && negb (String.eqb (extname filePath) ".json") then ret tt
    else if negb isDir then loadFile filePath
    else
      children <- await (readdir filePath) ;;
      loadFiles (map (resolve filePath) children).

Fixpoint loadDirectory_entries (rootPath : string) (paths : list string)
  : Async unit :=
  match paths with
  | [] => ret tt
  | filename :: rest =>
      loadDirectory_entry rootPath filename ;;;
      loadDirectory_entries rootPath rest
  end.

Definition loadDirectory (rootPath : string) : Async unit :=
  paths <- await (readdir rootPath) ;;
  loadDirectory_entries rootPath paths.

(** The roots the loader has a watcher on, in the order of registration:
    [watchOn] creates one for everything below its root. *)
Definition Watched : Type := list string.

Definition watchOn (rootPath : string) (watched : Watched) : Watched :=
  (watched ++ [rootPath])%list.

(** The loop of [loadAll]: every locales path is loaded, then watched. *)
Fixpoint loadAll_paths (rootPath : string) (pathnames : list string)
  (watched : Watched) (w : World) : Outcome unit * World * Watched :=
  match pathnames with
  | [] => (Fulfilled tt, w, watched)
  | pathname :: rest =>
      let fullpath := resolve rootPath pathname in
      match loadDirectory fullpath w with
      | (Fulfilled _, w') =>
          loadAll_paths rootPath rest (watchOn fullpath watched) w'
      | (Rejected e, w') => (Rejected e, w', watched)
      end
  end.

Definition loadAll (watched : Watched) (w : World)
  : Outcome unit * World * Watched :=
  match resolved Global_rootPath with
  | None => (Fulfilled tt, w, watched)
  | Some rootPath => loadAll_paths rootPath Global_localesPaths watched w
  end.

(** [await this.loadAll(); this.update()]: an exception of [update]
    rejects the promise of [init]. *)
Definition init (watched : Watched) (w : World)
  : Outcome unit * World * Watched :=
  match loadAll watched w with
  | (Fulfilled _, w', watched') =>
      let (result, w'') := call update w' in (result, w'', watched')
  | (Rejected e, w', watched') => (Rejected e, w', watched')
  end.

(* ---------------------------------------------------------------- *)
(** *** Notions used to state the properties *)

(** An own property as a read. *)
Definition toRead {A} (found : option A) : Read A :=
  match found with Some a => Own a | None => Undefined end.

(** The loader after [update], and whether [update] returned: the tree is
    rebuilt either way, the flatten index when [update] returned. *)
Definition updated (l : LocaleLoader) : LocaleLoader := snd (update l).

Definition rebuilt (l : LocaleLoader) : Prop := fst (update l) = Return tt.

(** The files in processing order, [Object.values(this.files)]. *)
Definition allFiles (l : LocaleLoader) : list ParsedFile.t :=
  Object_values (files l).

(** Every full key path of the loaded files, with repetitions. *)
Definition allKeyPaths (l : LocaleLoader) : list string :=
  flat_map (fun f => Object_keys (ParsedFile.flatten f)) (allFiles l).

(** No full key path of the files is a name of [Object.prototype]. *)
Definition indexable (fs : list ParsedFile.t) : bool :=
  forallb
    (fun f => forallb (fun keypath => negb (inherited keypath))
                (Object_keys (ParsedFile.flatten f)))
    fs.

(** The read of the flatten index under the key gives a member of
    [Object.prototype]: the key is the name of one and no key of the
    index. *)
Definition readsMember (l : LocaleLoader) (keypath : string) : bool :=
  inherited keypath && negb (obj_has keypath (flattenLocaleTree l)).

(** No key of the index is a name of [Object.prototype]. *)
Definition ordinaryIndex (tree : Obj LocaleNode.t) : Prop :=
  Forall (fun k => inherited k = false) (Object_keys tree).

(** The entry the flatten index has under a key, if it has one. *)
Definition entryOf (l : LocaleLoader) (keypath : string)
  : option LocaleNode.t :=
  obj_get keypath (flattenLocaleTree l).

(** The entry a file leaves in the flatten index at one of its keys. *)
Definition flattenEntry (file : ParsedFile.t) (keypath : string)
  (before : option LocaleNode.t) : LocaleNode.t :=
  setLocale (match before with Some n => n | None => newLocaleNode keypath end)
    (ParsedFile.locale file) (flattenRecord file keypath).

(** The turns of the loops of [updateFlattenLocalesTree] when they do not
    throw, and the index they build from the files [fs]. *)
Definition indexKey (file : ParsedFile.t) (tree : Obj LocaleNode.t)
  (keypath : string) : Obj LocaleNode.t :=
  obj_set keypath (flattenEntry file keypath (obj_get keypath tree)) tree.

Definition indexFile (tree : Obj LocaleNode.t) (file : ParsedFile.t)
  : Obj LocaleNode.t :=
  fold_left (indexKey file) (Object_keys (ParsedFile.flatten file)) tree.

Definition flattenIndex (fs : list ParsedFile.t) : Obj LocaleNode.t :=
  fold_left indexFile fs [].

(** The loader a rebuild gives when it completes. *)
Definition rebuild (l : LocaleLoader) : LocaleLoader :=
  mkLoader (files l) (fold_left indexFile (allFiles l) []) (updateLocalesTree l).

(** The item reached from a tree by following the segments of a path
    through the children. *)
Fixpoint tree_get (path : list string) (t : TreeItem) : option TreeItem :=
  match path with
  | [] => Some t
  | key :: rest =>
      match t with
      | Tree _ _ children =>
          match obj_get key children with
          | Some c => tree_get rest c
          | None => None
          end
      | Node _ => None
      end
  end.



(** The tree after the files [fs] were merged in that order. *)
Definition treeOf (fs : list ParsedFile.t) : TreeItem :=
  fold_left
    (fun tree file => subTree (ParsedFile.value file) EmptyString file (Some tree))
    fs (newTree EmptyString).

(** The file holds a nested mapping, respectively a value that is none,
    at the path. *)
Definition groupIn (f : ParsedFile.t) (path : list string) : bool :=
  match doc_get path (JObj KObject (ParsedFile.value f)) with
  | Some v => isObject v
  | None => false
  end.

Definition entryIn (f : ParsedFile.t) (path : list string) : bool :=
  match doc_get path (JObj KObject (ParsedFile.value f)) with
  | Some v => negb (isObject v)
  | None => false
  end.

(** The record the tree holds for [locale] at [path] after the files [fs]:
    the one of the last file of the locale with a value at the path. *)
Definition lastTree (fs : list ParsedFile.t) (locale : string)
  (path : list string) : option LocaleRecord.t :=
  fold_left
    (fun acc f =>
       if String.eqb (ParsedFile.locale f) locale then
         match doc_get path (JObj KObject (ParsedFile.value f)) with
         | Some v =>
             if isObject v then acc
             else Some (treeRecord f (pathKey EmptyString path)
                          (last path EmptyString) v)
         | None => acc
         end
       else acc)
    fs None.

(** Files as [loadFile] leaves them, with the flattened form of their
    document. *)
Definition loaded (fs : list ParsedFile.t) : Prop :=
  Forall (fun f => ParsedFile.flatten f = flat (ParsedFile.value f)) fs.

(** No path leads to a value in one file and to a nested mapping in
    another (or the same) file. *)
Definition sameShape (fs : list ParsedFile.t) : bool :=
  forallb
    (fun f =>
       forallb (fun pv => forallb (fun g => negb (groupIn g (fst pv))) fs)
         (leafPaths (ParsedFile.value f)))
    fs.

(** A file set on which the tree and the flatten index see the same keys:
    plain keys, no empty nested mapping, values and groups at the same
    paths in all files. *)
Definition wellShaped (fs : list ParsedFile.t) : Prop :=
  loaded fs
  /\ forallb (fun f => plainKeys (ParsedFile.value f)
                      && noEmptyObjects (ParsedFile.value f)) fs = true
  /\ sameShape fs = true.

(** No key of the document, at any depth, is a name of
    [Object.prototype]. *)
Definition ordinaryKeys (object : list (string * json)) : bool :=
  everyObject (fun _ props => forallb (fun key => negb (inherited key))
                                (map fst props))
    (JObj KObject object).

(** No key of the document, at any depth, is [__proto__]. *)
Definition noProtoKey (object : list (string * json)) : bool :=
  everyObject (fun _ props => forallb (fun key => negb (String.eqb key "__proto__"))
                                (map fst props))
    (JObj KObject object).

(** Two records with the same content: all fields but the key name, which
    the tree takes from the key and the flatten index from [getKeyname]. *)
Definition sameContent (r r' : LocaleRecord.t) : Prop :=
  LocaleRecord.keypath r = LocaleRecord.keypath r'
  /\ LocaleRecord.value r = LocaleRecord.value r'
  /\ LocaleRecord.locale r = LocaleRecord.locale r'
  /\ LocaleRecord.filepath r = LocaleRecord.filepath r'
  /\ LocaleRecord.shadow r = LocaleRecord.shadow r'.

Definition sameRecord (r r' : option LocaleRecord.t) : Prop :=
  match r, r' with
  | Some a, Some b => sameContent a b
  | None, None => True
  | _, _ => False
  end.

(** What a scalar member leaves at its key: an entry with the record of the
    file, unless a group stands there; nothing, when nothing stands there
    and the key is a name of [Object.prototype]. *)
Definition scalarItem (file : ParsedFile.t) (newKeyPath key : string)
  (value : json) (before : option TreeItem) : option TreeItem :=
  match before with
  | Some (Tree kp kn cs) => Some (Tree kp kn cs)
  | Some (Node n) =>
      Some (Node (setLocale n (ParsedFile.locale file)
                    (treeRecord file newKeyPath key value)))
  | None =>
      if inherited key then None
      else Some (Node (setLocale (newLocaleNode newKeyPath)
                         (ParsedFile.locale file)
                         (treeRecord file newKeyPath key value)))
  end.

(** What a member leaves at its key. *)
Definition memberItem (keypath : string) (file : ParsedFile.t) (key : string)
  (value : json) (before : option TreeItem) : option TreeItem :=
  let newKeyPath := childKeyPath keypath key in
  match value with
  | JObj _ object =>
      if String.eqb key "__proto__" then before
      else
        Some match before with
             | Some (Tree kp kn cs) =>
                 Tree kp kn (subTree_loop object newKeyPath file cs)
             | _ =>
                 Tree newKeyPath (getKeyname newKeyPath)
                   (subTree_loop object newKeyPath file [])
             end
  | _ => scalarItem file newKeyPath key value before
  end.

(** The entry of the flatten index at [key] has a non-empty (truthy) value
    for [locale]. *)
Definition hasTranslation (l : LocaleLoader) (locale key : string) : bool :=
  match entryOf l key with
  | Some node =>
      match obj_get locale (LocaleNode.locales node) with
      | Some record => truthy (LocaleRecord.value record)
      | None => false
      end
  | None => false
  end.

(** [!filepath] of a record. *)
Definition recordPath (r : LocaleRecord.t) : option string :=
  resolved (LocaleRecord.filepath r).

(** The file path inferred for a missing locale of an entry: that of the
    record of the source locale or, without one, of the first record of
    the entry, with its locale replaced; unresolved when the entry has no
    record with a file path. *)
Definition inferredFilePath (node : LocaleNode.t) (locale : string)
  : option string :=
  match sourceRecordOf node with
  | Some r => option_map (fun fp => replaceLocalePath fp locale) (recordPath r)
  | None => None
  end.

(** The path [getShadowFilePath] returns for a key that has an entry or is
    not found at all. *)
Definition shadowFilePath (l : LocaleLoader) (keypath locale : string)
  : option string :=
  match entryOf l keypath with
  | Some node => inferredFilePath node locale
  | None => None
  end.

(** The record of [getShadowLocales] for a locale: the stored one, or a
    shadow. *)
Definition shadowRecord (l : LocaleLoader) (node : LocaleNode.t)
  (locale : string) : LocaleRecord.t :=
  match obj_get locale (LocaleNode.locales node) with
  | Some r => r
  | None =>
      LocaleRecord.mk (LocaleNode.keypath node) (LocaleNode.keyname node)
        (JStr EmptyString) locale
        (shadowFilePath l (LocaleNode.keypath node) locale) true
  end.

(** The mapping [getShadowLocales] returns when it does not throw. *)
Definition shadowLocales (l : LocaleLoader) (node : LocaleNode.t)
  : Obj LocaleRecord.t :=
  fold_left (fun acc locale => obj_set locale (shadowRecord l node locale) acc)
    (locales l) [].

(** The file a pending write goes to: its own file path or, without one,
    the answer of [requestMissingFilepath]; [None] when neither resolves. *)
Definition targetPath (l : LocaleLoader) (pending : PendingWrite.t)
  : option string :=
  match resolved (PendingWrite.filepath pending) with
  | Some fp => Some fp
  | None =>
      resolved
        (match getFilepathsOfLocale l (PendingWrite.locale pending) with
         | [p] => Some p
         | [] => showInputBox (PendingWrite.keypath pending)
                   (PendingWrite.locale pending)
         | paths => showQuickPick paths (PendingWrite.keypath pending)
         end)
  end.

(** The document a write starts from: the parsed content of the file, the
    empty document when there is no file; [None] when the content does
    not parse. *)
Definition existingDocument (w : World) (filepath : string) : option json :=
  match obj_get filepath (disk w) with
  | Some raw => JSON_parse raw
  | None => Some (JObj KObject [])
  end.

(** Every record of the entry is stored under its own locale. *)
Definition keyedByLocale (node : LocaleNode.t) : bool :=
  forallb (fun kr => String.eqb (fst kr) (LocaleRecord.locale (snd kr)))
    (LocaleNode.locales node).

(** The records [MachineTranslateNode] translates among those of
    [getShadowLocales], and its tasks. *)
Definition translationTargets (shadows : Obj LocaleRecord.t) (source : string)
  : list LocaleRecord.t :=
  filter (fun record => negb (String.eqb (LocaleRecord.locale record) source))
    (Object_values shadows).

Definition translationTasks (l : LocaleLoader) (shadows : Obj LocaleRecord.t)
  (source : string) : list (Outcome (option PendingWrite.t)) :=
  map (fun record => MachineTranslateRecord l record source)
    (translationTargets shadows source).

(** The record the flatten index holds for [locale] at [keypath] after the
    files [fs] were processed in that order: the one of the last file of
    the locale that has the key. *)
Definition lastFlatten (fs : list ParsedFile.t) (locale keypath : string)
  : option LocaleRecord.t :=
  fold_left
    (fun acc f =>
       if String.eqb (ParsedFile.locale f) locale
          && obj_has keypath (ParsedFile.flatten f)
       then Some (flattenRecord f keypath) else acc)
    fs None.

Definition isRejected {A} (o : Outcome A) : Prop :=
  match o with Rejected _ => True | Fulfilled _ => False end.

(** One step of [unflatten], on a path. *)
Definition put (recipient : list (string * json)) (pv : list string * json)
  : list (string * json) :=
  unflatten_put (fst pv) (snd pv) recipient.

(** A value [flat] keeps: anything but a non-empty object or array. *)
Definition isLeaf (v : json) : bool :=
  match v with JObj _ (_ :: _) => false | _ => true end.

(** [plainKeys] and [noArrays] of a value. *)
Definition plainValue (v : json) : bool :=
  everyObject (fun _ props => distinct (map fst props)
                              && forallb plain_keyb (map fst props)) v.

Definition noArraysValue (v : json) : bool :=
  everyObject (fun k _ => match k with KObject => true | KArray => false end) v.

(** What [wellShaped] asks of one file. *)
Definition fileOk (f : ParsedFile.t) : Prop :=
  ParsedFile.flatten f = flat (ParsedFile.value f)
  /\ plainKeys (ParsedFile.value f) = true
  /\ noEmptyObjects (ParsedFile.value f) = true.

(** The tree, respectively the flatten index, is the one a rebuild computes
    from the file store. *)
Definition treeInSync (l : LocaleLoader) : Prop :=
  localeTree l = updateLocalesTree l.



(** What [loadFile] makes of the content of a file: the members of the
    parsed document; [None] when the file is missing, does not parse, or
    parses to [null]. *)
Definition readDocument (w : World) (filepath : string)
  : option (list (string * json)) :=
  match obj_get filepath (disk w) with
  | Some raw =>
      match JSON_parse raw with
      | Some v => own_props v
      | None => None
      end
  | None => None
  end.

(** The source language a call of [MachineTranslate] works with:
    [sourceLanguage || Global.sourceLanguage]. *)
Definition effectiveSource (source : option string) : string :=
  match source with
  | Some s => if String.eqb s EmptyString then sourceLanguage else s
  | None => sourceLanguage
  end.

(** The item hangs in the tree under the key path [keypath] and the key
    [key] and says so, and so does every item below it: a group carries its
    key path and the key name derived from it, an entry carries its key
    path, and each of its records carries the key path, the key as key name
    and the locale it is stored under, with a file path and no shadow
    flag.  No child hangs under the key [__proto__]. *)
Definition recordAt (keypath key : string) (lr : string * LocaleRecord.t)
  : Prop :=
  LocaleRecord.keypath (snd lr) = keypath
  /\ LocaleRecord.keyname (snd lr) = key
  /\ LocaleRecord.locale (snd lr) = fst lr
  /\ LocaleRecord.shadow (snd lr) = false
  /\ LocaleRecord.filepath (snd lr) <> None.

Fixpoint keyedAt (keypath key : string) (t : TreeItem) {struct t} : Prop :=
  match t with
  | Node n =>
      LocaleNode.keypath n = keypath
      /\ LocaleNode.keyname n = getKeyname keypath
      /\ Forall (recordAt keypath key) (LocaleNode.locales n)
  | Tree kp kn children =>
      kp = keypath /\ kn = getKeyname keypath
      /\ (fix all (cs : list (string * TreeItem)) : Prop :=
            match cs with
            | [] => True
            | (k, c) :: cs' =>
                k <> "__proto__"
                /\ keyedAt (childKeyPath keypath k) k c /\ all cs'
            end) children
  end.

(** A child of a group under [keypath]: it hangs under its own key, which
    is not [__proto__]. *)
Definition childAt (keypath : string) (kc : string * TreeItem) : Prop :=
  fst kc <> "__proto__"
  /\ keyedAt (childKeyPath keypath (fst kc)) (fst kc) (snd kc).

(** The paths a scan of [rootPath] may load: the entries of the directory
    whose name does not start with an underscore and that are [.json] files
    and, for those that are directories, all their entries. *)
Definition scanCandidates (rootPath : string) : list string :=
  match readdir rootPath with
  | inl paths =>
      flat_map
        (fun filename =>
           if String.prefix "_" filename then []
           else
             let filePath := resolve rootPath filename in
             match isDirectory filePath with
             | inl false =>
                 if String.eqb (extname filePath) ".json" then [filePath]
                 else []
             | inl true =>
                 match readdir filePath with
                 | inl children => map (resolve filePath) children
                 | inr _ => []
                 end
             | inr _ => []
             end)
        paths
  | inr _ => []
  end.

(** The world [w'] differs from [w] at most in the entries of the file
    store for the given paths: the disk, the namespace tree and the flatten
    index are the same, and so is the entry of every other path. *)
Definition loadedOnly (paths : list string) (w w' : World) : Prop :=
  disk w' = disk w
  /\ localeTree (loader w') = localeTree (loader w)
  /\ flattenLocaleTree (loader w') = flattenLocaleTree (loader w)
  /\ forall other,
       ~ In other paths ->
       obj_get other (files (loader w')) = obj_get other (files (loader w)).

(** The roots [loadAll] scans: the locales paths below the root path of the
    workspace, none without a workspace. *)
Definition scanRoots : list string :=
  match resolved Global_rootPath with
  | Some rootPath => map (resolve rootPath) Global_localesPaths
  | None => []
  end.

(** Numbers a double holds exactly, which [JSON.stringify] prints in full. *)
Definition exactNumbers (v : json) : bool :=
  (fix value (v : json) : bool :=
     match v with
     | JNum z => Z.leb (Z.abs z) 9007199254740992
     | JObj _ props =>
         (fix all (ps : list (string * json)) : bool :=
            match ps with
            | [] => true
            | (_, x) :: ps' => value x && all ps'
            end) props
     | _ => true
     end) v.

(** No segment of the path before the last is a name of
    [Object.prototype]: [set] reads no member of it on the way. *)
Definition ordinaryWay (path : list string) : bool :=
  forallb (fun key => negb (inherited key)) (removelast path).

(** No segment of the path is an array index (an integer-like key, which
    an object enumerates before its other keys). *)
Definition noIndex (path : list string) : bool :=
  forallb (fun key => negb (isIndex key)) path.

(* ================================================================== *)
(** * Properties *)

(** Propositional and arithmetic steps are taken after the collaborators
    that the goal does not mention are put aside, so that a lemma depends on
    those of its statement only. *)
Ltac aside :=
  try clear Global_localesPaths; try clear Global_rootPath;
  try clear writeError; try clear cwd;
  try clear resolve; try clear isDirectory; try clear readdir;
  try clear JSON_parse; try clear showQuickPick; try clear showInputBox;
  try clear MachinTranslate; try clear displayLanguage;
  try clear sourceLanguage; try clear extname; try clear getFileInfo;
  try clear replaceLocalePath; try clear getKeyname.
Ltac taut := aside; tauto.
Ltac arith := aside; lia.

(** ** Objects as maps *)

Section ObjFacts.
Context {A : Type}.
Implicit Types (o : Obj A) (k : string) (v : A).

Lemma obj_get_set_eq k v o : obj_get k (obj_set k v o) = Some v.
Proof.
  induction o as [|[k' v'] o IH]; simpl.
  - now rewrite String.eqb_refl.
  - destruct (String.eqb k' k) eqn:E; simpl; rewrite E; auto.
Qed.

Lemma obj_get_set_neq k k' v o :
  k <> k' -> obj_get k' (obj_set k v o) = obj_get k' o.
Proof.
  intros Hne. induction o as [|[k0 v0] o IH]; simpl.
  - destruct (String.eqb_spec k k'); congruence.
  - destruct (String.eqb_spec k0 k); simpl.
    + subst. destruct (String.eqb_spec k k'); congruence.
    + destruct (String.eqb_spec k0 k'); auto.
Qed.

Lemma obj_get_set k k' v o :
  obj_get k' (obj_set k v o) = if String.eqb k k' then Some v else obj_get k' o.
Proof.
  destruct (String.eqb_spec k k').
  - subst. apply obj_get_set_eq.
  - now apply obj_get_set_neq.
Qed.

Lemma obj_get_None_keys k o : obj_get k o = None <-> ~ In k (Object_keys o).
Proof.
  induction o as [|[k' v'] o IH]; simpl.
  - taut.
  - destruct (String.eqb_spec k' k).
    + split; [discriminate | intros H; exfalso; auto].
    + rewrite IH. taut.
Qed.

Lemma obj_get_Some_keys k v o : obj_get k o = Some v -> In k (Object_keys o).
Proof.
  intros H. destruct (in_dec string_dec k (Object_keys o)) as [|Hn]; auto.
  apply obj_get_None_keys in Hn. congruence.
Qed.

Lemma obj_get_In k v o : obj_get k o = Some v -> In (k, v) o.
Proof.
  induction o as [|[k' v'] o IH]; simpl; [discriminate|].
  destruct (String.eqb_spec k' k); intros H.
  - inversion H; subst. auto.
  - auto.
Qed.

Lemma obj_has_true k o : obj_has k o = true <-> In k (Object_keys o).
Proof.
  unfold obj_has. destruct (obj_get k o) eqn:E.
  - split; auto. intros _. eapply obj_get_Some_keys; eauto.
  - apply obj_get_None_keys in E. split; [discriminate | contradiction].
Qed.

Lemma obj_has_false k o : obj_has k o = false <-> ~ In k (Object_keys o).
Proof.
  rewrite <- obj_has_true. destruct (obj_has k o); split; congruence.
Qed.

Lemma Object_keys_set k v o :
  Object_keys (obj_set k v o)
  = if obj_has k o then Object_keys o else (Object_keys o ++ [k])%list.
Proof.
  unfold obj_has. induction o as [|[k' v'] o IH]; simpl; auto.
  destruct (String.eqb_spec k' k); simpl; auto.
  rewrite IH. destruct (obj_get k o); auto.
Qed.

Lemma obj_set_fresh k v o :
  ~ In k (Object_keys o) -> obj_set k v o = (o ++ [(k, v)])%list.
Proof.
  induction o as [|[k' v'] o IH]; simpl; auto.
  intros H. destruct (String.eqb_spec k' k).
  - exfalso; auto.
  - f_equal. auto.
Qed.

Lemma NoDup_keys_set k v o :
  NoDup (Object_keys o) -> NoDup (Object_keys (obj_set k v o)).
Proof.
  intros H. rewrite Object_keys_set. destruct (obj_has k o) eqn:E; auto.
  apply obj_has_false in E.
  apply NoDup_app; auto.
  - repeat constructor. simpl. taut.
  - intros x Hx [<-|[]]. contradiction.
Qed.

Lemma obj_get_app k o1 o2 :
  obj_get k (o1 ++ o2)%list
  = match obj_get k o1 with Some v => Some v | None => obj_get k o2 end.
Proof.
  induction o1 as [|[k' v'] o1 IH]; simpl; auto.
  destruct (String.eqb k' k); auto.
Qed.

Lemma obj_get_NoDup_In k v o :
  NoDup (Object_keys o) -> In (k, v) o -> obj_get k o = Some v.
Proof.
  induction o as [|[k' v'] o IH]; simpl; [taut|].
  intros Hnd [H|H].
  - inversion H; subst. now rewrite String.eqb_refl.
  - inversion Hnd; subst. destruct (String.eqb_spec k' k).
    + subst. exfalso. apply H2. change k with (fst (k, v)). now apply in_map.
    + auto.
Qed.
End ObjFacts.

(** [uniq] keeps exactly the elements of the list, once each. *)
Lemma uniq_In x l : In x (uniq l) <-> In x l.
Proof.
  induction l as [|y l IH]; simpl; [taut|].
  rewrite filter_In, IH. destruct (String.eqb_spec x y); simpl.
  - subst. taut.
  - split.
    + intros [H|[H _]]; auto.
    + intros [H|H]; [congruence|auto].
Qed.

Lemma NoDup_filter {A} (f : A -> bool) l : NoDup l -> NoDup (filter f l).
Proof.
  induction 1 as [|x l Hx Hl IH]; simpl; [constructor|].
  destruct (f x); auto. constructor; auto.
  rewrite filter_In. taut.
Qed.

Lemma uniq_NoDup l : NoDup (uniq l).
Proof.
  induction l as [|y l IH]; simpl; constructor.
  - rewrite filter_In, String.eqb_refl. simpl. intros [_ H]. discriminate.
  - now apply NoDup_filter.
Qed.

Lemma uniq_snoc l x :
  uniq (l ++ [x]) = if in_dec string_dec x l then uniq l else (uniq l ++ [x])%list.
Proof.
  induction l as [|y l IH]; simpl; auto.
  rewrite IH. destruct (string_dec y x) as [->|Hne].
  - destruct (in_dec string_dec x l); auto.
    rewrite filter_app. simpl. rewrite String.eqb_refl. simpl.
    now rewrite app_nil_r.
  - destruct (in_dec string_dec x l) as [Hin|Hin]; auto.
    rewrite filter_app. simpl.
    destruct (String.eqb_spec x y); [congruence|]. reflexivity.
Qed.

(* ================================================================== *)
(** ** The flatten index *)

Lemma obj_set_idem {A} k (v : A) o : obj_set k v (obj_set k v o) = obj_set k v o.
Proof.
  induction o as [|[k' v'] o IH]; simpl.
  - now rewrite String.eqb_refl.
  - destruct (String.eqb k' k) eqn:E; simpl; rewrite E; congruence.
Qed.

Lemma obj_set_set {A} k (v v' : A) o : obj_set k v (obj_set k v' o) = obj_set k v o.
Proof.
  induction o as [|[k0 v0] o IH]; simpl.
  - now rewrite String.eqb_refl.
  - destruct (String.eqb k0 k) eqn:E; simpl; rewrite E; congruence.
Qed.


Lemma indexKey_eq file tree keypath :
  indexKey file tree keypath
  = obj_set keypath (flattenEntry file keypath (obj_get keypath tree)) tree.
Proof.
  reflexivity.
Qed.

Lemma flattenEntry_idem file keypath n :
  flattenEntry file keypath (Some (flattenEntry file keypath n))
  = flattenEntry file keypath n.
Proof.
  unfold flattenEntry, setLocale; simpl. now rewrite obj_set_idem.
Qed.

Lemma indexKeys_get file ks : forall tree k,
  obj_get k (fold_left (indexKey file) ks tree)
  = if in_dec string_dec k ks
    then Some (flattenEntry file k (obj_get k tree))
    else obj_get k tree.
Proof.
  induction ks as [|k0 ks IH]; intros tree k; simpl; auto.
  rewrite IH, indexKey_eq, obj_get_set.
  destruct (string_dec k0 k) as [->|Hne].
  - rewrite String.eqb_refl, flattenEntry_idem.
    destruct (in_dec string_dec k ks); auto.
  - destruct (String.eqb_spec k0 k); [congruence|].
    destruct (in_dec string_dec k ks); auto.
Qed.

Lemma indexFile_get tree file k :
  obj_get k (indexFile tree file)
  = if obj_has k (ParsedFile.flatten file)
    then Some (flattenEntry file k (obj_get k tree))
    else obj_get k tree.
Proof.
  unfold indexFile. rewrite indexKeys_get.
  destruct (in_dec string_dec k (Object_keys (ParsedFile.flatten file))) as [H|H].
  - apply obj_has_true in H. now rewrite H.
  - apply obj_has_false in H. now rewrite H.
Qed.

Lemma indexKeys_NoDup file ks : forall tree,
  NoDup (Object_keys tree) ->
  NoDup (Object_keys (fold_left (indexKey file) ks tree)).
Proof.
  induction ks as [|k0 ks IH]; intros tree H; simpl; auto.
  apply IH. rewrite indexKey_eq. now apply NoDup_keys_set.
Qed.

Lemma flattenIndex_NoDup fs : forall tree,
  NoDup (Object_keys tree) ->
  NoDup (Object_keys (fold_left indexFile fs tree)).
Proof.
  induction fs as [|f fs IH]; intros tree H; simpl; auto.
  apply IH. now apply indexKeys_NoDup.
Qed.

Lemma lastFlatten_snoc fs f locale k :
  lastFlatten (fs ++ [f]) locale k
  = if String.eqb (ParsedFile.locale f) locale
       && obj_has k (ParsedFile.flatten f)
    then Some (flattenRecord f k) else lastFlatten fs locale k.
Proof. unfold lastFlatten. now rewrite fold_left_app. Qed.

Lemma lastFlatten_None fs locale k :
  (forall f, In f fs -> obj_has k (ParsedFile.flatten f) = false) ->
  lastFlatten fs locale k = None.
Proof.
  induction fs as [|g fs IH] using rev_ind; intros H; auto.
  rewrite lastFlatten_snoc, (H g), andb_false_r.
  - apply IH. intros f0 Hf0. apply H. apply in_or_app. auto.
  - apply in_or_app. simpl. auto.
Qed.

(** What the flatten index holds at a key after the files [fs]. *)
Lemma flattenIndex_get fs k :
  match obj_get k (fold_left indexFile fs []) with
  | Some n =>
      LocaleNode.keypath n = k /\ LocaleNode.keyname n = getKeyname k
      /\ (exists f, In f fs /\ obj_has k (ParsedFile.flatten f) = true)
      /\ forall locale, obj_get locale (LocaleNode.locales n) = lastFlatten fs locale k
  | None => forall f, In f fs -> obj_has k (ParsedFile.flatten f) = false
  end.
Proof.
  induction fs as [|f fs IH] using rev_ind.
  - simpl. taut.
  - rewrite fold_left_app. simpl. rewrite indexFile_get.
    destruct (obj_has k (ParsedFile.flatten f)) eqn:Hk.
    + assert (Hin : exists f0, In f0 (fs ++ [f])
                               /\ obj_has k (ParsedFile.flatten f0) = true).
      { exists f. split; auto. apply in_or_app. simpl. auto. }
      destruct (obj_get k (fold_left indexFile fs [])) as [n|] eqn:E.
      * destruct IH as (H1 & H2 & _ & H4).
        unfold flattenEntry, setLocale; simpl. repeat split; auto.
        intros locale. rewrite obj_get_set, lastFlatten_snoc, Hk, andb_true_r.
        destruct (String.eqb (ParsedFile.locale f) locale); auto.
      * unfold flattenEntry, setLocale; simpl. repeat split; auto.
        intros locale. rewrite lastFlatten_snoc, Hk, andb_true_r.
        destruct (String.eqb (ParsedFile.locale f) locale); auto.
        symmetry. now apply lastFlatten_None.
    + destruct (obj_get k (fold_left indexFile fs [])) as [n|] eqn:E.
      * destruct IH as (H1 & H2 & (f0 & Hf0 & Hk0) & H4). repeat split; auto.
        -- exists f0. split; auto. apply in_or_app. auto.
        -- intros locale. now rewrite lastFlatten_snoc, Hk, andb_false_r.
      * intros f0 Hf0. apply in_app_or in Hf0. destruct Hf0 as [H|[<-|[]]]; auto.
Qed.

Lemma flattenIndex_keys fs k :
  In k (Object_keys (fold_left indexFile fs []))
  <-> exists f, In f fs /\ In k (Object_keys (ParsedFile.flatten f)).
Proof.
  pose proof (flattenIndex_get fs k) as H.
  destruct (obj_get k (fold_left indexFile fs [])) as [n|] eqn:E.
  - destruct H as (_ & _ & (f & Hf & Hk) & _). split.
    + intros _. exists f. split; auto. now apply obj_has_true.
    + intros _. eapply obj_get_Some_keys; eauto.
  - split.
    + intros Hin. apply obj_get_None_keys in E. contradiction.
    + intros (f & Hf & Hk). apply obj_has_true in Hk. rewrite (H f Hf) in Hk.
      discriminate.
Qed.

Lemma rebuild_files l : files (rebuild l) = files l.
Proof. reflexivity. Qed.

Lemma rebuild_flatten l :
  flattenLocaleTree (rebuild l) = fold_left indexFile (allFiles l) [].
Proof. reflexivity. Qed.

Lemma flattenIndex_keys_count l :
  length (Object_keys (flattenLocaleTree (rebuild l)))
  = length (nodup string_dec (allKeyPaths l)).
Proof.
  apply Permutation_length, NoDup_Permutation.
  - rewrite rebuild_flatten. apply flattenIndex_NoDup. constructor.
  - apply NoDup_nodup.
  - intros k. rewrite nodup_In, rebuild_flatten, flattenIndex_keys.
    unfold allKeyPaths. rewrite in_flat_map. taut.
Qed.

(* ================================================================== *)

(* ================================================================== *)
(** ** Reads through the prototype chain *)

Lemma js_get_Own {A} k (o : Obj A) v :
  js_get k o = Own v <-> obj_get k o = Some v.
Proof.
  unfold js_get. destruct (obj_get k o); [|destruct (inherited k)];
    split; congruence.
Qed.

Lemma js_get_Member {A} k (o : Obj A) m :
  js_get k o = Member m
  <-> obj_get k o = None /\ inherited k = true /\ m = k.
Proof.
  unfold js_get. destruct (obj_get k o); [|destruct (inherited k)]; split;
    try congruence; try (intros (H1 & H2 & H3); congruence).
  intros H; inversion H; auto.
Qed.

Lemma js_get_Undefined {A} k (o : Obj A) :
  js_get k o = Undefined <-> obj_get k o = None /\ inherited k = false.
Proof.
  unfold js_get. destruct (obj_get k o); [|destruct (inherited k)]; split;
    try congruence; try (intros (H1 & H2); congruence); auto.
Qed.


Lemma js_get_own {A} k (o : Obj A) v : obj_get k o = Some v -> js_get k o = Own v.
Proof. apply js_get_Own. Qed.

Lemma js_get_absent {A} k (o : Obj A) :
  obj_get k o = None ->
  js_get k o = if inherited k then Member k else Undefined.
Proof. intros H. unfold js_get. now rewrite H. Qed.

(* ================================================================== *)
(** ** The rebuild of the flatten index *)

(** A turn of the loop throws exactly under a name of [Object.prototype]
    that is no key of the index yet. *)
Lemma updateFlatten_key_run file tree keypath :
  updateFlatten_key file tree keypath
  = if inherited keypath && negb (obj_has keypath tree) then Throw TypeError
    else Return (indexKey file tree keypath).
Proof.
  unfold updateFlatten_key, indexKey, flattenEntry, obj_has, js_get.
  destruct (obj_get keypath tree) as [n|] eqn:E.
  - rewrite E, andb_false_r. reflexivity.
  - destruct (inherited keypath) eqn:Hi; cbn [andb negb].
    + now rewrite E.
    + rewrite obj_get_set_eq, obj_set_set. reflexivity.
Qed.

Lemma ordinaryIndex_has tree k :
  ordinaryIndex tree -> inherited k = true -> obj_has k tree = false.
Proof.
  intros Ht Hk. apply obj_has_false. intros Hin.
  unfold ordinaryIndex in Ht. rewrite Forall_forall in Ht.
  specialize (Ht _ Hin). congruence.
Qed.

Lemma ordinaryIndex_indexKey file tree k :
  ordinaryIndex tree -> inherited k = false ->
  ordinaryIndex (indexKey file tree k).
Proof.
  unfold ordinaryIndex, indexKey. intros Ht Hk. rewrite Forall_forall in *.
  intros x Hx. rewrite Object_keys_set in Hx.
  destruct (obj_has k tree); [auto|].
  apply in_app_or in Hx. destruct Hx as [Hx|[<-|[]]]; auto.
Qed.

Lemma updateFlatten_keys_run file ks : forall tree,
  ordinaryIndex tree ->
  foldR (updateFlatten_key file) ks tree
  = if forallb (fun k => negb (inherited k)) ks
    then Return (fold_left (indexKey file) ks tree)
    else Throw TypeError.
Proof.
  induction ks as [|k ks IH]; intros tree Ht; cbn [foldR forallb fold_left];
    [reflexivity|].
  rewrite updateFlatten_key_run.
  destruct (inherited k) eqn:Hk; cbn [negb andb].
  - now rewrite (@ordinaryIndex_has _ _ Ht Hk).
  - apply IH. now apply ordinaryIndex_indexKey.
Qed.

Lemma ordinaryIndex_keys file ks : forall tree,
  ordinaryIndex tree ->
  forallb (fun k => negb (inherited k)) ks = true ->
  ordinaryIndex (fold_left (indexKey file) ks tree).
Proof.
  induction ks as [|k ks IH]; intros tree Ht Hks; cbn [fold_left]; auto.
  cbn [forallb] in Hks. apply andb_true_iff in Hks. destruct Hks as [Hk Hks].
  apply IH; auto. apply ordinaryIndex_indexKey; auto.
  now apply negb_true_iff.
Qed.

Lemma updateFlatten_files_run fs : forall tree,
  ordinaryIndex tree ->
  foldR updateFlatten_file fs tree
  = if indexable fs then Return (fold_left indexFile fs tree)
    else Throw TypeError.
Proof.
  unfold indexable.
  induction fs as [|f fs IH]; intros tree Ht; cbn [foldR forallb fold_left];
    [reflexivity|].
  unfold updateFlatten_file at 1. rewrite updateFlatten_keys_run by assumption.
  destruct (forallb (fun k => negb (inherited k))
              (Object_keys (ParsedFile.flatten f))) eqn:Hf; cbn [andb].
  - apply IH. now apply ordinaryIndex_keys.
  - reflexivity.
Qed.

(** The rebuild of the flatten index throws exactly when a full key path
    of a loaded file is a name of [Object.prototype]. *)
Lemma updateFlattenLocalesTree_run l :
  updateFlattenLocalesTree l
  = if indexable (allFiles l)
    then Return (fold_left indexFile (allFiles l) [])
    else Throw TypeError.
Proof.
  unfold updateFlattenLocalesTree, allFiles.
  apply updateFlatten_files_run. constructor.
Qed.

Lemma update_run l :
  update l
  = if indexable (allFiles l) then (Return tt, rebuild l)
    else (Throw TypeError,
          mkLoader (files l) (flattenLocaleTree l) (updateLocalesTree l)).
Proof.
  unfold update.
  change (updateFlattenLocalesTree
            (mkLoader (files l) (flattenLocaleTree l) (updateLocalesTree l)))
    with (updateFlattenLocalesTree l).
  rewrite updateFlattenLocalesTree_run.
  now destruct (indexable (allFiles l)).
Qed.

Lemma rebuilt_indexable l : rebuilt l <-> indexable (allFiles l) = true.
Proof.
  unfold rebuilt. rewrite update_run.
  destruct (indexable (allFiles l)); cbn [fst]; split; congruence.
Qed.

Lemma updated_rebuild l : rebuilt l -> updated l = rebuild l.
Proof.
  intros H. apply rebuilt_indexable in H. unfold updated.
  now rewrite update_run, H.
Qed.

Lemma updated_files l : files (updated l) = files l.
Proof.
  unfold updated. rewrite update_run. now destruct (indexable (allFiles l)).
Qed.

Lemma updated_tree l : localeTree (updated l) = updateLocalesTree l.
Proof.
  unfold updated. rewrite update_run. now destruct (indexable (allFiles l)).
Qed.


Lemma rebuild_ordinary l k :
  In k (Object_keys (flattenLocaleTree (rebuild l))) ->
  exists f, In f (allFiles l) /\ In k (Object_keys (ParsedFile.flatten f)).
Proof. rewrite rebuild_flatten. apply flattenIndex_keys. Qed.

(** After a rebuild that completes, the index has an entry under a key by
    reading exactly when it has an own one, and what is read under a name
    of [Object.prototype] is the inherited member. *)
Lemma indexable_ordinary l k :
  indexable (allFiles l) = true ->
  In k (Object_keys (flattenLocaleTree (rebuild l))) -> inherited k = false.
Proof.
  intros Hi Hk. apply rebuild_ordinary in Hk. destruct Hk as (f & Hf & Hk).
  unfold indexable in Hi. rewrite forallb_forall in Hi.
  specialize (Hi _ Hf). rewrite forallb_forall in Hi.
  specialize (Hi _ Hk). now apply negb_true_iff.
Qed.

Lemma getNodeByKey_entryOf l k n :
  getNodeByKey l k = Own n <-> entryOf l k = Some n.
Proof. apply js_get_Own. Qed.


Lemma getNodeByKey_Member l k m :
  getNodeByKey l k = Member m <-> readsMember l k = true /\ m = k.
Proof.
  unfold getNodeByKey, readsMember, obj_has. rewrite js_get_Member.
  destruct (obj_get k (flattenLocaleTree l)); destruct (inherited k);
    cbn [andb negb]; split; intros H; repeat split; try taut;
    try (destruct H as (? & ? & ?); congruence);
    try (destruct H; congruence).
Qed.

Lemma getNodeByKey_run l k :
  getNodeByKey l k
  = if readsMember l k then Member k else toRead (entryOf l k).
Proof.
  unfold getNodeByKey, readsMember, entryOf, js_get, obj_has, toRead.
  destruct (obj_get k (flattenLocaleTree l)); destruct (inherited k);
    reflexivity.
Qed.

Lemma readsMember_entryOf l k :
  readsMember l k = true -> entryOf l k = None.
Proof.
  unfold readsMember, entryOf, obj_has. intros H.
  apply andb_true_iff in H. destruct H as [_ H].
  now destruct (obj_get k (flattenLocaleTree l)).
Qed.

(** After a rebuild that completes, a name of [Object.prototype] is no key
    of the index. *)
Lemma readsMember_rebuild l k :
  indexable (allFiles l) = true -> readsMember (rebuild l) k = inherited k.
Proof.
  intros Hi. unfold readsMember. destruct (inherited k) eqn:Hk; cbn [andb];
    [|reflexivity].
  apply negb_true_iff, obj_has_false. intros Hin.
  rewrite (indexable_ordinary l k Hi Hin) in Hk. discriminate.
Qed.

(* ================================================================== *)
(** ** Coverage *)

(** The filter of [getCoverage] throws exactly when the key set holds a
    name of [Object.prototype] that is no key of the index; otherwise it
    keeps the keys whose entry has a truthy value for the locale. *)
Lemma translatedKeys_run tree locale keys :
  translatedKeys tree locale keys
  = if existsb (fun key => inherited key && negb (obj_has key tree)) keys
    then Throw TypeError
    else Return
           (filter (fun key =>
                      match obj_get key tree with
                      | Some node => truthy_opt (getValue node locale)
                      | None => false
                      end) keys).
Proof.
  induction keys as [|key keys IH]; cbn [translatedKeys existsb filter];
    [reflexivity|].
  unfold js_get, obj_has. rewrite IH.
  destruct (obj_get key tree) as [node|]; cbn [negb].
  - rewrite andb_false_r. cbn [orb].
    now destruct (existsb _ keys).
  - destruct (inherited key); cbn [andb orb]; reflexivity.
Qed.

Lemma translatedKeys_own tree locale :
  translatedKeys tree locale (Object_keys tree)
  = Return
      (filter (fun key =>
                 match obj_get key tree with
                 | Some node => truthy_opt (getValue node locale)
                 | None => false
                 end) (Object_keys tree)).
Proof.
  rewrite translatedKeys_run.
  replace (existsb (fun key => inherited key && negb (obj_has key tree))
             (Object_keys tree)) with false; [reflexivity|].
  symmetry. apply not_true_is_false. intros H.
  apply existsb_exists in H. destruct H as (key & Hin & H).
  apply andb_true_iff in H. destruct H as [_ H].
  apply negb_true_iff, obj_has_false in H. contradiction.
Qed.

(** After a rebuild, the entry of a key has a truthy value for a locale
    exactly when the last loaded file of the locale that has the key has
    one there. *)
Lemma hasTranslation_rebuild l locale key :
  hasTranslation (rebuild l) locale key
  = match lastFlatten (allFiles l) locale key with
    | Some record => truthy (LocaleRecord.value record)
    | None => false
    end.
Proof.
  unfold hasTranslation, entryOf. rewrite rebuild_flatten.
  pose proof (flattenIndex_get (allFiles l) key) as H.
  destruct (obj_get key (fold_left indexFile (allFiles l) [])) as [n|].
  - destruct H as (_ & _ & _ & H). now rewrite H.
  - now rewrite (lastFlatten_None _ _ _ H).
Qed.

Lemma getCoverage_run l locale keys :
  let ks := match keys with
            | Some ks => ks
            | None => Object_keys (flattenLocaleTree l)
            end in
  getCoverage l locale keys
  = if existsb (fun key => inherited key
                           && negb (obj_has key (flattenLocaleTree l))) ks
    then Throw TypeError
    else Return (Coverage.mk locale (length ks)
                   (length (filter (hasTranslation l locale) ks)) ks).
Proof.
  cbv zeta. unfold getCoverage. rewrite translatedKeys_run.
  destruct (existsb _ _); [reflexivity|].
  do 3 f_equal. apply filter_ext. intros key.
  unfold hasTranslation, entryOf, getValue.
  destruct (obj_get key (flattenLocaleTree l)) as [n|]; auto.
  destruct (obj_get locale (LocaleNode.locales n)); auto.
Qed.

Lemma existsb_inherited_own l ks :
  indexable (allFiles l) = true ->
  existsb (fun key => inherited key
                      && negb (obj_has key (flattenLocaleTree (rebuild l)))) ks
  = existsb inherited ks.
Proof.
  intros Hi. induction ks as [|k ks IH]; cbn [existsb]; [reflexivity|].
  rewrite IH. f_equal.
  destruct (inherited k) eqn:Hk; cbn [andb]; [|reflexivity].
  apply negb_true_iff, obj_has_false. intros Hin.
  rewrite (indexable_ordinary l k Hi Hin) in Hk. discriminate.
Qed.

(** X29.  The coverage of a locale after a rebuild that completes.  For a
    key set (by default the keys of the flatten index) that holds no name of
    [Object.prototype], [getCoverage] returns the locale and the key set;
    [total] is the length of the key set; [translated] is the number of its
    keys for which the last loaded file of the locale that has the key has
    a non-empty (truthy) value, so that [translated <= total].  With the
    default key set the call returns, and [total] is the number of distinct
    full key paths of the loaded files.  For a key set that holds a name of
    [Object.prototype] the call throws a [TypeError]. *)
Theorem getCoverage_counts (l : LocaleLoader) (locale : string)
  (keys : option (list string)) :
  rebuilt l ->
  let ks := match keys with
            | Some ks => ks
            | None => Object_keys (flattenLocaleTree (updated l))
            end in
  let translatedIn key :=
    match lastFlatten (allFiles l) locale key with
    | Some record => truthy (LocaleRecord.value record)
    | None => false
    end in
  (if existsb inherited ks
   then getCoverage (updated l) locale keys = Throw TypeError
   else exists c,
          getCoverage (updated l) locale keys = Return c
          /\ Coverage.locale c = locale
          /\ Coverage.keys c = ks
          /\ Coverage.total c = length ks
          /\ Coverage.translated c = length (filter translatedIn ks)
          /\ Coverage.translated c <= Coverage.total c)
  /\ (keys = None ->
      existsb inherited ks = false
      /\ length ks = length (nodup string_dec (allKeyPaths l))).
Proof.
  intros Hr. pose proof (proj1 (rebuilt_indexable l) Hr) as Hi.
  rewrite (updated_rebuild Hr). cbv zeta. split.
  - rewrite getCoverage_run. cbv zeta.
    rewrite (existsb_inherited_own l _ Hi).
    destruct (existsb inherited _); [reflexivity|].
    eexists. split; [reflexivity|]. cbn.
    rewrite (filter_ext _ _ (hasTranslation_rebuild l locale)).
    repeat split; auto. apply filter_length_le.
  - intros ->. split.
    + apply not_true_is_false. intros H.
      apply existsb_exists in H. destruct H as (key & Hin & H).
      rewrite (indexable_ordinary l key Hi Hin) in H. discriminate.
    + apply flattenIndex_keys_count.
Qed.

(* ================================================================== *)
(** ** Machine translation *)


Lemma fold_obj_set_fresh {A} (g : string -> A) ks : forall acc,
  NoDup (Object_keys acc ++ ks) ->
  fold_left (fun acc k => obj_set k (g k) acc) ks acc
  = (acc ++ map (fun k => (k, g k)) ks)%list.
Proof.
  induction ks as [|k ks IH]; intros acc Hnd; simpl.
  - now rewrite app_nil_r.
  - assert (Hk : ~ In k (Object_keys acc)).
    { apply NoDup_remove_2 in Hnd. intros H. apply Hnd. apply in_or_app. auto. }
    rewrite IH.
    + rewrite (obj_set_fresh _ _ _ Hk), <- app_assoc. reflexivity.
    + rewrite (obj_set_fresh _ _ _ Hk). unfold Object_keys.
      rewrite map_app. simpl. rewrite <- app_assoc. exact Hnd.
Qed.

Lemma fold_left_eq {A B} (f g : A -> B -> A) (l : list B) :
  (forall a b, f a b = g a b) -> forall a, fold_left f l a = fold_left g l a.
Proof.
  intros H. induction l as [|b l IH]; intros a; simpl; auto.
  rewrite H. apply IH.
Qed.

Lemma shadowLocales_eq l node :
  shadowLocales l node
  = map (fun locale => (locale, shadowRecord l node locale)) (locales l).
Proof.
  unfold shadowLocales.
  change (map (fun locale => (locale, shadowRecord l node locale)) (locales l))
    with ([] ++ map (fun locale => (locale, shadowRecord l node locale))
                  (locales l))%list.
  rewrite <- (fold_obj_set_fresh (shadowRecord l node) (locales l) []).
  - reflexivity.
  - simpl. apply uniq_NoDup.
Qed.

Lemma shadowRecord_locale l node locale :
  keyedByLocale node = true ->
  LocaleRecord.locale (shadowRecord l node locale) = locale.
Proof.
  intros H. unfold shadowRecord.
  destruct (obj_get locale (LocaleNode.locales node)) as [r|] eqn:E; auto.
  apply obj_get_In in E. unfold keyedByLocale in H.
  rewrite forallb_forall in H. apply H in E. simpl in E.
  symmetry. now apply String.eqb_eq.
Qed.

Lemma translationTargets_eq l node source :
  keyedByLocale node = true ->
  translationTargets (shadowLocales l node) source
  = map (shadowRecord l node)
      (filter (fun locale => negb (String.eqb locale source)) (locales l)).
Proof.
  intros H. unfold translationTargets. rewrite shadowLocales_eq.
  unfold Object_values. rewrite map_map. simpl.
  induction (locales l) as [|x xs IH]; simpl; auto.
  rewrite (@shadowRecord_locale l node x H).
  destruct (negb (String.eqb x source)); simpl; congruence.
Qed.

(** *** [Promise.all] *)


Lemma first_rejected_In {A} (tasks : list (Outcome A)) order e :
  first_rejected tasks order = Some e -> In (Rejected e) tasks.
Proof.
  induction order as [|i order IH]; simpl; [discriminate|].
  destruct (nth_error tasks i) as [[a|e']|] eqn:E; auto.
  intros H. inversion H; subst. eapply nth_error_In; eauto.
Qed.

Lemma first_rejected_app {A} (tasks : list (Outcome A)) o1 o2 :
  first_rejected tasks (o1 ++ o2)
  = match first_rejected tasks o1 with
    | Some e => Some e
    | None => first_rejected tasks o2
    end.
Proof.
  induction o1 as [|i o1 IH]; simpl; auto.
  destruct (nth_error tasks i) as [[a|e']|]; auto.
Qed.

Lemma first_rejected_seq {A} (tasks : list (Outcome A)) :
  first_rejected tasks (seq 0 (length tasks)) = None ->
  Forall (fun t => ~ isRejected t) tasks.
Proof.
  intros H. apply Forall_forall. intros t Ht Hr.
  destruct (In_nth_error _ _ Ht) as [i Hi].
  assert (Hlt : i < length tasks) by (apply nth_error_Some; congruence).
  assert (Hin : In i (seq 0 (length tasks))) by (apply in_seq; arith).
  revert H Hin. generalize (seq 0 (length tasks)) as order.
  induction order as [|j order IH]; simpl; [taut|].
  intros H [->|Hin].
  - rewrite Hi in H. destruct t; [contradiction | discriminate].
  - destruct (nth_error tasks j) as [[a|e']|]; auto. discriminate.
Qed.

Lemma Promise_all_spec {A} (tasks : list (Outcome A)) order :
  match Promise_all tasks order with
  | Fulfilled values => tasks = map Fulfilled values
  | Rejected e => In (Rejected e) tasks
  end.
Proof.
  unfold Promise_all.
  destruct (first_rejected tasks (order ++ seq 0 (length tasks))) as [e|] eqn:E.
  - eapply first_rejected_In; eauto.
  - rewrite first_rejected_app in E.
    destruct (first_rejected tasks order); [discriminate|].
    apply first_rejected_seq in E.
    induction tasks as [|[a|e] tasks IH]; simpl; auto.
    + inversion E; subst. f_equal. auto.
    + inversion E; subst. exfalso. apply H1. exact I.
Qed.

Lemma filter_notEmpty_Some {A} (l : list A) : filter_notEmpty (map Some l) = l.
Proof. induction l; simpl; congruence. Qed.


(** [getShadowFilePath] throws exactly when the member of
    [Object.prototype] is read under the key path. *)
Lemma getShadowFilePath_run l keypath locale :
  getShadowFilePath l keypath locale
  = if readsMember l keypath then Throw TypeError
    else Return (shadowFilePath l keypath locale).
Proof.
  unfold getShadowFilePath, shadowFilePath. rewrite getNodeByKey_run.
  destruct (readsMember l keypath) eqn:Hm; [reflexivity|].
  unfold toRead, inferredFilePath, recordPath, resolved.
  destruct (entryOf l keypath) as [node|]; [|reflexivity].
  destruct (sourceRecordOf node) as [r|]; [|reflexivity].
  destruct (LocaleRecord.filepath r) as [fp|]; [|reflexivity].
  now destruct (String.eqb fp EmptyString).
Qed.

(** [getShadowLocales] throws exactly when a shadow is to be made for an
    entry under whose key path the member of [Object.prototype] is read. *)
Lemma getShadowLocales_fold l node ls : forall acc,
  foldR (getShadowLocales_locale l node) ls acc
  = if readsMember l (LocaleNode.keypath node)
       && negb (forallb (fun locale => obj_has locale (LocaleNode.locales node))
                  ls)
    then Throw TypeError
    else Return
           (fold_left
              (fun acc locale => obj_set locale (shadowRecord l node locale) acc)
              ls acc).
Proof.
  induction ls as [|locale ls IH]; intros acc; cbn [foldR forallb fold_left].
  - now rewrite andb_false_r.
  - unfold getShadowLocales_locale at 1. unfold shadowRecord at 2, obj_has at 1.
    destruct (obj_get locale (LocaleNode.locales node)) as [r|]; cbn [andb].
    + apply IH.
    + rewrite getShadowFilePath_run.
      destruct (readsMember l (LocaleNode.keypath node)) eqn:Hm; cbn [andb negb];
        [reflexivity|].
      rewrite IH. reflexivity.
Qed.

Lemma getShadowLocales_run l node :
  getShadowLocales l node
  = if readsMember l (LocaleNode.keypath node)
       && negb (forallb (fun locale => obj_has locale (LocaleNode.locales node))
                  (locales l))
    then Throw TypeError
    else Return (shadowLocales l node).
Proof. apply getShadowLocales_fold. Qed.

Lemma getShadowLocales_Return l node shadows :
  getShadowLocales l node = Return shadows -> shadows = shadowLocales l node.
Proof.
  rewrite getShadowLocales_run. destruct (_ && _); congruence.
Qed.

Lemma getShadowLocales_Throw l node e :
  getShadowLocales l node = Throw e -> e = TypeError.
Proof.
  rewrite getShadowLocales_run. destruct (_ && _); congruence.
Qed.

Lemma MachineTranslateRecord_never_undefined l record source :
  MachineTranslateRecord l record source <> Fulfilled None.
Proof.
  unfold MachineTranslateRecord.
  repeat match goal with
         | |- context [match ?x with _ => _ end] => destruct x
         end; discriminate.
Qed.

Lemma MachineTranslateNode_run l node source order shadows :
  getShadowLocales l node = Return shadows ->
  MachineTranslateNode l node source order
  = match Promise_all (translationTasks l shadows source) order with
    | Fulfilled pendings => Fulfilled (filter_notEmpty pendings)
    | Rejected e => Rejected e
    end.
Proof. intros H. unfold MachineTranslateNode. now rewrite H. Qed.

(** C1, amended.  [MachineTranslateNode] issues one [MachineTranslateRecord]
    per known locale other than the source (for an entry whose records are
    stored under their own locales).  When every one of them succeeds it
    returns their pending writes, in the order of the locales.  When one of
    them fails the whole operation fails, whatever the order in which the
    translations settle, with the error of one of the failed translations:
    no pending write of the other locales is returned.  (When
    [getShadowLocales] throws, no translation is issued and the operation
    fails with what was thrown.) *)
Theorem MachineTranslateNode_all_or_nothing (l : LocaleLoader)
  (node : LocaleNode.t) (source : string) (order : list nat)
  (Hnode : keyedByLocale node = true) :
  match getShadowLocales l node with
  | Throw e => MachineTranslateNode l node source order = Rejected e
  | Return shadows =>
      let targets := translationTargets shadows source in
      let tasks := translationTasks l shadows source in
      map LocaleRecord.locale targets
      = filter (fun locale => negb (String.eqb locale source)) (locales l)
      /\ (forall pendings,
            tasks = map (fun p => Fulfilled (Some p)) pendings ->
            MachineTranslateNode l node source order = Fulfilled pendings)
      /\ (Exists isRejected tasks ->
          exists e, In (Rejected e) tasks
                    /\ MachineTranslateNode l node source order = Rejected e)
      /\ (forall pendings,
            MachineTranslateNode l node source order = Fulfilled pendings ->
            tasks = map (fun p => Fulfilled (Some p)) pendings)
  end.
Proof.
  destruct (getShadowLocales l node) as [shadows|e] eqn:Eshadows.
  2:{ unfold MachineTranslateNode. now rewrite Eshadows. }
  pose proof (@getShadowLocales_Return l node shadows Eshadows) as Hs.
  cbv zeta. rewrite !(@MachineTranslateNode_run l node source order shadows Eshadows).
  subst shadows. split; [|split; [|split]].
  - rewrite (@translationTargets_eq l node source Hnode), map_map.
    erewrite map_ext; [apply map_id|].
    intros locale. now apply shadowRecord_locale.
  - intros pendings Htasks.
    pose proof (Promise_all_spec
                  (translationTasks l (shadowLocales l node) source) order) as H.
    destruct (Promise_all (translationTasks l (shadowLocales l node) source)
                order) as [vs|e].
    + rewrite Htasks in H.
      assert (Hvs : vs = map Some pendings).
      { clear -H. revert vs H. induction pendings as [|p ps IH];
          intros [|v vs] H; simpl in *; try discriminate; auto.
        inversion H; subst. f_equal. auto. }
      subst vs. now rewrite filter_notEmpty_Some.
    + rewrite Htasks in H. apply in_map_iff in H.
      destruct H as (p & Hp & _). discriminate.
  - intros Hex.
    pose proof (Promise_all_spec
                  (translationTasks l (shadowLocales l node) source) order) as H.
    destruct (Promise_all (translationTasks l (shadowLocales l node) source)
                order) as [vs|e].
    + exfalso. rewrite H in Hex. apply Exists_exists in Hex.
      destruct Hex as (t & Ht & Hr). apply in_map_iff in Ht.
      destruct Ht as (v & <- & _). exact Hr.
    + exists e. auto.
  - intros pendings.
    pose proof (Promise_all_spec
                  (translationTasks l (shadowLocales l node) source) order) as H.
    destruct (Promise_all (translationTasks l (shadowLocales l node) source)
                order) as [vs|e];
      [|discriminate].
    intros Hp. inversion Hp; subst. rewrite H at 1.
    assert (Hsome : Forall (fun v => v <> None) vs).
    { apply Forall_forall. intros v Hv ->.
      assert (Hin : In (Fulfilled None)
                      (translationTasks l (shadowLocales l node) source)).
      { rewrite H. now apply in_map. }
      unfold translationTasks in Hin. apply in_map_iff in Hin.
      destruct Hin as (r & Hr & _).
      now apply MachineTranslateRecord_never_undefined in Hr. }
    clear H Hp. induction vs as [|[p|] vs IH]; simpl; auto.
    + inversion Hsome; subst. f_equal. auto.
    + inversion Hsome; subst. congruence.
Qed.

(* ================================================================== *)
(** ** Shadow records *)

Lemma shadowFilePath_inferred l keypath node locale :
  entryOf l keypath = Some node ->
  shadowFilePath l keypath locale = inferredFilePath node locale.
Proof. intros H. unfold shadowFilePath. now rewrite H. Qed.

Lemma obj_get_map_keys {A} (g : string -> A) ks k :
  obj_get k (map (fun x => (x, g x)) ks)
  = if in_dec string_dec k ks then Some (g k) else None.
Proof.
  induction ks as [|x ks IH]; simpl; auto.
  destruct (String.eqb_spec x k) as [->|Hne].
  - destruct (string_dec k k); [reflexivity | congruence].
  - rewrite IH. destruct (string_dec x k); [congruence|].
    destruct (in_dec string_dec k ks); auto.
Qed.

(** The entries of a rebuilt index stand under their own key path. *)
Lemma rebuild_entry_keypath l keypath node :
  entryOf (rebuild l) keypath = Some node -> LocaleNode.keypath node = keypath.
Proof.
  unfold entryOf. rewrite rebuild_flatten. intros E.
  pose proof (flattenIndex_get (allFiles l) keypath) as H.
  rewrite E in H. apply H.
Qed.

(** What [getTranslationsByKey] with shadows returns for an entry that
    stands under its own key path. *)
Lemma getTranslationsByKey_shadow_run l keypath node :
  entryOf l keypath = Some node -> LocaleNode.keypath node = keypath ->
  getTranslationsByKey l keypath true
  = Return (Some (map (fun locale => (locale, shadowRecord l node locale))
                    (locales l))).
Proof.
  intros E Hkp. unfold getTranslationsByKey.
  rewrite (proj2 (getNodeByKey_entryOf l keypath node) E).
  rewrite getShadowLocales_run, Hkp.
  replace (readsMember l keypath) with false.
  - cbn [andb]. now rewrite shadowLocales_eq.
  - unfold readsMember, obj_has. unfold entryOf in E. rewrite E.
    now rewrite andb_false_r.
Qed.

(** C6, amended.  After a rebuild that completes, for a key path that has
    an entry in the flatten index the query [getTranslationsByKey] with
    shadows has exactly the known locales as keys and holds, for every known
    locale, the stored record when the entry has one, and otherwise a shadow
    record: flagged [shadow], with an empty value, the key path and key name
    of the entry, and the file path inferred from the record of the source
    locale (or else the first record of the entry) by replacing its locale,
    unresolved when there is no such record.  For a key path without an
    entry the query returns the empty mapping.  (The key path is not the
    name of a member of [Object.prototype]; what the query does for such a
    name is left out.) *)
Theorem getTranslationsByKey_shadow (l0 : LocaleLoader) (keypath : string) :
  rebuilt l0 -> inherited keypath = false ->
  let l := updated l0 in
  match getNodeByKey l keypath with
  | Own node =>
      exists shown,
        getTranslationsByKey l keypath true = Return (Some shown)
        /\ (forall locale,
              obj_has locale shown = true <-> In locale (locales l))
        /\ forall locale,
             In locale (locales l) ->
             obj_get locale shown
             = Some (match obj_get locale (LocaleNode.locales node) with
                     | Some stored => stored
                     | None =>
                         LocaleRecord.mk keypath (LocaleNode.keyname node)
                           (JStr EmptyString) locale
                           (inferredFilePath node locale) true
                     end)
  | _ => getTranslationsByKey l keypath true = Return (Some [])
  end.
Proof.
  intros Hr Hk. cbv zeta. rewrite (updated_rebuild Hr).
  pose proof (proj1 (rebuilt_indexable l0) Hr) as Hi.
  rewrite getNodeByKey_run, (readsMember_rebuild _ keypath Hi), Hk.
  destruct (entryOf (rebuild l0) keypath) as [node|] eqn:E; cbn [toRead].
  2:{ unfold getTranslationsByKey.
      now rewrite getNodeByKey_run, (readsMember_rebuild _ keypath Hi), Hk, E. }
  pose proof (@rebuild_entry_keypath l0 keypath node E) as Hkp.
  eexists. split; [apply (@getTranslationsByKey_shadow_run (rebuild l0) keypath node E Hkp)|]. split.
  - intros locale. rewrite obj_has_true. unfold Object_keys.
    rewrite map_map. simpl. rewrite map_id. reflexivity.
  - intros locale Hin. rewrite obj_get_map_keys.
    destruct (in_dec string_dec locale (locales (rebuild l0))); [|contradiction].
    f_equal. unfold shadowRecord.
    destruct (obj_get locale (LocaleNode.locales node)); auto.
    rewrite Hkp. f_equal. apply shadowFilePath_inferred. exact E.
Qed.

(* ================================================================== *)
(** ** Write-back *)

Lemma requestMissingFilepath_run locale keypath w :
  requestMissingFilepath locale keypath w
  = (Fulfilled
       (match getFilepathsOfLocale (loader w) locale with
        | [p] => Some p
        | [] => showInputBox keypath locale
        | paths => showQuickPick paths keypath
        end), w).
Proof.
  unfold requestMissingFilepath, bind, getLoader, ret.
  destruct (getFilepathsOfLocale (loader w) locale) as [|p [|q paths]]; reflexivity.
Qed.

(** The run of [writeToSingleFile], case by case. *)
Lemma writeToSingleFile_run pending w :
  writeToSingleFile pending w
  = match targetPath (loader w) pending with
    | None => (Rejected (AllyError filepath_not_specified None), w)
    | Some filepath =>
        match existingDocument w filepath with
        | None => (Rejected (HostError "SyntaxError"), w)
        | Some original =>
            writeFile filepath
              (JSON_stringify
                 (lodash_set original (PendingWrite.keypath pending)
                    (PendingWrite.value pending)) ++ newline)
              w
        end
    end.
Proof.
  unfold writeToSingleFile, targetPath, existingDocument.
  destruct (resolved (PendingWrite.filepath pending)) as [fp|] eqn:Er.
  - unfold bind at 1. unfold ret at 1.
    assert (Hfp : resolved (Some fp) = Some fp).
    { unfold resolved in *. destruct (PendingWrite.filepath pending) as [x|];
        [|discriminate].
      destruct (String.eqb x EmptyString) eqn:Ex; [discriminate|].
      inversion Er; subst. now rewrite Ex. }
    rewrite Hfp. unfold bind, existsSync, readFile, ret, throw, obj_has.
    destruct (obj_get fp (disk w)) as [raw|] eqn:Eg; simpl; rewrite ?Eg; simpl;
      try reflexivity.
    destruct (JSON_parse raw); reflexivity.
  - unfold bind at 1. rewrite requestMissingFilepath_run.
    match goal with
    | |- context [resolved ?x] => destruct (resolved x) as [fp|] eqn:Eq
    end; [|reflexivity].
    unfold bind, existsSync, readFile, ret, throw, obj_has.
    destruct (obj_get fp (disk w)) as [raw|] eqn:Eg; simpl; rewrite ?Eg; simpl;
      try reflexivity.
    destruct (JSON_parse raw); reflexivity.
Qed.

(** A write that the host takes, and one that it refuses. *)
Lemma writeFile_taken filepath content w :
  writeError filepath = None ->
  writeFile filepath content w
  = (Fulfilled tt, mkWorld (loader w) (obj_set filepath content (disk w))).
Proof. intros H. unfold writeFile. now rewrite H. Qed.

Lemma writeFile_frame filepath content w :
  let w' := snd (writeFile filepath content w) in
  loader w' = loader w
  /\ (forall e, fst (writeFile filepath content w) = Rejected e -> w' = w)
  /\ forall other,
       other <> filepath -> obj_get other (disk w') = obj_get other (disk w).
Proof.
  cbv zeta. unfold writeFile. destruct (writeError filepath); cbn.
  - auto.
  - repeat split; [discriminate|]. intros other H.
    apply obj_get_set_neq. congruence.
Qed.

Lemma writeAll_frame pendings : forall w,
  let w' := snd (writeAll pendings w) in
  loader w' = loader w
  /\ forall filepath,
       (forall p, In p pendings -> targetPath (loader w) p <> Some filepath) ->
       obj_get filepath (disk w') = obj_get filepath (disk w).
Proof.
  induction pendings as [|p ps IH]; intros w; cbv zeta; simpl.
  - auto.
  - unfold bind. rewrite writeToSingleFile_run.
    destruct (targetPath (loader w) p) as [fp|] eqn:Et; simpl; auto.
    destruct (existingDocument w fp) as [original|]; simpl; auto.
    match goal with
    | |- context [writeFile fp ?c w] =>
        pose proof (writeFile_frame fp c w) as (Hl & _ & Hd);
        destruct (writeFile fp c w) as [[[]|e] w1]; cbn [fst snd] in *
    end.
    + specialize (IH w1). cbv zeta in IH. destruct IH as [IH1 IH2].
      split; [congruence|].
      intros filepath H. rewrite IH2.
      * apply Hd. intros ->. apply (H p); auto.
      * intros q Hq. rewrite Hl. apply H. auto.
    + split; auto. intros filepath H. apply Hd. intros ->. apply (H p); auto.
Qed.

(** C10.  A write never changes the state in memory: after
    [writeToSingleFile] and after [writeToFile], fulfilled or rejected, the
    loader (file store, namespace tree, flatten index) is what it was.  A
    rejected single write leaves the disk untouched as well, a write without
    a resolved file path is rejected with [filepath_not_specified], and a
    write changes no file but the resolved targets of its pending items. *)
Theorem write_leaves_memory_unchanged (w : World) :
  (forall pending,
     let (result, w') := writeToSingleFile pending w in
     loader w' = loader w
     /\ files (loader w') = files (loader w)
     /\ localeTree (loader w') = localeTree (loader w)
     /\ flattenLocaleTree (loader w') = flattenLocaleTree (loader w)
     /\ (forall e, result = Rejected e -> w' = w)
     /\ (targetPath (loader w) pending = None ->
         result = Rejected (AllyError filepath_not_specified None))
     /\ (forall filepath,
           targetPath (loader w) pending <> Some filepath ->
           obj_get filepath (disk w') = obj_get filepath (disk w)))
  /\ (forall pendings,
        let (result, w') := writeToFile pendings w in
        let items :=
          filter_notEmpty
            (match pendings with One p => [p] | Many ps => ps end) in
        loader w' = loader w
        /\ files (loader w') = files (loader w)
        /\ localeTree (loader w') = localeTree (loader w)
        /\ flattenLocaleTree (loader w') = flattenLocaleTree (loader w)
        /\ (forall filepath,
              (forall p, In p items -> targetPath (loader w) p <> Some filepath) ->
              obj_get filepath (disk w') = obj_get filepath (disk w))).
Proof.
  split.
  - intros pending. rewrite writeToSingleFile_run.
    destruct (targetPath (loader w) pending) as [fp|] eqn:Et.
    + destruct (existingDocument w fp) as [original|].
      * match goal with
        | |- context [writeFile fp ?c w] =>
            pose proof (writeFile_frame fp c w) as (Hl & Hr & Hd);
            destruct (writeFile fp c w) as [result w1]; cbn [fst snd] in *
        end.
        rewrite Hl. repeat split; auto; try discriminate.
        intros filepath H. apply Hd. congruence.
      * repeat split; auto. discriminate.
    + repeat split; auto.
  - intros pendings. unfold writeToFile.
    set (items := filter_notEmpty
                    (match pendings with One p => [p] | Many ps => ps end)).
    pose proof (writeAll_frame items w) as H. cbv zeta in H.
    destruct (writeAll items w) as [result w']. simpl in H.
    destruct H as [H1 H2]. rewrite H1. repeat split; auto.
Qed.

(** *** lodash [set] on a document *)

Lemma ordinaryWay_cons key next rest :
  ordinaryWay (key :: next :: rest) = true ->
  inherited key = false /\ ordinaryWay (next :: rest) = true.
Proof.
  unfold ordinaryWay. cbn [removelast forallb].
  rewrite andb_true_iff, negb_true_iff. auto.
Qed.

Lemma baseSet_from_cons key rest value nested :
  baseSet_from (key :: rest) value nested
  = if unsafe_key key then nested
    else match rest with
         | [] => obj_set key value nested
         | next :: _ =>
             if inherited key && negb (obj_has key nested) then nested
             else
               obj_set key
                 (match obj_get key nested with
                  | Some (JObj k inner) => JObj k (baseSet_from rest value inner)
                  | _ => JObj (if isIndex next then KArray else KObject)
                           (baseSet_from rest value [])
                  end) nested
         end.
Proof.
  destruct rest as [|next rest']; [reflexivity|].
  cbn [baseSet_from]. destruct (unsafe_key key); [reflexivity|].
  unfold js_get, obj_has.
  destruct (obj_get key nested) as [[| | | |k' inner]|];
    rewrite ?andb_false_r; try reflexivity.
  destruct (inherited key); reflexivity.
Qed.

Lemma incomparable_cons x q key rest :
  incomparable (x :: q) (key :: rest) = true ->
  x <> key \/ (x = key /\ incomparable q rest = true).
Proof.
  unfold incomparable. simpl.
  destruct (String.eqb_spec x key) as [->|Hne]; auto.
  rewrite String.eqb_refl. simpl. auto.
Qed.

Lemma incomparable_nonempty q p : incomparable q p = true -> q <> [].
Proof. intros H ->. discriminate H. Qed.

Lemma doc_get_scalar q v :
  q <> [] -> isObject v = false -> doc_get q v = None.
Proof. destruct q; [congruence|]. destruct v; simpl; auto; discriminate. Qed.

Lemma doc_get_empty q k : q <> [] -> doc_get q (JObj k []) = None.
Proof. destruct q; [congruence|]. reflexivity. Qed.

Lemma doc_get_cons key q k props :
  doc_get (key :: q) (JObj k props)
  = match obj_get key props with Some x => doc_get q x | None => None end.
Proof. reflexivity. Qed.

Lemma baseSet_from_get path value : forall k nested,
  path <> [] ->
  forallb (fun key => negb (unsafe_key key)) path = true ->
  ordinaryWay path = true ->
  doc_get path (JObj k (baseSet_from path value nested)) = Some value.
Proof.
  induction path as [|key rest IH]; intros k nested Hne Hsafe Hway; [congruence|].
  simpl in Hsafe. apply andb_true_iff in Hsafe. destruct Hsafe as [Hkey Hrest].
  apply negb_true_iff in Hkey. rewrite baseSet_from_cons, Hkey.
  destruct rest as [|next rest'].
  - cbn [doc_get]. now rewrite obj_get_set_eq.
  - apply ordinaryWay_cons in Hway. destruct Hway as [Hi Hway].
    rewrite Hi. cbn [andb]. rewrite doc_get_cons, obj_get_set_eq.
    destruct (obj_get key nested) as [[| | | |k' inner]|];
      apply IH; auto; discriminate.
Qed.

Lemma baseSet_from_frame value path : forall q k nested,
  incomparable q path = true ->
  doc_get q (JObj k (baseSet_from path value nested)) = doc_get q (JObj k nested).
Proof.
  induction path as [|key rest IH]; intros q k nested Hq; [reflexivity|].
  rewrite baseSet_from_cons. destruct (unsafe_key key); [reflexivity|].
  destruct q as [|x q]; [discriminate Hq|].
  apply incomparable_cons in Hq. rewrite !doc_get_cons.
  destruct Hq as [Hne|[-> Hq]].
  - destruct rest; [|destruct (_ && _)]; rewrite ?obj_get_set_neq; auto.
  - destruct rest as [|next rest'].
    { unfold incomparable in Hq. simpl in Hq. rewrite andb_false_r in Hq.
      discriminate Hq. }
    destruct (_ && _); [reflexivity|].
    pose proof (@incomparable_nonempty q _ Hq) as Hq0.
    rewrite obj_get_set_eq.
    destruct (obj_get key nested) as [[| | | |k' inner]|] eqn:E;
      rewrite IH by exact Hq; auto using doc_get_empty;
      rewrite doc_get_empty by exact Hq0; symmetry;
      now apply doc_get_scalar.
Qed.

Lemma baseSet_from_keys value path nested :
  ordinaryWay path = true ->
  Object_keys (baseSet_from path value nested)
  = match path with
    | [] => Object_keys nested
    | key :: _ =>
        if unsafe_key key || obj_has key nested then Object_keys nested
        else (Object_keys nested ++ [key])%list
    end.
Proof.
  intros Hway. destruct path as [|key rest]; [reflexivity|].
  rewrite baseSet_from_cons. destruct (unsafe_key key); [reflexivity|]. simpl.
  destruct rest as [|next rest'].
  - apply Object_keys_set.
  - apply ordinaryWay_cons in Hway. destruct Hway as [Hi _]. rewrite Hi.
    cbn [andb]. apply Object_keys_set.
Qed.

Lemma castPath_nonempty keypath props : castPath keypath props <> [].
Proof.
  unfold castPath.
  destruct (negb (has_dot keypath) || obj_has keypath props); [discriminate|].
  destruct keypath as [|c s]; simpl; [discriminate|].
  destruct (Ascii.eqb c dot); [discriminate|].
  destruct (split_dot s); discriminate.
Qed.

Lemma stringify_members inner ps :
  (fix each (ps : list (string * json)) {struct ps} : Obj string :=
     match ps with
     | [] => []
     | (key, x) :: ps' => (key, stringify inner x) :: each ps'
     end) ps
  = map (fun kv => (fst kv, stringify inner (snd kv))) ps.
Proof. induction ps as [|[key x] ps IH]; simpl; congruence. Qed.

(** The text [JSON.stringify(value, null, 2)] gives for a non-empty object:
    one member per line, in the order of the keys, two spaces in. *)
Lemma JSON_stringify_object member members :
  JSON_stringify (JObj KObject (member :: members))
  = "{" ++ newline ++ "  "
    ++ String.concat ("," ++ newline ++ "  ")
         (map (fun kv => quote (fst kv) ++ ": " ++ stringify "  " (snd kv))
            (member :: members))
    ++ newline ++ "}".
Proof.
  unfold JSON_stringify. cbn [stringify]. rewrite stringify_members.
  destruct member as [key x]. cbn [map braces fst snd]. rewrite map_map.
  reflexivity.
Qed.

(* ================================================================== *)
(** ** Key paths *)

Lemma split_dot_nonempty s : split_dot s <> [].
Proof.
  destruct s as [|c s]; simpl; [discriminate|].
  destruct (Ascii.eqb c dot); [discriminate|].
  destruct (split_dot s); discriminate.
Qed.

Lemma split_dot_plain s : has_dot s = false -> split_dot s = [s].
Proof.
  induction s as [|c s IH]; simpl; auto.
  intros H. apply orb_false_iff in H. destruct H as [Hc Hs].
  rewrite Hc, IH; auto.
Qed.

Lemma split_dot_app x s :
  has_dot x = false -> split_dot (x ++ String dot s) = x :: split_dot s.
Proof.
  induction x as [|c x IH]; simpl; intros H.
  - reflexivity.
  - apply orb_false_iff in H. destruct H as [Hc Hx].
    rewrite Hc, IH; auto.
Qed.

Lemma split_dot_segments s : Forall (fun x => has_dot x = false) (split_dot s).
Proof.
  induction s as [|c s IH]; simpl.
  - repeat constructor.
  - destruct (Ascii.eqb c dot) eqn:Hc.
    + constructor; auto.
    + destruct (split_dot s) as [|x xs].
      * repeat constructor. simpl. now rewrite Hc.
      * inversion IH; subst. constructor; auto.
        simpl. rewrite Hc. assumption.
Qed.

Lemma join_dot_cons x y r : join_dot (x :: y :: r) = x ++ String dot (join_dot (y :: r)).
Proof. reflexivity. Qed.

Lemma split_join l :
  l <> [] -> Forall (fun x => has_dot x = false) l -> split_dot (join_dot l) = l.
Proof.
  induction l as [|x l IH]; [congruence|].
  intros _ H. inversion H; subst.
  destruct l as [|y r].
  - simpl. now apply split_dot_plain.
  - rewrite join_dot_cons, split_dot_app by assumption.
    f_equal. apply IH; [discriminate | assumption].
Qed.

Lemma join_split s : join_dot (split_dot s) = s.
Proof.
  induction s as [|c s IH]; simpl; auto.
  pose proof (split_dot_nonempty s) as Hne.
  destruct (split_dot s) as [|x xs]; [congruence|].
  destruct (Ascii.eqb_spec c dot) as [->|Hc].
  - rewrite join_dot_cons. simpl. now rewrite IH.
  - rewrite <- IH. destruct xs; reflexivity.
Qed.

Lemma append_empty a b : a ++ b = EmptyString -> a = EmptyString /\ b = EmptyString.
Proof. destruct a; simpl; [auto | discriminate]. Qed.

Lemma join_dot_empty l :
  join_dot l = EmptyString <-> l = [] \/ l = [EmptyString].
Proof.
  split.
  - destruct l as [|x [|y r]]; auto.
    + intros H. change (x = EmptyString) in H. subst. auto.
    + rewrite join_dot_cons. intros H. apply append_empty in H.
      destruct H as [_ H]. discriminate.
  - intros [->| ->]; reflexivity.
Qed.

(** The remaining key path of the lookups splits into the remaining
    segments. *)
Lemma split_remaining keypath :
  join_dot (tl (split_dot keypath)) <> EmptyString ->
  split_dot (join_dot (tl (split_dot keypath))) = tl (split_dot keypath).
Proof.
  intros H. apply split_join.
  - intros E. rewrite E in H. now apply H.
  - pose proof (split_dot_segments keypath) as Hs.
    destruct (split_dot keypath); simpl; [constructor|]. now inversion Hs.
Qed.

(* ================================================================== *)
(** ** Lookups in the tree *)

Lemma getTreeNodeByKey_from_eq keypath kp kn children :
  getTreeNodeByKey_from keypath (Tree kp kn children)
  = let keys := split_dot keypath in
    let root := hd EmptyString keys in
    let remaining := join_dot (tl keys) in
    match js_get root children with
    | Own node =>
        if String.eqb remaining EmptyString then Own node
        else match node with
             | Tree _ _ _ => getTreeNodeByKey_from remaining node
             | Node _ => Undefined
             end
    | Member m => if String.eqb remaining EmptyString then Member m else Undefined
    | Undefined => Undefined
    end.
Proof.
  cbv zeta. unfold js_get. simpl.
  induction children as [|[k node] cs IH]; simpl.
  - destruct (inherited _); reflexivity.
  - destruct (String.eqb k (hd EmptyString (split_dot keypath))); auto.
Qed.







(* ================================================================== *)
(** ** Documents and their flattened form *)

Lemma json_ind' (P : json -> Prop) :
  P JNull -> (forall b, P (JBool b)) -> (forall z, P (JNum z)) ->
  (forall s, P (JStr s)) ->
  (forall k props, Forall (fun kv => P (snd kv)) props -> P (JObj k props)) ->
  forall v, P v.
Proof.
  intros Hnull Hbool Hnum Hstr Hobj.
  fix IH 1. intros v. destruct v as [| b | z | s | k props].
  - exact Hnull.
  - apply Hbool.
  - apply Hnum.
  - apply Hstr.
  - apply Hobj. induction props as [|[key x] props IHp]; constructor.
    + apply IH.
    + exact IHp.
Qed.

Lemma flat_step_fix newKey object output :
  (fix step (object : list (string * json)) (output : Obj json) {struct object}
     : Obj json :=
     match object with
     | [] => output
     | (k, v) :: object' => step object' (flat_prop newKey k v output)
     end) object output
  = flat_step object newKey output.
Proof.
  unfold flat_step. revert output.
  induction object as [|[k v] object IH]; intros output; simpl; auto.
Qed.

Lemma flat_prop_obj prev key k p ps output :
  flat_prop prev key (JObj k (p :: ps)) output
  = flat_step (p :: ps) (childKeyPath prev key) output.
Proof.
  destruct p as [k0 v0]. cbn [flat_prop]. rewrite flat_step_fix. reflexivity.
Qed.

Lemma flat_prop_leaf prev key v output :
  match v with JObj _ (_ :: _) => False | _ => True end ->
  flat_prop prev key v output = obj_set (childKeyPath prev key) v output.
Proof. destruct v as [| | | |k [|p ps]]; simpl; intros H; auto; contradiction. Qed.

Lemma leafPaths_fix object :
  (fix members (ms : list (string * json)) {struct ms}
     : list (list string * json) :=
     match ms with
     | [] => []
     | (k, x) :: ms' =>
         (map (fun pv => (k :: fst pv, snd pv)) (leafPaths_value x)
          ++ members ms')%list
     end) object
  = leafPaths object.
Proof.
  unfold leafPaths.
  induction object as [|[k v] object IH]; simpl; auto. now rewrite IH.
Qed.

Lemma leafPaths_value_obj k p ps :
  leafPaths_value (JObj k (p :: ps)) = leafPaths (p :: ps).
Proof.
  destruct p as [k0 v0]. cbn [leafPaths_value]. rewrite leafPaths_fix.
  reflexivity.
Qed.

Lemma leafPaths_value_leaf v :
  match v with JObj _ (_ :: _) => False | _ => True end ->
  leafPaths_value v = [([], v)].
Proof. destruct v as [| | | |k [|p ps]]; simpl; intros H; auto; contradiction. Qed.


Lemma isLeaf_cases v :
  (isLeaf v = true /\ match v with JObj _ (_ :: _) => False | _ => True end)
  \/ (exists k p ps, v = JObj k (p :: ps)).
Proof. destruct v as [| | | |k [|p ps]]; simpl; eauto 6. Qed.

Lemma fold_left_map {A B C} (f : A -> B -> A) (g : C -> B) l a :
  fold_left f (map g l) a = fold_left (fun a c => f a (g c)) l a.
Proof. revert a. induction l; intros a0; simpl; auto. Qed.

Lemma fold_left_flat_map {A B C} (f : A -> B -> A) (g : C -> list B) l a :
  fold_left f (flat_map g l) a = fold_left (fun a c => fold_left f (g c) a) l a.
Proof.
  revert a. induction l as [|c l IH]; intros a0; simpl; auto.
  now rewrite fold_left_app, IH.
Qed.

(** [flat] writes the leaves of the document in order, each at the key path
    of its path. *)
Lemma flat_prop_leafPaths v : forall prev key output,
  flat_prop prev key v output
  = fold_left (fun o pv => obj_set (pathKey prev (key :: fst pv)) (snd pv) o)
      (leafPaths_value v) output.
Proof.
  induction v as [| b | z | s | k props IH] using json_ind';
    intros prev key output; try reflexivity.
  destruct props as [|p ps]; [reflexivity|].
  rewrite flat_prop_obj, leafPaths_value_obj. unfold flat_step, leafPaths.
  rewrite fold_left_flat_map.
  revert IH output. generalize (p :: ps) as object. intros object IH.
  induction IH as [|[k0 v0] object Hv Hobject IHo];
    intros output; simpl; auto.
  rewrite IHo. f_equal. rewrite Hv, fold_left_map. reflexivity.
Qed.

Lemma flat_step_leafPaths object prev output :
  flat_step object prev output
  = fold_left (fun o pv => obj_set (pathKey prev (fst pv)) (snd pv) o)
      (leafPaths object) output.
Proof.
  unfold flat_step, leafPaths. rewrite fold_left_flat_map.
  revert output. induction object as [|[k v] object IH]; intros output;
    simpl; auto.
  rewrite IH. f_equal. rewrite flat_prop_leafPaths, fold_left_map. reflexivity.
Qed.

Lemma everyObject_obj P k props :
  everyObject P (JObj k props)
  = P k props && forallb (fun kv => everyObject P (snd kv)) props.
Proof.
  cbn [everyObject]. f_equal.
  induction props as [|[key x] props IH]; simpl; auto. now rewrite IH.
Qed.

Lemma distinct_NoDup l : distinct l = true <-> NoDup l.
Proof.
  induction l as [|x l IH]; simpl.
  - split; auto. constructor.
  - rewrite andb_true_iff, negb_true_iff, IH. split.
    + intros [Hx Hl]. constructor; auto. intros Hin.
      assert (existsb (String.eqb x) l = true).
      { apply existsb_exists. exists x. split; auto. apply String.eqb_refl. }
      congruence.
    + intros H. inversion H; subst. split; auto.
      destruct (existsb (String.eqb x) l) eqn:E; auto.
      apply existsb_exists in E. destruct E as (y & Hy & Heq).
      apply String.eqb_eq in Heq. subst. contradiction.
Qed.

Lemma plain_keyb_spec s : plain_keyb s = true <-> plain_key s.
Proof.
  unfold plain_keyb, plain_key.
  rewrite andb_true_iff, !negb_true_iff, String.eqb_neq. reflexivity.
Qed.


Lemma plainValue_obj k props :
  plainValue (JObj k props) = true ->
  NoDup (Object_keys props)
  /\ Forall plain_key (Object_keys props)
  /\ Forall (fun kv => plainValue (snd kv) = true) props.
Proof.
  unfold plainValue. rewrite everyObject_obj, !andb_true_iff.
  intros [[Hd Hp] Hall]. rewrite forallb_forall in Hp, Hall.
  split; [now apply distinct_NoDup|]. split.
  - apply Forall_forall. intros x Hx. apply plain_keyb_spec. now apply Hp.
  - apply Forall_forall. exact Hall.
Qed.

Lemma leafPaths_In object p v :
  In (p, v) (leafPaths object)
  <-> exists key x p', In (key, x) object /\ p = key :: p'
                       /\ In (p', v) (leafPaths_value x).
Proof.
  unfold leafPaths. rewrite in_flat_map. split.
  - intros ([key x] & Hin & Hp). apply in_map_iff in Hp.
    destruct Hp as ([p' v'] & Heq & Hp'). simpl in Heq. inversion Heq; subst.
    exists key, x, p'. auto.
  - intros (key & x & p' & Hin & -> & Hp'). exists (key, x). split; auto.
    apply in_map_iff. exists (p', v). auto.
Qed.

(** The leaves of a value are what its paths lead to, except non-empty
    objects. *)
Lemma leafPaths_value_spec x :
  plainValue x = true ->
  forall p v,
    In (p, v) (leafPaths_value x) <-> doc_get p x = Some v /\ isLeaf v = true.
Proof.
  induction x as [| b | z | s | k props IH] using json_ind'; intros Hx p v;
    try (simpl; split;
         [ intros [H|[]]; inversion H; subst; auto
         | intros [H Hl]; destruct p; [inversion H; auto | discriminate] ]).
  destruct props as [|m ms].
  - simpl. split.
    + intros [H|[]]. inversion H; subst. auto.
    + intros [H Hl]. destruct p; [inversion H; auto | discriminate].
  - rewrite leafPaths_value_obj, leafPaths_In.
    apply plainValue_obj in Hx. destruct Hx as (Hnd & _ & Hall).
    rewrite Forall_forall in IH, Hall. split.
    + intros (key & y & p' & Hin & -> & Hp').
      apply (IH (key, y) Hin (Hall _ Hin)) in Hp'. simpl in Hp'.
      rewrite doc_get_cons, (obj_get_NoDup_In _ _ _ Hnd Hin). exact Hp'.
    + intros [Hget Hl]. destruct p as [|key p'].
      * simpl in Hget. inversion Hget; subst. discriminate.
      * rewrite doc_get_cons in Hget.
        destruct (obj_get key (m :: ms)) as [y|] eqn:E; [|discriminate].
        apply obj_get_In in E. exists key, y, p'. repeat split; auto.
        apply (IH (key, y) E (Hall _ E)). auto.
Qed.

Lemma leafPaths_spec object p v :
  plainKeys object = true ->
  (In (p, v) (leafPaths object)
   <-> p <> [] /\ doc_get p (JObj KObject object) = Some v /\ isLeaf v = true).
Proof.
  intros H. destruct object as [|m ms].
  - simpl. split; [contradiction|]. intros (Hp & Hg & _).
    destruct p; [congruence | discriminate].
  - rewrite <- (leafPaths_value_obj KObject).
    rewrite (leafPaths_value_spec _ H). split.
    + intros [Hg Hl]. repeat split; auto. intros ->. inversion Hg; subst.
      discriminate.
    + taut.
Qed.

Lemma leafPaths_value_plain x :
  plainValue x = true ->
  forall p v, In (p, v) (leafPaths_value x) -> Forall plain_key p.
Proof.
  induction x as [| b | z | s | k props IH] using json_ind'; intros Hx p v;
    try (simpl; intros [H|[]]; inversion H; constructor).
  destruct props as [|m ms].
  - simpl. intros [H|[]]. inversion H. constructor.
  - rewrite leafPaths_value_obj, leafPaths_In.
    apply plainValue_obj in Hx. destruct Hx as (_ & Hplain & Hall).
    rewrite Forall_forall in IH, Hall, Hplain.
    intros (key & y & p' & Hin & -> & Hp'). constructor.
    + apply Hplain. change key with (fst (key, y)). now apply in_map.
    + apply (IH (key, y) Hin (Hall _ Hin) p' v Hp').
Qed.

Lemma leafPaths_plain object p v :
  plainKeys object = true -> In (p, v) (leafPaths object) ->
  p <> [] /\ Forall plain_key p.
Proof.
  intros H Hin. split.
  - apply leafPaths_In in Hin. destruct Hin as (key & x & p' & _ & -> & _).
    discriminate.
  - destruct object as [|m ms]; [contradiction|].
    rewrite <- (leafPaths_value_obj KObject) in Hin.
    eapply leafPaths_value_plain; eauto.
Qed.

Lemma leafPaths_value_NoDup x :
  plainValue x = true -> NoDup (map fst (leafPaths_value x)).
Proof.
  induction x as [| b | z | s | k props IH] using json_ind'; intros Hx;
    try (simpl; repeat constructor; simpl; taut).
  destruct props as [|m ms].
  - simpl. repeat constructor. simpl. taut.
  - rewrite leafPaths_value_obj.
    apply plainValue_obj in Hx. destruct Hx as (Hnd & _ & Hall).
    revert IH Hnd Hall. generalize (m :: ms) as object. intros object IH.
    induction IH as [|[key y] object Hy Hobject IHo]; intros Hnd Hall.
    + constructor.
    + unfold leafPaths. simpl. rewrite map_app. fold (leafPaths object).
      inversion Hnd; subst. inversion Hall; subst. apply NoDup_app.
      * rewrite map_map. simpl. rewrite <- (map_map fst (cons key)).
        apply NoDup_map_NoDup_ForallPairs; [|now apply Hy].
        intros a b _ _ E. now inversion E.
      * now apply IHo.
      * intros p Hp Hp'. rewrite map_map in Hp. simpl in Hp.
        apply in_map_iff in Hp. destruct Hp as ([p0 v0] & <- & _).
        apply in_map_iff in Hp'. destruct Hp' as ([p1 v1] & E & Hin1).
        simpl in E. subst p1. apply leafPaths_In in Hin1.
        destruct Hin1 as (key' & y' & p' & Hin' & E' & _).
        inversion E'; subst. apply H1.
        change key' with (fst (key', y')). now apply in_map.
Qed.

Lemma leafPaths_NoDup object :
  plainKeys object = true -> NoDup (map fst (leafPaths object)).
Proof.
  intros H. destruct object as [|m ms]; [constructor|].
  rewrite <- (leafPaths_value_obj KObject). now apply leafPaths_value_NoDup.
Qed.

(** Plain paths and their key paths determine each other. *)
Lemma plain_dot_free p :
  Forall plain_key p -> Forall (fun x => has_dot x = false) p.
Proof. apply Forall_impl. intros x [_ H]. exact H. Qed.

Lemma join_dot_inj p q :
  p <> [] -> q <> [] -> Forall plain_key p -> Forall plain_key q ->
  join_dot p = join_dot q -> p = q.
Proof.
  intros Hp Hq Pp Pq E.
  rewrite <- (split_join Hp (plain_dot_free Pp)).
  rewrite <- (split_join Hq (plain_dot_free Pq)). now rewrite E.
Qed.

Lemma pathKey_nonempty prev path :
  prev <> EmptyString -> pathKey prev path <> EmptyString.
Proof.
  revert prev. induction path as [|x path IH]; intros prev H; simpl; auto.
  apply IH. destruct prev; [congruence|]. discriminate.
Qed.

Lemma join_dot_head x r :
  join_dot (x :: r)
  = x ++ match r with [] => EmptyString | _ => String dot (join_dot r) end.
Proof.
  destruct r.
  - change (x = x ++ EmptyString). induction x; simpl; congruence.
  - reflexivity.
Qed.

Lemma append_assoc (a b c : string) : (a ++ b) ++ c = a ++ (b ++ c).
Proof. induction a; simpl; congruence. Qed.

Lemma pathKey_join_from key path :
  key <> EmptyString -> pathKey key path = join_dot (key :: path).
Proof.
  revert key. induction path as [|x path IH]; intros key Hk.
  - reflexivity.
  - cbn [pathKey fold_left]. fold (pathKey (childKeyPath key x) path).
    assert (E : childKeyPath key x = key ++ String dot x).
    { destruct key; [congruence|]. reflexivity. }
    rewrite E, IH.
    + rewrite (join_dot_head (key ++ String dot x)), (join_dot_head key).
      rewrite (join_dot_head x), append_assoc. reflexivity.
    + destruct key; [congruence|]. discriminate.
Qed.

Lemma pathKey_join path :
  path <> [] -> Forall plain_key path ->
  pathKey EmptyString path = join_dot path.
Proof.
  destruct path as [|key path]; [congruence|]. intros _ H.
  inversion H as [|? ? [Hk _] _]; subst.
  cbn [pathKey fold_left childKeyPath]. now apply pathKey_join_from.
Qed.

Lemma fold_left_In_eq {A B} (f g : A -> B -> A) (l : list B) :
  (forall a b, In b l -> f a b = g a b) ->
  forall a, fold_left f l a = fold_left g l a.
Proof.
  induction l as [|b l IH]; intros H a; simpl; auto.
  rewrite H by (left; reflexivity). apply IH. intros a0 b0 Hb. apply H. now right.
Qed.

Lemma fold_obj_set_pairs {A} (l : Obj A) : forall acc,
  NoDup (Object_keys acc ++ Object_keys l) ->
  fold_left (fun o kv => obj_set (fst kv) (snd kv) o) l acc = (acc ++ l)%list.
Proof.
  induction l as [|[k v] l IH]; intros acc Hnd; simpl.
  - now rewrite app_nil_r.
  - assert (Hk : ~ In k (Object_keys acc)).
    { simpl in Hnd. apply NoDup_remove_2 in Hnd. intros H. apply Hnd.
      apply in_or_app. auto. }
    rewrite (obj_set_fresh _ _ _ Hk), IH.
    + now rewrite <- app_assoc.
    + unfold Object_keys in *. rewrite map_app, <- app_assoc. exact Hnd.
Qed.

(** On a document with plain keys [flat] lists the leaves in order, each
    under the dot-joined key path of its path. *)
Lemma flat_plain object :
  plainKeys object = true ->
  flat object = map (fun pv => (join_dot (fst pv), snd pv)) (leafPaths object).
Proof.
  intros H. unfold flat. rewrite flat_step_leafPaths.
  rewrite (@fold_left_In_eq _ _ _
             (fun o pv => obj_set (join_dot (fst pv)) (snd pv) o)).
  - transitivity
      (fold_left (fun o kv => obj_set (fst kv) (snd kv) o)
         (map (fun pv : list string * json => (join_dot (fst pv), snd pv))
            (leafPaths object)) []).
    { rewrite fold_left_map. reflexivity. }
    apply (fold_obj_set_pairs _ []). simpl.
    unfold Object_keys. rewrite map_map. simpl.
    rewrite <- (map_map fst join_dot).
    apply NoDup_map_NoDup_ForallPairs; [|now apply leafPaths_NoDup].
    intros p q Hp Hq E.
    apply in_map_iff in Hp. destruct Hp as ([p0 v0] & <- & Hp).
    apply in_map_iff in Hq. destruct Hq as ([q0 w0] & <- & Hq).
    destruct (leafPaths_plain _ _ _ H Hp), (leafPaths_plain _ _ _ H Hq).
    now apply join_dot_inj.
  - intros o [p v] Hin. simpl.
    destruct (leafPaths_plain _ _ _ H Hin). now rewrite pathKey_join.
Qed.

(** *** Unflattening *)


Lemma obj_set_same {A} k (v : A) o : obj_get k o = Some v -> obj_set k v o = o.
Proof.
  induction o as [|[k' v'] o IH]; simpl; [discriminate|].
  destruct (String.eqb_spec k' k); intros H.
  - inversion H; subst. reflexivity.
  - f_equal. auto.
Qed.

Lemma unflatten_put_into key p v recipient kind inner :
  p <> [] ->
  obj_get key recipient = Some (JObj kind inner) ->
  unflatten_put (key :: p) v recipient
  = obj_set key (JObj kind (unflatten_put p v inner)) recipient.
Proof.
  intros Hp H. destruct p as [|s r]; [congruence|].
  cbn [unflatten_put]. rewrite H. reflexivity.
Qed.

Lemma unflatten_put_fresh key p v recipient :
  p <> [] ->
  obj_get key recipient = None ->
  unflatten_put (key :: p) v recipient
  = obj_set key (JObj KObject (unflatten_put p v [])) recipient.
Proof.
  intros Hp H. destruct p as [|s r]; [congruence|].
  cbn [unflatten_put]. rewrite H. reflexivity.
Qed.

Lemma put_below_existing key leaves : forall recipient kind inner,
  Forall (fun pv => fst pv <> []) leaves ->
  obj_get key recipient = Some (JObj kind inner) ->
  fold_left put (map (fun pv => (key :: fst pv, snd pv)) leaves) recipient
  = obj_set key (JObj kind (fold_left put leaves inner)) recipient.
Proof.
  induction leaves as [|[p v] leaves IH]; intros recipient kind inner Hne H.
  - simpl. symmetry. now apply obj_set_same.
  - inversion Hne as [|? ? Hp1 Hrest]; subst. cbn [fst] in Hp1.
    cbn [map fold_left fst snd].
    change (put recipient (key :: p, v)) with (unflatten_put (key :: p) v recipient).
    change (put inner (p, v)) with (unflatten_put p v inner).
    rewrite (unflatten_put_into key v recipient Hp1 H).
    rewrite (IH _ kind (unflatten_put p v inner)); auto.
    + now rewrite obj_set_set.
    + apply obj_get_set_eq.
Qed.

Lemma put_below_fresh key leaves recipient :
  leaves <> [] ->
  Forall (fun pv => fst pv <> []) leaves ->
  ~ In key (Object_keys recipient) ->
  fold_left put (map (fun pv => (key :: fst pv, snd pv)) leaves) recipient
  = (recipient ++ [(key, JObj KObject (fold_left put leaves []))])%list.
Proof.
  intros Hl Hne Hk. destruct leaves as [|[p v] leaves]; [congruence|].
  inversion Hne as [|? ? Hp1 Hrest]; subst. cbn [fst] in Hp1.
  cbn [map fold_left fst snd].
  change (put recipient (key :: p, v)) with (unflatten_put (key :: p) v recipient).
  change (put [] (p, v)) with (unflatten_put p v []).
  assert (Hnone : obj_get key recipient = None) by now apply obj_get_None_keys.
  rewrite (unflatten_put_fresh key v recipient Hp1 Hnone).
  rewrite (@put_below_existing key leaves _ KObject (unflatten_put p v [])); auto.
  - rewrite obj_set_set. now apply obj_set_fresh.
  - apply obj_get_set_eq.
Qed.


Lemma leafPaths_nonempty_paths object :
  Forall (fun pv : list string * json => fst pv <> []) (leafPaths object).
Proof.
  apply Forall_forall. intros [p v] Hin. apply leafPaths_In in Hin.
  destruct Hin as (key & x & p' & _ & -> & _). discriminate.
Qed.

Lemma leafPaths_value_nonempty v : leafPaths_value v <> [].
Proof.
  induction v as [| b | z | s | k props IH] using json_ind'; try discriminate.
  destruct props as [|[key x] ms]; [discriminate|].
  rewrite leafPaths_value_obj. unfold leafPaths. simpl.
  inversion IH; subst. simpl in *.
  destruct (leafPaths_value x); [congruence | discriminate].
Qed.

(** Writing the leaves of a nested mapping back rebuilds it, member after
    member. *)
Lemma put_leaves_rebuilds x :
  plainValue x = true -> noArraysValue x = true ->
  forall k members, x = JObj k members ->
  forall recipient,
    (forall key, In key (Object_keys members) -> ~ In key (Object_keys recipient)) ->
    fold_left put (leafPaths members) recipient = (recipient ++ members)%list.
Proof.
  induction x as [| b | z | s | k0 props IH] using json_ind';
    intros Hp Ha k members E; try discriminate.
  inversion E; subst k0 props. clear E.
  apply plainValue_obj in Hp. destruct Hp as (Hnd & _ & Hplain).
  unfold noArraysValue in Ha. rewrite everyObject_obj, andb_true_iff in Ha.
  destruct Ha as [Hk Harr]. rewrite forallb_forall in Harr.
  clear Hk. revert Hnd Hplain Harr.
  induction IH as [|[key y] members Hy Hmembers IHm];
    intros Hnd Hplain Harr recipient Hfresh.
  - simpl. now rewrite app_nil_r.
  - unfold leafPaths. simpl. rewrite fold_left_app. fold (leafPaths members).
    inversion Hnd as [|? ? Hknew Hnd']; subst.
    inversion Hplain as [|? ? Hpy Hplain']; subst.
    assert (Hkey : ~ In key (Object_keys recipient)).
    { apply Hfresh. simpl. auto. }
    assert (Hstep :
      fold_left put (map (fun pv => (key :: fst pv, snd pv)) (leafPaths_value y))
        recipient = (recipient ++ [(key, y)])%list).
    { destruct (isLeaf_cases y) as [[_ Hleaf]|(ky & m & ms & ->)].
      - rewrite (leafPaths_value_leaf _ Hleaf). simpl. unfold put. simpl.
        now apply obj_set_fresh.
      - rewrite leafPaths_value_obj.
        rewrite put_below_fresh; auto using leafPaths_nonempty_paths.
        + simpl in Hy, Hpy.
          rewrite (Hy Hpy (Harr _ (or_introl eq_refl)) ky (m :: ms) eq_refl []).
          * simpl. specialize (Harr _ (or_introl eq_refl)). simpl in Harr.
            destruct ky; [reflexivity | discriminate].
          * intros ? _ [].
        + rewrite <- (leafPaths_value_obj ky). apply leafPaths_value_nonempty. }
    rewrite Hstep, IHm; auto.
    + now rewrite <- app_assoc.
    + intros x Hx. apply Harr. now right.
    + intros key' Hin'. unfold Object_keys. rewrite map_app. simpl.
      intros Hc. apply in_app_or in Hc. destruct Hc as [Hc|[<-|[]]].
      * revert Hc. apply Hfresh. simpl. auto.
      * contradiction.
Qed.

(** C8, amended.  For a nested document whose keys are non-empty, without a
    dot and distinct within every mapping, and which holds no array,
    unflattening its flattened form gives the document back. *)
Theorem unflatten_flat (document : list (string * json)) :
  plainKeys document = true ->
  noArrays document = true ->
  unflatten (flat document) = document.
Proof.
  intros Hp Ha. unfold unflatten. rewrite (flat_plain _ Hp), fold_left_map.
  rewrite (@fold_left_In_eq _ _ _ put).
  - apply (put_leaves_rebuilds Hp Ha eq_refl []). intros ? _ [].
  - intros r [p v] Hin. simpl. unfold put. simpl.
    destruct (leafPaths_plain _ _ _ Hp Hin) as [Hne Hpl].
    now rewrite (split_join Hne (plain_dot_free Hpl)).
Qed.

(* ================================================================== *)
(** ** The namespace tree *)

Lemma subTree_loop_fix keypath file object cs :
  (fix loop (entries : list (string * json)) (cs : Obj TreeItem) {struct entries}
     : Obj TreeItem :=
     match entries with
     | [] => cs
     | (k, v) :: entries' => loop entries' (subTree_member keypath file k v cs)
     end) object cs
  = subTree_loop object keypath file cs.
Proof.
  unfold subTree_loop. revert cs.
  induction object as [|[k v] object IH]; intros cs; simpl; auto.
Qed.

Lemma scalarItem_None file newKeyPath key value before :
  scalarItem file newKeyPath key value before = None ->
  before = None /\ inherited key = true.
Proof.
  unfold scalarItem. destruct before as [[n|kp kn cs]|]; try discriminate.
  destruct (inherited key); [auto | discriminate].
Qed.

Lemma memberItem_None keypath file key value before :
  memberItem keypath file key value before = None -> before = None.
Proof.
  destruct value as [| b | z | s | k object]; cbn [memberItem];
    try (intros H; now apply scalarItem_None in H).
  destruct (String.eqb key "__proto__"); [auto | discriminate].
Qed.

(** A member changes the child at its key only, if it changes any. *)
Lemma subTree_member_eq keypath file key value children :
  subTree_member keypath file key value children
  = match memberItem keypath file key value (obj_get key children) with
    | Some item => obj_set key item children
    | None => children
    end.
Proof.
  assert (Hscalar :
    (let children' :=
       match js_get key children with
       | Undefined =>
           obj_set key (Node (newLocaleNode (childKeyPath keypath key))) children
       | _ => children
       end in
     match js_get key children' with
     | Own (Node node) =>
         obj_set key
           (Node (setLocale node (ParsedFile.locale file)
                    (treeRecord file (childKeyPath keypath key) key value)))
           children'
     | _ => children'
     end)
    = match scalarItem file (childKeyPath keypath key) key value
              (obj_get key children) with
      | Some item => obj_set key item children
      | None => children
      end).
  { cbv zeta. unfold scalarItem.
    destruct (obj_get key children) as [[n|kp kn cs]|] eqn:E.
    - now rewrite !(@js_get_own _ key children _ E).
    - rewrite !(@js_get_own _ key children _ E). symmetry. now apply obj_set_same.
    - rewrite (@js_get_absent _ key children E).
      destruct (inherited key) eqn:Hi.
      + now rewrite (@js_get_absent _ key children E), Hi.
      + rewrite (@js_get_own _ key _ _ (obj_get_set_eq _ _ _)).
        apply obj_set_set. }
  destruct value as [| b | z | s | k object]; try exact Hscalar.
  cbn [subTree_member memberItem]. unfold setChild.
  destruct (String.eqb key "__proto__").
  - destruct (js_get key children) as [[n|kp kn cs]|m|]; cbv zeta beta iota;
      (destruct (obj_get key children) as [item|] eqn:E;
       [symmetry; now apply obj_set_same | reflexivity]).
  - unfold js_get. destruct (obj_get key children) as [[n|kp kn cs]|];
      [| |destruct (inherited key)]; cbv zeta beta iota;
      rewrite subTree_loop_fix; reflexivity.
Qed.

Lemma subTree_loop_child object : forall keypath file cs key,
  NoDup (Object_keys object) ->
  obj_get key (subTree_loop object keypath file cs)
  = match obj_get key object with
    | Some v => memberItem keypath file key v (obj_get key cs)
    | None => obj_get key cs
    end.
Proof.
  unfold subTree_loop.
  induction object as [|[k v] object IH]; intros keypath file cs key Hnd;
    simpl; auto.
  inversion Hnd as [|? ? Hk Hnd']; subst.
  rewrite IH by assumption. rewrite subTree_member_eq.
  destruct (String.eqb_spec k key) as [->|Hne].
  - assert (Hnone : obj_get key object = None) by now apply obj_get_None_keys.
    rewrite Hnone.
    destruct (memberItem keypath file key v (obj_get key cs)) as [item|] eqn:E.
    + now rewrite obj_get_set_eq.
    + now apply memberItem_None in E.
  - destruct (memberItem keypath file k v (obj_get k cs)) as [item|];
      [now rewrite obj_get_set_neq | reflexivity].
Qed.

Lemma tree_get_cons key r kp kn children :
  tree_get (key :: r) (Tree kp kn children)
  = match obj_get key children with Some c => tree_get r c | None => None end.
Proof. reflexivity. Qed.


Lemma plainValue_member k object key v :
  plainValue (JObj k object) = true -> obj_get key object = Some v ->
  plainValue v = true.
Proof.
  intros H Hv. apply plainValue_obj in H. destruct H as (_ & _ & H).
  rewrite Forall_forall in H. apply obj_get_In in Hv. apply (H _ Hv).
Qed.

Lemma Forall_obj_set {A} (P : string * A -> Prop) k v o :
  Forall P o -> P (k, v) -> Forall P (obj_set k v o).
Proof.
  intros Ho Hv. induction Ho as [|[k' v'] o H' Ho IH]; simpl.
  - repeat constructor. exact Hv.
  - destruct (String.eqb_spec k' k) as [->|Hne]; constructor; auto.
Qed.

(** *** The key paths in the namespace tree *)

Lemma keyedAt_Tree keypath key kp kn children :
  keyedAt keypath key (Tree kp kn children)
  <-> kp = keypath /\ kn = getKeyname keypath
      /\ Forall (childAt keypath) children.
Proof.
  cbn [keyedAt].
  assert (H : (fix all (cs : list (string * TreeItem)) : Prop :=
                 match cs with
                 | [] => True
                 | (k, c) :: cs' =>
                     k <> "__proto__"
                     /\ keyedAt (childKeyPath keypath k) k c /\ all cs'
                 end) children
              <-> Forall (childAt keypath) children).
  { induction children as [|[k c] cs IH].
    - split; auto.
    - split.
      + intros (H0 & H1 & H2). constructor; [split; auto|]. now apply IH.
      + intros H. inversion H as [|? ? [H0 H1] H2]; subst.
        split; auto. split; auto. now apply IH. }
  rewrite H. reflexivity.
Qed.

Lemma inherited_proto : inherited "__proto__" = true.
Proof. reflexivity. Qed.

Lemma keyedAt_scalarItem file keypath key value before item :
  match before with
  | Some item => key <> "__proto__" /\ keyedAt keypath key item
  | None => True
  end ->
  scalarItem file keypath key value before = Some item ->
  key <> "__proto__" /\ keyedAt keypath key item.
Proof.
  intros H. unfold scalarItem.
  destruct before as [[n|kp kn cs]|].
  - intros E. inversion E; subst. destruct H as [H0 H]. split; auto.
    cbn [keyedAt] in *. destruct H as (H1 & H2 & H3).
    cbn [setLocale LocaleNode.keypath LocaleNode.keyname LocaleNode.locales].
    repeat split; auto. apply Forall_obj_set; auto.
    unfold recordAt, treeRecord. simpl. repeat split; auto. discriminate.
  - intros E. inversion E; subst. exact H.
  - destruct (inherited key) eqn:Hi; [discriminate|].
    intros E. inversion E; subst. split.
    + intros ->. rewrite inherited_proto in Hi. discriminate.
    + cbn [keyedAt setLocale newLocaleNode LocaleNode.keypath
             LocaleNode.keyname LocaleNode.locales obj_set].
      repeat split; auto. repeat constructor; simpl; auto. discriminate.
Qed.

Lemma childAt_get keypath children key item :
  Forall (childAt keypath) children -> obj_get key children = Some item ->
  key <> "__proto__" /\ keyedAt (childKeyPath keypath key) key item.
Proof.
  intros Hc E. apply obj_get_In in E. rewrite Forall_forall in Hc.
  apply (Hc _ E).
Qed.

(** Merging a member keeps every child under its own key path. *)
Lemma subTree_member_keyed file value : forall keypath key children,
  Forall (childAt keypath) children ->
  Forall (childAt keypath) (subTree_member keypath file key value children).
Proof.
  induction value as [| b | z | s | k props IH] using json_ind';
    intros keypath key children Hc; rewrite subTree_member_eq;
    cbn [memberItem].
  1-4: match goal with
       | |- context [scalarItem ?f ?kp ?k ?v ?b] =>
           destruct (scalarItem f kp k v b) as [item|] eqn:E; [|exact Hc];
           apply Forall_obj_set; auto; unfold childAt; cbn [fst snd];
           apply (@keyedAt_scalarItem f kp k v b item); [|exact E]
       end;
       destruct (obj_get key children) as [old|] eqn:Eo; auto;
       apply (@childAt_get keypath children key old Hc Eo).
  assert (Hloop : forall cs,
             Forall (childAt (childKeyPath keypath key)) cs ->
             Forall (childAt (childKeyPath keypath key))
               (subTree_loop props (childKeyPath keypath key) file cs)).
  { unfold subTree_loop. induction IH as [|[k0 v0] props Hv Hprops IHp];
      intros cs Hcs; simpl; auto. }
  destruct (String.eqb_spec key "__proto__") as [Hp|Hp].
  - destruct (obj_get key children) as [old|] eqn:E; [|exact Hc].
    rewrite (obj_set_same _ _ E). exact Hc.
  - apply Forall_obj_set; auto. split; [exact Hp|]. cbn [fst snd].
    destruct (obj_get key children) as [[n|kp kn cs]|] eqn:E.
    + apply keyedAt_Tree. repeat split; auto.
    + destruct (@childAt_get keypath children key _ Hc E) as [_ Hold].
      apply keyedAt_Tree in Hold.
      destruct Hold as (H1 & H2 & H3). apply keyedAt_Tree. repeat split; auto.
    + apply keyedAt_Tree. repeat split; auto.
Qed.

Lemma treeOf_snoc fs f :
  treeOf (fs ++ [f])
  = subTree (ParsedFile.value f) EmptyString f (Some (treeOf fs)).
Proof. unfold treeOf. now rewrite fold_left_app. Qed.

Lemma treeOf_Tree fs : exists kp kn cs, treeOf fs = Tree kp kn cs.
Proof.
  induction fs as [|f fs IH] using rev_ind.
  - unfold treeOf, newTree. simpl. do 3 eexists. reflexivity.
  - destruct IH as (kp & kn & cs & E). rewrite treeOf_snoc, E.
    cbn [subTree]. do 3 eexists. reflexivity.
Qed.

Lemma lastTree_snoc fs f locale p :
  lastTree (fs ++ [f]) locale p
  = if String.eqb (ParsedFile.locale f) locale then
      match doc_get p (JObj KObject (ParsedFile.value f)) with
      | Some v =>
          if isObject v then lastTree fs locale p
          else Some (treeRecord f (pathKey EmptyString p) (last p EmptyString) v)
      | None => lastTree fs locale p
      end
    else lastTree fs locale p.
Proof. unfold lastTree. now rewrite fold_left_app. Qed.

Lemma lastTree_None fs locale p :
  existsb (fun f => entryIn f p) fs = false -> lastTree fs locale p = None.
Proof.
  induction fs as [|f fs IH] using rev_ind; intros H; auto.
  rewrite existsb_app in H. simpl in H. rewrite orb_false_r in H.
  apply orb_false_iff in H. destruct H as [Hfs Hf].
  rewrite lastTree_snoc, (IH Hfs). unfold entryIn in Hf.
  destruct (String.eqb (ParsedFile.locale f) locale); auto.
  destruct (doc_get p (JObj KObject (ParsedFile.value f))) as [v|]; auto.
  destruct (isObject v); auto. discriminate.
Qed.

Lemma treeOf_keyed fs : keyedAt EmptyString EmptyString (treeOf fs).
Proof.
  induction fs as [|f fs IH] using rev_ind.
  - unfold treeOf, newTree. simpl. auto.
  - rewrite treeOf_snoc. destruct (treeOf fs) as [n|kp kn cs].
    + exact IH.
    + cbn [subTree]. apply keyedAt_Tree in IH. destruct IH as (H1 & H2 & H3).
      apply keyedAt_Tree. repeat split; auto.
      unfold subTree_loop. revert H3. generalize cs.
      induction (ParsedFile.value f) as [|[k v] object IHo]; intros cs0 H3;
        simpl; auto.
      apply IHo. now apply subTree_member_keyed.
Qed.

Lemma keyedAt_get p : forall keypath key t item,
  keyedAt keypath key t -> tree_get p t = Some item ->
  keyedAt (pathKey keypath p) (last p key) item.
Proof.
  induction p as [|s p IH]; intros keypath key t item Ht Hget.
  - simpl in Hget. inversion Hget; subst. exact Ht.
  - destruct t as [n|kp kn cs]; [discriminate|].
    rewrite tree_get_cons in Hget.
    destruct (obj_get s cs) as [c|] eqn:E; [|discriminate].
    apply keyedAt_Tree in Ht. destruct Ht as (_ & _ & Hcs).
    destruct (@childAt_get keypath cs s c Hcs E) as [_ Hc].
    pose proof (IH _ _ _ _ Hc Hget) as H.
    unfold pathKey in *. cbn [fold_left].
    replace (last (s :: p) key) with (last p s); [exact H|].
    clear. revert s. induction p as [|x p IHp]; intros s; auto.
    cbn [last]. destruct p; auto.
Qed.

(** No item of the tree is found along a path through [__proto__]. *)
Lemma keyedAt_no_proto p : forall keypath key t item,
  keyedAt keypath key t -> tree_get p t = Some item -> ~ In "__proto__" p.
Proof.
  induction p as [|s p IH]; intros keypath key t item Ht Hget; [auto|].
  destruct t as [n|kp kn cs]; [discriminate|].
  rewrite tree_get_cons in Hget.
  destruct (obj_get s cs) as [c|] eqn:E; [|discriminate].
  apply keyedAt_Tree in Ht. destruct Ht as (_ & _ & Hcs).
  destruct (@childAt_get keypath cs s c Hcs E) as [Hs Hc].
  intros [Heq|Hin]; [congruence|]. exact (IH _ _ _ _ Hc Hget Hin).
Qed.

Lemma treeOf_no_proto fs p item :
  tree_get p (treeOf fs) = Some item -> ~ In "__proto__" p.
Proof. apply keyedAt_no_proto with (1 := treeOf_keyed fs). Qed.

(** What merging one file does at a path of the tree that does not lead
    through [__proto__]: nothing where the document has nothing, a group
    where it has a nested mapping, and where it has a value what a scalar
    member leaves there. *)
Lemma subTree_loop_get file p : forall object keypath cs kp kn,
  p <> [] -> ~ In "__proto__" p ->
  plainValue (JObj KObject object) = true ->
  match doc_get p (JObj KObject object) with
  | None =>
      tree_get p (Tree kp kn (subTree_loop object keypath file cs))
      = tree_get p (Tree kp kn cs)
  | Some v =>
      if isObject v then
        exists a b c,
          tree_get p (Tree kp kn (subTree_loop object keypath file cs))
          = Some (Tree a b c)
      else
        tree_get p (Tree kp kn (subTree_loop object keypath file cs))
        = scalarItem file (pathKey keypath p) (last p EmptyString) v
            (tree_get p (Tree kp kn cs))
  end.
Proof.
  induction p as [|key r IH]; intros object keypath cs kp kn Hp Hproto Hplain;
    [congruence|].
  pose proof (plainValue_obj _ _ Hplain) as (Hnd & _ & _).
  assert (Hkey : String.eqb key "__proto__" = false).
  { apply String.eqb_neq. intros ->. apply Hproto. now left. }
  assert (Hr' : ~ In "__proto__" r) by (intros H; apply Hproto; now right).
  rewrite doc_get_cons, !tree_get_cons, subTree_loop_child by assumption.
  destruct (obj_get key object) as [v|] eqn:Ev; [|reflexivity].
  pose proof (plainValue_member _ _ _ Hplain Ev) as Hv.
  assert (Hold : forall o : option TreeItem,
             match o with Some c => Some c | None => None end = o)
    by (intros [c|]; reflexivity).
  destruct r as [|key' r'].
  - cbn [doc_get tree_get]. rewrite !Hold.
    destruct v as [| b | z | s | k' object']; try reflexivity.
    cbn [isObject memberItem]. rewrite Hkey.
    destruct (obj_get key cs) as [[n0|ta tb tc]|]; eauto.
  - assert (Hr : key' :: r' <> []) by discriminate.
    assert (Hscalar : forall v0,
               isObject v0 = false ->
               match scalarItem file (childKeyPath keypath key) key v0
                       (obj_get key cs) with
               | Some c => tree_get (key' :: r') c
               | None => None
               end
               = match obj_get key cs with
                 | Some c => tree_get (key' :: r') c
                 | None => None
                 end).
    { intros v0 _. unfold scalarItem.
      destruct (obj_get key cs) as [[n0|ta tb tc]|]; try reflexivity.
      destruct (inherited key); reflexivity. }
    destruct v as [| b | z | s | k' object'];
      try (cbn [doc_get memberItem]; now apply Hscalar).
    change (last (key :: key' :: r') EmptyString)
      with (last (key' :: r') EmptyString).
    change (pathKey keypath (key :: key' :: r'))
      with (pathKey (childKeyPath keypath key) (key' :: r')).
    change (doc_get (key' :: r') (JObj k' object'))
      with (doc_get (key' :: r') (JObj KObject object')).
    cbn [memberItem]. rewrite Hkey.
    destruct (obj_get key cs) as [[n0|a b c]|].
    + apply (IH object' (childKeyPath keypath key) []
               (childKeyPath keypath key) (getKeyname (childKeyPath keypath key))
               Hr Hr' Hv).
    + apply (IH object' (childKeyPath keypath key) c a b Hr Hr' Hv).
    + apply (IH object' (childKeyPath keypath key) []
               (childKeyPath keypath key) (getKeyname (childKeyPath keypath key))
               Hr Hr' Hv).
Qed.

(** What the tree holds after the files [fs] at a path that does not lead
    through [__proto__]: a group when some file has a nested mapping there;
    otherwise an entry when some file has a value there and the last
    segment is no name of [Object.prototype], with the record of the last
    such file for every locale; otherwise nothing. *)
Lemma treeOf_get fs :
  Forall (fun f => plainKeys (ParsedFile.value f) = true) fs ->
  forall p, p <> [] -> ~ In "__proto__" p ->
  match tree_get p (treeOf fs) with
  | Some (Tree _ _ _) => existsb (fun f => groupIn f p) fs = true
  | Some (Node n) =>
      existsb (fun f => groupIn f p) fs = false
      /\ existsb (fun f => entryIn f p) fs = true
      /\ inherited (last p EmptyString) = false
      /\ LocaleNode.keypath n = pathKey EmptyString p
      /\ forall locale,
           obj_get locale (LocaleNode.locales n) = lastTree fs locale p
  | None =>
      existsb (fun f => groupIn f p) fs = false
      /\ (existsb (fun f => entryIn f p) fs = false
          \/ inherited (last p EmptyString) = true)
  end.
Proof.
  induction fs as [|f fs IH] using rev_ind; intros Hplain p Hp Hproto.
  - unfold treeOf, newTree. simpl. destruct p; [congruence|]. simpl. auto.
  - apply Forall_app in Hplain. destruct Hplain as [Hfs Hf].
    inversion Hf as [|? ? Hf' _]; subst. specialize (IH Hfs p Hp Hproto).
    destruct (treeOf_Tree fs) as (kp & kn & cs & E).
    rewrite treeOf_snoc, E. cbn [subTree]. rewrite E in IH.
    pose proof (@subTree_loop_get f p (ParsedFile.value f) EmptyString cs kp kn
                  Hp Hproto Hf') as H.
    rewrite !existsb_app. cbn [existsb]. rewrite !orb_false_r.
    unfold groupIn at 2 4 6. unfold entryIn at 2 4.
    destruct (doc_get p (JObj KObject (ParsedFile.value f))) as [v|] eqn:Ed.
    + destruct (isObject v) eqn:Ev.
      * destruct H as (a & b & c & ->). apply orb_true_r.
      * rewrite H. cbn [negb]. rewrite !orb_false_r, !orb_true_r.
        destruct (tree_get p (Tree kp kn cs)) as [[n|a b c]|]; cbn [scalarItem].
        -- destruct IH as (Hg & He & Hi & Hk & Hl). repeat split; auto.
           intros locale. cbn [setLocale LocaleNode.locales].
           rewrite obj_get_set, lastTree_snoc, Ed, Ev, Hl. reflexivity.
        -- exact IH.
        -- destruct IH as (Hg & He).
           destruct (inherited (last p EmptyString)) eqn:Hi.
           ++ split; auto.
           ++ destruct He as [He|He]; [|discriminate].
              repeat split; auto.
              intros locale. cbn [setLocale newLocaleNode LocaleNode.locales].
              rewrite lastTree_snoc, Ed, Ev, (lastTree_None fs locale p He).
              simpl. reflexivity.
    + rewrite H, !orb_false_r.
      destruct (tree_get p (Tree kp kn cs)) as [[n|a b c]|]; auto.
      destruct IH as (Hg & He & Hi & Hk & Hl). repeat split; auto.
      intros locale. rewrite lastTree_snoc, Ed, Hl.
      now destruct (String.eqb (ParsedFile.locale f) locale).
Qed.

(** *** The tree lookup and the paths *)

Lemma getTreeNodeByKey_from_path segments : forall keypath tree item,
  split_dot keypath = segments ->
  getTreeNodeByKey_from keypath tree = Own item ->
  exists p, p <> [] /\ tree_get p tree = Some item.
Proof.
  induction segments as [|segment rest IH]; intros keypath tree item Hs.
  - now destruct (split_dot_nonempty keypath).
  - destruct tree as [n|kp kn children]; [discriminate|].
    rewrite getTreeNodeByKey_from_eq. cbv zeta. rewrite Hs. cbn [hd tl].
    unfold js_get.
    destruct (obj_get segment children) as [node|] eqn:E.
    2:{ destruct (inherited segment);
          [destruct (String.eqb _ _)|]; discriminate. }
    destruct (String.eqb_spec (join_dot rest) EmptyString) as [Hr|Hr].
    + intros H. inversion H; subst. exists [segment]. split; [discriminate|].
      rewrite tree_get_cons, E. reflexivity.
    + destruct node as [n|a b c]; [discriminate|]. intros H.
      pose proof (split_remaining keypath) as Hsplit. rewrite Hs in Hsplit.
      destruct (IH _ _ _ (Hsplit Hr) H) as (p & Hp & Hget).
      exists (segment :: p). split; [discriminate|].
      now rewrite tree_get_cons, E.
Qed.

Lemma join_dot_plain_nonempty p :
  p <> [] -> Forall plain_key p -> join_dot p <> EmptyString.
Proof.
  intros Hp Hpl E. apply join_dot_empty in E. destruct E as [E|E]; [congruence|].
  subst. inversion Hpl as [|? ? [H _] _]. congruence.
Qed.

(** The exact lookup of a path of plain segments: the item found by
    descending through the children; without one, the member of
    [Object.prototype] when the last segment is the name of one and is
    looked up in a group, and nothing otherwise. *)
Lemma getTreeNodeByKey_from_plain p : forall kp kn children,
  p <> [] -> Forall plain_key p ->
  getTreeNodeByKey_from (join_dot p) (Tree kp kn children)
  = match tree_get p (Tree kp kn children) with
    | Some item => Own item
    | None =>
        match tree_get (removelast p) (Tree kp kn children) with
        | Some (Tree _ _ _) =>
            if inherited (last p EmptyString)
            then Member (last p EmptyString) else Undefined
        | _ => Undefined
        end
    end.
Proof.
  induction p as [|segment rest IH]; intros kp kn children Hp Hpl; [congruence|].
  rewrite getTreeNodeByKey_from_eq. cbv zeta.
  rewrite (split_join Hp (plain_dot_free Hpl)). cbn [hd tl].
  rewrite tree_get_cons. unfold js_get.
  inversion Hpl as [|? ? _ Hrest]; subst.
  destruct rest as [|s r].
  - cbn [join_dot String.eqb removelast tree_get last].
    destruct (obj_get segment children) as [node|]; [reflexivity|].
    destruct (inherited segment); reflexivity.
  - assert (Hne : s :: r <> []) by discriminate.
    change (removelast (segment :: s :: r))
      with (segment :: removelast (s :: r)).
    change (last (segment :: s :: r) EmptyString)
      with (last (s :: r) EmptyString).
    rewrite tree_get_cons.
    destruct (String.eqb_spec (join_dot (s :: r)) EmptyString) as [E|E];
      [now destruct (join_dot_plain_nonempty Hne Hrest)|].
    destruct (obj_get segment children) as [[n|a b c]|].
    + cbn [tree_get]. destruct (removelast (s :: r)); reflexivity.
    + now apply IH.
    + destruct (inherited segment); reflexivity.
Qed.

Lemma getTreeNodeByKey_from_found p kp kn children item :
  p <> [] -> Forall plain_key p ->
  getTreeNodeByKey_from (join_dot p) (Tree kp kn children) = Own item
  <-> tree_get p (Tree kp kn children) = Some item.
Proof.
  intros Hp Hpl. rewrite (getTreeNodeByKey_from_plain kp kn children Hp Hpl).
  destruct (tree_get p (Tree kp kn children)) as [x|].
  - split; congruence.
  - destruct (tree_get (removelast p) (Tree kp kn children)) as [[n|a b c]|];
      [| destruct (inherited _) |]; split; discriminate.
Qed.

(** *** The flattened form of a file at a plain path *)

Lemma fold_obj_set_NoDup {A B} (key : B -> string) (val : B -> A) l : forall acc,
  NoDup (Object_keys acc) ->
  NoDup (Object_keys (fold_left (fun o b => obj_set (key b) (val b) o) l acc)).
Proof.
  induction l as [|b l IH]; intros acc H; simpl; auto.
  apply IH. now apply NoDup_keys_set.
Qed.

Lemma flat_keys_NoDup object : NoDup (Object_keys (flat object)).
Proof.
  unfold flat. rewrite flat_step_leafPaths.
  apply (fold_obj_set_NoDup (fun pv => pathKey EmptyString (fst pv)) snd).
  constructor.
Qed.

Lemma everyObject_doc_get P p : forall x v,
  everyObject P x = true -> doc_get p x = Some v -> everyObject P v = true.
Proof.
  induction p as [|key r IH]; intros x v Hx Hget.
  - simpl in Hget. now inversion Hget; subst.
  - destruct x as [| | | |k props]; try discriminate.
    rewrite doc_get_cons in Hget.
    destruct (obj_get key props) as [y|] eqn:E; [|discriminate].
    rewrite everyObject_obj, andb_true_iff, forallb_forall in Hx.
    destruct Hx as [_ Hx]. apply obj_get_In in E.
    apply (IH y v (Hx _ E) Hget).
Qed.

Lemma noEmptyObjects_leaf object p v :
  noEmptyObjects object = true -> p <> [] ->
  doc_get p (JObj KObject object) = Some v ->
  isLeaf v = negb (isObject v).
Proof.
  intros Hn Hp Hget. destruct p as [|key r]; [congruence|].
  rewrite doc_get_cons in Hget.
  destruct (obj_get key object) as [y|] eqn:E; [|discriminate].
  unfold noEmptyObjects in Hn. rewrite forallb_forall in Hn.
  apply obj_get_In in E. specialize (Hn _ E). simpl in Hn.
  pose proof (everyObject_doc_get _ _ _ Hn Hget) as Hv.
  destruct v as [| | | |k [|m ms]]; try reflexivity.
  rewrite everyObject_obj in Hv. discriminate.
Qed.

Lemma flatten_at_path f p :
  ParsedFile.flatten f = flat (ParsedFile.value f) ->
  plainKeys (ParsedFile.value f) = true ->
  noEmptyObjects (ParsedFile.value f) = true ->
  p <> [] -> Forall plain_key p ->
  obj_get (join_dot p) (ParsedFile.flatten f)
  = match doc_get p (JObj KObject (ParsedFile.value f)) with
    | Some v => if isObject v then None else Some v
    | None => None
    end.
Proof.
  intros Hload Hplain Hnoempty Hp Hpl. rewrite Hload.
  assert (Hin : forall w,
             obj_get (join_dot p) (flat (ParsedFile.value f)) = Some w ->
             doc_get p (JObj KObject (ParsedFile.value f)) = Some w
             /\ isObject w = false).
  { intros w Hw. apply obj_get_In in Hw. rewrite (flat_plain _ Hplain) in Hw.
    apply in_map_iff in Hw. destruct Hw as ([q w'] & Heq & Hq).
    simpl in Heq. inversion Heq; subst w'.
    destruct (leafPaths_plain _ _ _ Hplain Hq) as [Hq0 Hqpl].
    assert (q = p) by (apply join_dot_inj; auto). subst q.
    apply (leafPaths_spec _ _ _ Hplain) in Hq. destruct Hq as (_ & Hget & Hleaf).
    split; auto.
    rewrite (noEmptyObjects_leaf _ Hnoempty Hp Hget) in Hleaf.
    now apply negb_true_iff in Hleaf. }
  destruct (doc_get p (JObj KObject (ParsedFile.value f))) as [v|] eqn:Ed.
  - destruct (isObject v) eqn:Ev.
    + destruct (obj_get (join_dot p) (flat (ParsedFile.value f))) as [w|] eqn:Ew;
        auto.
      destruct (Hin w eq_refl) as [Hget Hobj]. inversion Hget; subst. congruence.
    + apply obj_get_NoDup_In; [apply flat_keys_NoDup|].
      rewrite (flat_plain _ Hplain). apply in_map_iff. exists (p, v). split; auto.
      apply (leafPaths_spec _ _ _ Hplain). repeat split; auto.
      rewrite (noEmptyObjects_leaf _ Hnoempty Hp Ed). now rewrite Ev.
  - destruct (obj_get (join_dot p) (flat (ParsedFile.value f))) as [w|] eqn:Ew;
      auto.
    destruct (Hin w eq_refl) as [Hget _]. discriminate.
Qed.

(** *** The two indices side by side *)


Lemma wellShaped_files fs : wellShaped fs -> Forall fileOk fs.
Proof.
  intros (Hl & Hf & _). unfold loaded in Hl.
  rewrite Forall_forall in *. rewrite forallb_forall in Hf.
  intros f Hin. specialize (Hf f Hin). apply andb_true_iff in Hf.
  destruct Hf. repeat split; auto.
Qed.

Lemma wellShaped_plain fs :
  wellShaped fs -> Forall (fun f => plainKeys (ParsedFile.value f) = true) fs.
Proof.
  intros H. apply wellShaped_files in H. revert H. apply Forall_impl.
  intros f (_ & H & _). exact H.
Qed.

Lemma entryIn_leaf f p :
  fileOk f -> entryIn f p = true ->
  p <> [] /\ Forall plain_key p
  /\ exists v, doc_get p (JObj KObject (ParsedFile.value f)) = Some v
               /\ isObject v = false
               /\ In (p, v) (leafPaths (ParsedFile.value f)).
Proof.
  intros (_ & Hplain & Hne) H. unfold entryIn in H.
  destruct (doc_get p (JObj KObject (ParsedFile.value f))) as [v|] eqn:Ed;
    [|discriminate].
  apply negb_true_iff in H.
  assert (Hp : p <> []).
  { intros ->. simpl in Ed. inversion Ed; subst. discriminate. }
  assert (Hin : In (p, v) (leafPaths (ParsedFile.value f))).
  { apply (leafPaths_spec _ _ _ Hplain). repeat split; auto.
    rewrite (noEmptyObjects_leaf _ Hne Hp Ed). now rewrite H. }
  split; auto. split; [apply (leafPaths_plain _ _ _ Hplain Hin)|].
  exists v. auto.
Qed.

Lemma sameShape_no_group fs f p :
  wellShaped fs -> In f fs -> entryIn f p = true ->
  existsb (fun g => groupIn g p) fs = false.
Proof.
  intros Hw Hin He. pose proof (wellShaped_files Hw) as Hok.
  rewrite Forall_forall in Hok.
  destruct (@entryIn_leaf f p (Hok f Hin) He) as (_ & _ & v & _ & _ & Hleaf).
  destruct Hw as (_ & _ & Hs). unfold sameShape in Hs.
  rewrite forallb_forall in Hs. specialize (Hs f Hin).
  rewrite forallb_forall in Hs. specialize (Hs _ Hleaf). simpl in Hs.
  rewrite forallb_forall in Hs.
  destruct (existsb (fun g => groupIn g p) fs) eqn:E; auto.
  apply existsb_exists in E. destruct E as (g & Hg & Hgp).
  specialize (Hs g Hg). rewrite Hgp in Hs. discriminate.
Qed.

Lemma last_records_agree fs locale p :
  Forall fileOk fs -> p <> [] -> Forall plain_key p ->
  sameRecord (lastTree fs locale p) (lastFlatten fs locale (join_dot p)).
Proof.
  intros Hok Hp Hpl. induction fs as [|f fs IH] using rev_ind.
  - exact I.
  - apply Forall_app in Hok. destruct Hok as [Hfs Hf].
    inversion Hf as [|? ? Hf' _]; subst. specialize (IH Hfs).
    rewrite lastTree_snoc, lastFlatten_snoc.
    destruct Hf' as (Hload & Hplain & Hne).
    pose proof (@flatten_at_path f p Hload Hplain Hne Hp Hpl) as Hflat.
    unfold obj_has. rewrite Hflat.
    destruct (String.eqb (ParsedFile.locale f) locale); auto.
    destruct (doc_get p (JObj KObject (ParsedFile.value f))) as [v|]; auto.
    destruct (isObject v); auto. simpl.
    unfold sameContent, treeRecord, flattenRecord. simpl.
    rewrite Hflat, (pathKey_join Hp Hpl). auto.
Qed.

Lemma doc_get_plain_path p : forall k object v,
  plainValue (JObj k object) = true ->
  doc_get p (JObj k object) = Some v -> Forall plain_key p.
Proof.
  induction p as [|key r IH]; intros k object v Hplain Hget; [constructor|].
  rewrite doc_get_cons in Hget.
  destruct (obj_get key object) as [x|] eqn:E; [|discriminate].
  constructor.
  - apply plainValue_obj in Hplain. destruct Hplain as (_ & Hkeys & _).
    rewrite Forall_forall in Hkeys. apply Hkeys.
    eapply obj_get_Some_keys; eauto.
  - destruct r as [|key' r']; [constructor|].
    destruct x as [| | | |k' inner]; try discriminate.
    apply (IH k' inner v); auto. eapply plainValue_member; eauto.
Qed.

(** The flattened form of a document with plain keys at a plain path: the
    value found there when [flat] keeps it. *)
Lemma flatten_at_leaf f p :
  ParsedFile.flatten f = flat (ParsedFile.value f) ->
  plainKeys (ParsedFile.value f) = true ->
  p <> [] -> Forall plain_key p ->
  obj_get (join_dot p) (ParsedFile.flatten f)
  = match doc_get p (JObj KObject (ParsedFile.value f)) with
    | Some v => if isLeaf v then Some v else None
    | None => None
    end.
Proof.
  intros Hload Hplain Hp Hpl. rewrite Hload.
  assert (Hin : forall w,
             obj_get (join_dot p) (flat (ParsedFile.value f)) = Some w ->
             doc_get p (JObj KObject (ParsedFile.value f)) = Some w
             /\ isLeaf w = true).
  { intros w Hw. apply obj_get_In in Hw. rewrite (flat_plain _ Hplain) in Hw.
    apply in_map_iff in Hw. destruct Hw as ([q w'] & Heq & Hq).
    simpl in Heq. inversion Heq; subst w'.
    destruct (leafPaths_plain _ _ _ Hplain Hq) as [Hq0 Hqpl].
    assert (q = p) by (apply join_dot_inj; auto). subst q.
    apply (leafPaths_spec _ _ _ Hplain) in Hq. destruct Hq as (_ & Hget & Hleaf).
    split; auto. }
  destruct (doc_get p (JObj KObject (ParsedFile.value f))) as [v|] eqn:Ed.
  - destruct (isLeaf v) eqn:Ev.
    + apply obj_get_NoDup_In; [apply flat_keys_NoDup|].
      rewrite (flat_plain _ Hplain). apply in_map_iff. exists (p, v). split; auto.
      apply (leafPaths_spec _ _ _ Hplain). repeat split; auto.
    + destruct (obj_get (join_dot p) (flat (ParsedFile.value f))) as [w|] eqn:Ew;
        auto.
      destruct (Hin w eq_refl) as [Hget Hleaf]. inversion Hget; subst.
      congruence.
  - destruct (obj_get (join_dot p) (flat (ParsedFile.value f))) as [w|] eqn:Ew;
      auto.
    destruct (Hin w eq_refl) as [Hget _]. discriminate.
Qed.

Lemma isLeaf_not_object v : isObject v = false -> isLeaf v = true.
Proof. destruct v; auto. discriminate. Qed.

(** Where no file has a nested mapping, the two indexes take the record of
    a locale from the same file. *)
Lemma last_records_agree_at_entry fs locale p :
  Forall (fun f => ParsedFile.flatten f = flat (ParsedFile.value f)
                   /\ plainKeys (ParsedFile.value f) = true
                   /\ groupIn f p = false) fs ->
  p <> [] -> Forall plain_key p ->
  sameRecord (lastTree fs locale p) (lastFlatten fs locale (join_dot p)).
Proof.
  intros Hok Hp Hpl. induction fs as [|f fs IH] using rev_ind.
  - exact I.
  - apply Forall_app in Hok. destruct Hok as [Hfs Hf].
    inversion Hf as [|? ? (Hload & Hplain & Hgroup) _]; subst.
    specialize (IH Hfs). rewrite lastTree_snoc, lastFlatten_snoc.
    pose proof (@flatten_at_leaf f p Hload Hplain Hp Hpl) as Hflat.
    unfold obj_has. rewrite Hflat. unfold groupIn in Hgroup.
    destruct (String.eqb (ParsedFile.locale f) locale); auto.
    destruct (doc_get p (JObj KObject (ParsedFile.value f))) as [v|]; auto.
    rewrite Hgroup, (isLeaf_not_object _ Hgroup). simpl.
    unfold sameContent, treeRecord, flattenRecord. simpl.
    rewrite Hflat, (isLeaf_not_object _ Hgroup), (pathKey_join Hp Hpl). auto.
Qed.

(** *** Keys that are names of [Object.prototype] *)

Lemma inherited_In k : inherited k = true <-> In k prototype_names.
Proof.
  unfold inherited. rewrite existsb_exists. split.
  - intros (x & Hx & E). apply String.eqb_eq in E. now subst.
  - intros H. exists k. split; auto. apply String.eqb_refl.
Qed.

Lemma inherited_no_dot k : inherited k = true -> has_dot k = false.
Proof.
  rewrite inherited_In. unfold prototype_names. cbn [In].
  intros H.
  repeat (destruct H as [<-|H]; [reflexivity|]). contradiction.
Qed.

Lemma has_dot_append x y : has_dot (x ++ String dot y) = true.
Proof.
  induction x as [|c x IH]; simpl.
  - reflexivity.
  - rewrite IH. apply orb_true_r.
Qed.

(** The dot-joined form of a path is no name of [Object.prototype] when
    its first segment is none. *)
Lemma join_dot_ordinary p :
  Forall (fun s => inherited s = false) p -> inherited (join_dot p) = false.
Proof.
  intros H. destruct p as [|x [|y r]].
  - reflexivity.
  - inversion H; subst. assumption.
  - rewrite join_dot_cons. apply not_true_is_false. intros Hi.
    apply inherited_no_dot in Hi. rewrite has_dot_append in Hi. discriminate.
Qed.

Lemma everyObject_keys P p : forall x v,
  everyObject (fun _ props => forallb P (map fst props)) x = true ->
  doc_get p x = Some v -> Forall (fun s => P s = true) p.
Proof.
  induction p as [|key r IH]; intros x v Hx Hget; [constructor|].
  destruct x as [| | | |k props]; try discriminate.
  rewrite doc_get_cons in Hget.
  destruct (obj_get key props) as [y|] eqn:E; [|discriminate].
  rewrite everyObject_obj, andb_true_iff in Hx. destruct Hx as [Hk Hx].
  rewrite forallb_forall in Hk, Hx. constructor.
  - apply Hk. apply (obj_get_Some_keys _ _ E).
  - apply obj_get_In in E. apply (IH y v (Hx _ E) Hget).
Qed.

Lemma doc_get_ordinary object p v :
  ordinaryKeys object = true ->
  doc_get p (JObj KObject object) = Some v ->
  Forall (fun s => inherited s = false) p.
Proof.
  intros Ho Hget.
  pose proof (@everyObject_keys (fun key => negb (inherited key)) p
                (JObj KObject object) v Ho Hget) as H.
  revert H. apply Forall_impl. intros s. apply negb_true_iff.
Qed.

Lemma ordinary_no_proto p :
  Forall (fun s => inherited s = false) p -> ~ In "__proto__" p.
Proof.
  intros H Hin. rewrite Forall_forall in H. specialize (H _ Hin).
  rewrite inherited_proto in H. discriminate.
Qed.

Lemma ordinary_last p :
  p <> [] -> Forall (fun s => inherited s = false) p ->
  inherited (last p EmptyString) = false.
Proof.
  intros Hp H. rewrite Forall_forall in H. apply H.
  destruct (exists_last Hp) as (q & x & ->). rewrite last_last.
  apply in_or_app. right. now left.
Qed.

(** Files without a key that is a name of [Object.prototype] have no such
    full key path: their index is rebuilt. *)
Lemma ordinaryKeys_indexable fs :
  Forall (fun f => ParsedFile.flatten f = flat (ParsedFile.value f)
                   /\ plainKeys (ParsedFile.value f) = true
                   /\ ordinaryKeys (ParsedFile.value f) = true) fs ->
  indexable fs = true.
Proof.
  intros H. unfold indexable. apply forallb_forall. intros f Hf.
  rewrite Forall_forall in H. destruct (H f Hf) as (Hload & Hplain & Hord).
  apply forallb_forall. intros k Hk. apply negb_true_iff.
  rewrite Hload, (flat_plain _ Hplain) in Hk. unfold Object_keys in Hk.
  rewrite map_map in Hk. apply in_map_iff in Hk.
  destruct Hk as ([q w] & <- & Hq). cbn [fst].
  apply (leafPaths_spec _ _ _ Hplain) in Hq. destruct Hq as (_ & Hget & _).
  apply join_dot_ordinary. apply (doc_get_ordinary _ _ Hord Hget).
Qed.

Lemma updateLocalesTree_treeOf l : updateLocalesTree l = treeOf (allFiles l).
Proof. reflexivity. Qed.

(** An entry of the tree found under its own key path is an entry of the
    flatten index, and the other way round. *)
Lemma tree_entry_path fs keypath n :
  wellShaped fs ->
  getTreeNodeByKey_from keypath (treeOf fs) = Own (Node n) ->
  LocaleNode.keypath n = keypath ->
  exists p, p <> [] /\ Forall plain_key p /\ keypath = join_dot p
            /\ ~ In "__proto__" p
            /\ tree_get p (treeOf fs) = Some (Node n)
            /\ exists f, In f fs /\ entryIn f p = true.
Proof.
  intros Hw Hget Hk.
  destruct (@getTreeNodeByKey_from_path (split_dot keypath) keypath (treeOf fs) (Node n) eq_refl Hget)
    as (p & Hp & Htree).
  pose proof (@treeOf_no_proto fs p (Node n) Htree) as Hproto.
  pose proof (@treeOf_get fs (wellShaped_plain Hw) p Hp Hproto) as H.
  rewrite Htree in H.
  destruct H as (_ & He & _ & Hkp & _).
  apply existsb_exists in He. destruct He as (f & Hf & Hfp).
  pose proof (wellShaped_files Hw) as Hok. rewrite Forall_forall in Hok.
  destruct (@entryIn_leaf f p (Hok f Hf) Hfp) as (_ & Hpl & _).
  exists p. repeat split; auto.
  - rewrite <- Hk, Hkp. now apply pathKey_join.
  - eauto.
Qed.

Lemma flatten_entry_path fs keypath f :
  wellShaped fs -> In f fs -> ordinaryKeys (ParsedFile.value f) = true ->
  obj_has keypath (ParsedFile.flatten f) = true ->
  exists p n, p <> [] /\ Forall plain_key p /\ keypath = join_dot p
              /\ ~ In "__proto__" p
              /\ tree_get p (treeOf fs) = Some (Node n)
              /\ LocaleNode.keypath n = keypath
              /\ getTreeNodeByKey_from keypath (treeOf fs) = Own (Node n).
Proof.
  intros Hw Hf Hord Hhas. pose proof (wellShaped_files Hw) as Hok.
  rewrite Forall_forall in Hok. destruct (Hok f Hf) as (Hload & Hplain & Hne).
  unfold obj_has in Hhas.
  destruct (obj_get keypath (ParsedFile.flatten f)) as [v|] eqn:Ev;
    [|discriminate].
  pose proof Ev as Hin. rewrite Hload in Hin. apply obj_get_In in Hin.
  rewrite (flat_plain _ Hplain) in Hin. apply in_map_iff in Hin.
  destruct Hin as ([p w] & Heq & Hleaf). simpl in Heq. inversion Heq; subst.
  destruct (leafPaths_plain _ _ _ Hplain Hleaf) as [Hp Hpl].
  assert (He : entryIn f p = true).
  { unfold entryIn. pose proof (@flatten_at_path f p Hload Hplain Hne Hp Hpl) as H.
    rewrite Ev in H.
    destruct (doc_get p (JObj KObject (ParsedFile.value f))) as [x|];
      [|discriminate].
    destruct (isObject x); [discriminate | reflexivity]. }
  assert (Hpo : Forall (fun s => inherited s = false) p).
  { apply (leafPaths_spec _ _ _ Hplain) in Hleaf.
    destruct Hleaf as (_ & Hget & _). apply (doc_get_ordinary _ _ Hord Hget). }
  pose proof (ordinary_no_proto Hpo) as Hproto.
  pose proof (@sameShape_no_group fs f p Hw Hf He) as Hg.
  pose proof (@treeOf_get fs (wellShaped_plain Hw) p Hp Hproto) as H.
  destruct (treeOf_Tree fs) as (kp & kn & cs & E).
  destruct (tree_get p (treeOf fs)) as [[n|a b c]|] eqn:Et.
  - destruct H as (_ & _ & _ & Hkp & _). exists p, n. repeat split; auto.
    + rewrite Hkp. now apply pathKey_join.
    + rewrite E in *. now apply getTreeNodeByKey_from_found.
  - congruence.
  - destruct H as [_ [H|H]].
    + assert (existsb (fun f0 => entryIn f0 p) fs = true).
      { apply existsb_exists. eauto. }
      congruence.
    + rewrite (ordinary_last Hp Hpo) in H. discriminate.
Qed.

(** C4, amended.  For a well-shaped set of loaded files (keys that are
    non-empty, without a dot and distinct within a mapping; no empty nested
    mapping; every path a value in all files that have it, or a nested
    mapping in all of them) none of whose keys is the name of a member of
    [Object.prototype], the rebuild completes, and the namespace tree and
    the flatten index agree after it: a key path is that of an entry of the
    tree, as [getTreeNodeByKey] finds it, exactly when it is a key of the
    flatten index, and then the two entries hold records for the same
    locales, with the same key path, value, locale and file path. *)
Theorem tree_and_flatten_index_agree (l : LocaleLoader) (keypath : string) :
  wellShaped (allFiles l) ->
  Forall (fun f => ordinaryKeys (ParsedFile.value f) = true) (allFiles l) ->
  let l' := updated l in
  rebuilt l
  /\ ((exists n, getTreeNodeByKey l' keypath None = Own (Node n)
                 /\ LocaleNode.keypath n = keypath)
      <-> (exists n', getNodeByKey l' keypath = Own n'))
  /\ forall n n',
       getTreeNodeByKey l' keypath None = Own (Node n) ->
       LocaleNode.keypath n = keypath ->
       getNodeByKey l' keypath = Own n' ->
       forall locale,
         sameRecord (obj_get locale (LocaleNode.locales n))
           (obj_get locale (LocaleNode.locales n')).
Proof.
  intros Hw Hord. cbv zeta.
  pose proof (wellShaped_files Hw) as Hok.
  assert (Hi : indexable (allFiles l) = true).
  { apply ordinaryKeys_indexable. rewrite Forall_forall in *.
    intros f Hf. destruct (Hok f Hf) as (H1 & H2 & _). auto. }
  pose proof (proj2 (rebuilt_indexable l) Hi) as Hr.
  split; [exact Hr|]. rewrite (updated_rebuild Hr).
  unfold getTreeNodeByKey.
  change (localeTree (rebuild l)) with (treeOf (allFiles l)).
  rewrite Forall_forall in Hord.
  pose proof (flattenIndex_get (allFiles l) keypath) as Hflat.
  rewrite <- rebuild_flatten in Hflat. fold (entryOf (rebuild l) keypath) in Hflat.
  split; [split|].
  - intros (n & Hget & Hk).
    destruct (@tree_entry_path (allFiles l) keypath n Hw Hget Hk)
      as (p & Hp & Hpl & -> & _ & _ & f & Hf & He).
    rewrite Forall_forall in Hok.
    destruct (Hok f Hf) as (Hload & Hplain & Hne).
    pose proof (@flatten_at_path f p Hload Hplain Hne Hp Hpl) as H.
    unfold entryIn in He.
    destruct (entryOf (rebuild l) (join_dot p)) as [n'|] eqn:En.
    + exists n'. now apply getNodeByKey_entryOf.
    + specialize (Hflat f Hf). unfold obj_has in Hflat. rewrite H in Hflat.
      destruct (doc_get p (JObj KObject (ParsedFile.value f))) as [x|];
        [|discriminate].
      destruct (isObject x); discriminate.
  - intros (n' & Hn'). apply getNodeByKey_entryOf in Hn'.
    rewrite Hn' in Hflat. destruct Hflat as (_ & _ & (f & Hf & Hhas) & _).
    destruct (@flatten_entry_path (allFiles l) keypath f Hw Hf (Hord f Hf) Hhas)
      as (p & n & _ & _ & _ & _ & _ & Hk & Hget).
    eauto.
  - intros n n' Hget Hk Hn' locale. apply getNodeByKey_entryOf in Hn'.
    rewrite Hn' in Hflat.
    destruct Hflat as (_ & _ & _ & Hl'). rewrite Hl'.
    destruct (@tree_entry_path (allFiles l) keypath n Hw Hget Hk)
      as (p & Hp & Hpl & -> & Hproto & Htree & _).
    pose proof (@treeOf_get (allFiles l) (wellShaped_plain Hw) p Hp Hproto) as H.
    rewrite Htree in H.
    destruct H as (_ & _ & _ & _ & Hl). rewrite Hl.
    apply last_records_agree; auto.
Qed.

Lemma lastFlatten_last fs1 f keypath : forall fs2,
  obj_has keypath (ParsedFile.flatten f) = true ->
  Forall (fun g => ParsedFile.locale g = ParsedFile.locale f ->
                   obj_get keypath (ParsedFile.flatten g) = None) fs2 ->
  lastFlatten (fs1 ++ f :: fs2) (ParsedFile.locale f) keypath
  = Some (flattenRecord f keypath).
Proof.
  induction fs2 as [|g fs2 IH] using rev_ind; intros Hhas Hlater.
  - change (fs1 ++ [f])%list with (fs1 ++ [f])%list.
    now rewrite lastFlatten_snoc, String.eqb_refl, Hhas.
  - apply Forall_app in Hlater. destruct Hlater as [Hfs2 Hg].
    inversion Hg as [|? ? Hg' _]; subst.
    change (fs1 ++ f :: fs2 ++ [g])%list with (fs1 ++ (f :: fs2) ++ [g])%list.
    rewrite app_assoc, lastFlatten_snoc, (IH Hhas Hfs2).
    destruct (String.eqb_spec (ParsedFile.locale g) (ParsedFile.locale f));
      auto.
    unfold obj_has. now rewrite Hg'.
Qed.

(** Where no file has a nested mapping at a path whose segments are no
    names of [Object.prototype], the tree has the entry of the files that
    have a value there, with the records of the flatten index. *)
Lemma tree_entry_at fs f p :
  Forall (fun g => ParsedFile.flatten g = flat (ParsedFile.value g)
                   /\ plainKeys (ParsedFile.value g) = true
                   /\ groupIn g p = false) fs ->
  p <> [] -> Forall plain_key p ->
  Forall (fun s => inherited s = false) p ->
  In f fs -> obj_has (join_dot p) (ParsedFile.flatten f) = true ->
  exists n,
    tree_get p (treeOf fs) = Some (Node n)
    /\ LocaleNode.keypath n = join_dot p
    /\ forall locale,
         sameRecord (obj_get locale (LocaleNode.locales n))
           (lastFlatten fs locale (join_dot p)).
Proof.
  intros Hok Hp Hpl Hpo Hf Hhas.
  assert (Hplain : Forall (fun g => plainKeys (ParsedFile.value g) = true) fs).
  { revert Hok. apply Forall_impl. intros g (_ & H & _). exact H. }
  pose proof (ordinary_no_proto Hpo) as Hproto.
  pose proof (@treeOf_get fs Hplain p Hp Hproto) as H.
  assert (Hg : existsb (fun g => groupIn g p) fs = false).
  { apply not_true_is_false. intros E. apply existsb_exists in E.
    destruct E as (g & Hg & E). rewrite Forall_forall in Hok.
    destruct (Hok g Hg) as (_ & _ & Hno). congruence. }
  assert (He : existsb (fun g => entryIn g p) fs = true).
  { apply existsb_exists. exists f. split; auto.
    rewrite Forall_forall in Hok. destruct (Hok f Hf) as (Hload & Hfp & Hno).
    unfold obj_has in Hhas.
    rewrite (@flatten_at_leaf f p Hload Hfp Hp Hpl) in Hhas.
    unfold entryIn. unfold groupIn in Hno.
    destruct (doc_get p (JObj KObject (ParsedFile.value f))) as [x|];
      [|discriminate].
    now rewrite Hno. }
  destruct (tree_get p (treeOf fs)) as [[n|a b c]|].
  - destruct H as (_ & _ & _ & Hkp & Hl). exists n.
    split; [reflexivity|]. split; [now rewrite Hkp, (pathKey_join Hp Hpl)|].
    intros locale. rewrite Hl. now apply last_records_agree_at_entry.
  - congruence.
  - destruct H as [_ [H|H]]; [congruence|].
    rewrite (ordinary_last Hp Hpo) in H. discriminate.
Qed.

(** The segments of a full key path of a file with plain keys. *)
Lemma flatten_key_segments f keypath :
  ParsedFile.flatten f = flat (ParsedFile.value f) ->
  plainKeys (ParsedFile.value f) = true ->
  obj_has keypath (ParsedFile.flatten f) = true ->
  split_dot keypath <> [] /\ Forall plain_key (split_dot keypath).
Proof.
  intros Hload Hplain Hhas. apply obj_has_true in Hhas.
  rewrite Hload, (flat_plain _ Hplain) in Hhas. unfold Object_keys in Hhas.
  rewrite map_map in Hhas. apply in_map_iff in Hhas.
  destruct Hhas as ([q w] & <- & Hq). cbn [fst].
  destruct (leafPaths_plain _ _ _ Hplain Hq) as [Hq0 Hqpl].
  now rewrite (split_join Hq0 (plain_dot_free Hqpl)).
Qed.

(** C5, amended.  Let [f] be, in processing order, the last file of its
    locale that defines the full key path [keypath] (files of other locales
    may follow and define it too).  After a rebuild that completes, the
    flatten index holds for that key and locale the value and file path of
    [f].  The tree, as [getTreeNodeByKey] finds it, holds them too when the
    files are loaded with plain keys (non-empty, without a dot, distinct
    within a mapping) and no file has a nested mapping at the key path.
    (For the tree, no key of a file is [__proto__] and no segment of the key
    path is the name of a member of [Object.prototype]; what the rebuild
    does with such names is left out.) *)
Theorem last_file_wins (l : LocaleLoader) (fs1 fs2 : list ParsedFile.t)
  (f : ParsedFile.t) (keypath : string) (v : json) :
  allFiles l = (fs1 ++ f :: fs2)%list ->
  obj_get keypath (ParsedFile.flatten f) = Some v ->
  Forall (fun g => ParsedFile.locale g = ParsedFile.locale f ->
                   obj_get keypath (ParsedFile.flatten g) = None) fs2 ->
  let l' := updated l in
  (rebuilt l ->
   exists n' r',
     getNodeByKey l' keypath = Own n'
     /\ obj_get (ParsedFile.locale f) (LocaleNode.locales n') = Some r'
     /\ LocaleRecord.value r' = v
     /\ LocaleRecord.filepath r' = Some (ParsedFile.filepath f))
  /\ (Forall (fun g => ParsedFile.flatten g = flat (ParsedFile.value g)
                       /\ plainKeys (ParsedFile.value g) = true
                       /\ noProtoKey (ParsedFile.value g) = true
                       /\ groupIn g (split_dot keypath) = false)
        (allFiles l) ->
      Forall (fun segment => inherited segment = false) (split_dot keypath) ->
      exists n r,
        getTreeNodeByKey l' keypath None = Own (Node n)
        /\ LocaleNode.keypath n = keypath
        /\ obj_get (ParsedFile.locale f) (LocaleNode.locales n) = Some r
        /\ LocaleRecord.value r = v
        /\ LocaleRecord.filepath r = Some (ParsedFile.filepath f)).
Proof.
  intros Hfiles Hv Hlater. cbv zeta.
  assert (Hhas : obj_has keypath (ParsedFile.flatten f) = true).
  { unfold obj_has. now rewrite Hv. }
  assert (Hf : In f (allFiles l)).
  { rewrite Hfiles. apply in_or_app. right. left. reflexivity. }
  assert (Hrec : LocaleRecord.value (flattenRecord f keypath) = v).
  { unfold flattenRecord. simpl. now rewrite Hv. }
  pose proof (@lastFlatten_last fs1 f keypath fs2 Hhas Hlater) as Hlast.
  rewrite <- Hfiles in Hlast.
  split.
  - intros Hr. rewrite (updated_rebuild Hr).
    pose proof (flattenIndex_get (allFiles l) keypath) as H.
    rewrite <- rebuild_flatten in H. fold (entryOf (rebuild l) keypath) in H.
    destruct (entryOf (rebuild l) keypath) as [n'|] eqn:En.
    + destruct H as (_ & _ & _ & Hl). exists n', (flattenRecord f keypath).
      rewrite Hl, Hlast. split; [now apply getNodeByKey_entryOf | auto].
    + rewrite (H f Hf) in Hhas. discriminate.
  - intros Hok Hpo. unfold getTreeNodeByKey.
    rewrite updated_tree, updateLocalesTree_treeOf.
    assert (Hseg : split_dot keypath <> []
                   /\ Forall plain_key (split_dot keypath)).
    { rewrite Forall_forall in Hok. destruct (Hok f Hf) as (H1 & H2 & _).
      now apply (@flatten_key_segments f keypath). }
    destruct Hseg as [Hp Hpl].
    assert (Hok' : Forall (fun g => ParsedFile.flatten g = flat (ParsedFile.value g)
                                   /\ plainKeys (ParsedFile.value g) = true
                                   /\ groupIn g (split_dot keypath) = false)
                     (allFiles l)).
    { revert Hok. apply Forall_impl. intros g (H1 & H2 & _ & H4). auto. }
    rewrite <- (join_split keypath) in Hhas.
    destruct (@tree_entry_at (allFiles l) f (split_dot keypath) Hok' Hp Hpl Hpo
                Hf Hhas) as (n & Htree & Hk & Hsame).
    rewrite (join_split keypath) in Hk, Hsame.
    specialize (Hsame (ParsedFile.locale f)). rewrite Hlast in Hsame.
    destruct (obj_get (ParsedFile.locale f) (LocaleNode.locales n)) as [r|] eqn:Er;
      [|contradiction].
    destruct Hsame as (_ & Hval & _ & Hfp & _).
    exists n, r. split.
    { destruct (treeOf_Tree (allFiles l)) as (kp & kn & cs & E).
      rewrite E in *. rewrite <- (join_split keypath) at 1.
      now apply getTreeNodeByKey_from_found. }
    split; [exact Hk|]. split; [exact Er|].
    split; [now rewrite Hval | now rewrite Hfp].
Qed.

(* ================================================================== *)
(** * Further properties of the loader *)

(** ** Deleting from an object *)

Lemma obj_get_delete_eq {A} k (o : Obj A) : obj_get k (obj_delete k o) = None.
Proof.
  induction o as [|[k' v'] o IH]; simpl; auto.
  destruct (String.eqb k' k) eqn:E; simpl; auto. now rewrite E.
Qed.

Lemma obj_get_delete_neq {A} k k' (o : Obj A) :
  k <> k' -> obj_get k' (obj_delete k o) = obj_get k' o.
Proof.
  intros Hne. induction o as [|[k0 v0] o IH]; simpl; auto.
  destruct (String.eqb_spec k0 k) as [->|H0].
  - destruct (String.eqb_spec k k'); [congruence | exact IH].
  - simpl. now rewrite IH.
Qed.

Lemma In_obj_delete {A} k (kv : string * A) o :
  In kv (obj_delete k o) <-> In kv o /\ fst kv <> k.
Proof.
  induction o as [|[k0 v0] o IH]; simpl; [taut|].
  destruct (String.eqb_spec k0 k) as [->|H0]; simpl; rewrite IH.
  - split; [taut|]. intros [[<-|H] Hne]; auto. now destruct Hne.
  - split; [|taut]. intros [<-|[H Hne]]; auto.
Qed.

Lemma Object_keys_delete {A} k (o : Obj A) :
  Object_keys (obj_delete k o)
  = filter (fun x => negb (String.eqb x k)) (Object_keys o).
Proof.
  induction o as [|[k0 v0] o IH]; simpl; auto.
  destruct (String.eqb k0 k); simpl; now rewrite IH.
Qed.

(* ================================================================== *)
(** ** The known locales *)

(** X1.  The known locales are the locales of the loaded files, each once:
    the list has no duplicates, a locale is in it exactly when some loaded
    file has it, and a file added at the end of the file store adds its
    locale at the end of the list unless it is known already. *)
Theorem locales_distinct_and_complete (l : LocaleLoader) :
  NoDup (locales l)
  /\ (forall locale,
        In locale (locales l)
        <-> exists f, In f (allFiles l) /\ ParsedFile.locale f = locale)
  /\ (forall l' f,
        allFiles l' = (allFiles l ++ [f])%list ->
        locales l'
        = if in_dec string_dec (ParsedFile.locale f) (locales l)
          then locales l
          else (locales l ++ [ParsedFile.locale f])%list).
Proof.
  unfold locales, allFiles. split; [apply uniq_NoDup|]. split.
  - intros locale. rewrite uniq_In, in_map_iff. split.
    + intros (f & H & Hin). eauto.
    + intros (f & Hin & H). eauto.
  - intros l' f ->. rewrite map_app. simpl. rewrite uniq_snoc.
    destruct (in_dec string_dec (ParsedFile.locale f)
                (map ParsedFile.locale (Object_values (files l)))) as [H|H];
      destruct (in_dec string_dec (ParsedFile.locale f)
                  (uniq (map ParsedFile.locale (Object_values (files l)))))
        as [H'|H']; auto.
    + exfalso. apply H'. apply uniq_In. exact H.
    + exfalso. apply H. apply uniq_In. exact H'.
Qed.

(* ================================================================== *)
(** ** Loading a file *)

Lemma loadFile_run filepath w :
  loadFile filepath w
  = (Fulfilled tt,
     mkWorld
       (mkLoader
          (match readDocument w filepath with
           | Some value =>
               obj_set filepath
                 (ParsedFile.mk filepath (fst (getFileInfo filepath)) value
                    (snd (getFileInfo filepath)) (flat value))
                 (files (loader w))
           | None => obj_delete filepath (files (loader w))
           end)
          (flattenLocaleTree (loader w)) (localeTree (loader w)))
       (disk w)).
Proof.
  unfold loadFile, readDocument, unsetFile.
  destruct (getFileInfo filepath) as [locale nested]. simpl.
  destruct (obj_get filepath (disk w)) as [raw|]; [|reflexivity].
  destruct (JSON_parse raw) as [v|]; [|reflexivity].
  destruct (own_props v); reflexivity.
Qed.

(** X2.  [loadFile] never rejects, whatever the file holds: a failure to
    read or parse is swallowed.  It leaves the disk, the namespace tree and
    the flatten index as they are (the indexes are stale until the next
    rebuild), and it changes the entry of no other file path. *)
Theorem loadFile_never_rejects (filepath : string) (w : World) :
  let w' := snd (loadFile filepath w) in
  fst (loadFile filepath w) = Fulfilled tt
  /\ disk w' = disk w
  /\ localeTree (loader w') = localeTree (loader w)
  /\ flattenLocaleTree (loader w') = flattenLocaleTree (loader w)
  /\ forall other,
       other <> filepath ->
       obj_get other (files (loader w')) = obj_get other (files (loader w)).
Proof.
  cbv zeta. rewrite loadFile_run. simpl. repeat split.
  intros other Hne. destruct (readDocument w filepath).
  - apply obj_get_set_neq. congruence.
  - apply obj_get_delete_neq. congruence.
Qed.

(** X3.  What [loadFile] leaves in the file store.  A file that is read and
    parsed is stored under its path with the locale and the nesting flag of
    [getFileInfo], the members of its document and their flattened form; a
    file that was loaded before keeps its place in the processing order, a
    new file goes last.  A file that is missing, does not parse or parses to
    [null] is evicted: it has no entry afterwards, and the other files keep
    their order. *)
Theorem loadFile_stores_or_evicts (filepath : string) (w : World) :
  let before := files (loader w) in
  let after := files (loader (snd (loadFile filepath w))) in
  match readDocument w filepath with
  | Some value =>
      obj_get filepath after
      = Some (ParsedFile.mk filepath (fst (getFileInfo filepath)) value
                (snd (getFileInfo filepath)) (flat value))
      /\ Object_keys after
         = if obj_has filepath before then Object_keys before
           else (Object_keys before ++ [filepath])%list
  | None =>
      obj_get filepath after = None
      /\ Object_keys after
         = filter (fun other => negb (String.eqb other filepath))
             (Object_keys before)
  end.
Proof.
  cbv zeta. rewrite loadFile_run. simpl.
  destruct (readDocument w filepath) as [value|].
  - split; [apply obj_get_set_eq | apply Object_keys_set].
  - split; [apply obj_get_delete_eq | apply Object_keys_delete].
Qed.

(* ================================================================== *)
(** ** The handler of the watcher *)

Lemma In_obj_set {A} k (v : A) o : In (k, v) (obj_set k v o).
Proof.
  induction o as [|[k' v'] o IH]; simpl; auto.
  destruct (String.eqb_spec k' k) as [->|Hne]; simpl; auto.
Qed.

Lemma In_values_delete {A} k (x : A) o :
  In x (Object_values (obj_delete k o))
  <-> exists other, other <> k /\ In (other, x) o.
Proof.
  unfold Object_values. rewrite in_map_iff. split.
  - intros ([k0 x0] & E & Hin). simpl in E. subst x0.
    apply In_obj_delete in Hin. destruct Hin as [Hin Hne]. eauto.
  - intros (other & Hne & Hin). exists (other, x). split; auto.
    apply In_obj_delete. auto.
Qed.

(** The record of the flatten index for a locale and a key comes from a
    file of the locale that has the key. *)
Lemma lastFlatten_spec fs locale k :
  match lastFlatten fs locale k with
  | Some r =>
      exists f, In f fs /\ ParsedFile.locale f = locale
                /\ obj_has k (ParsedFile.flatten f) = true
                /\ r = flattenRecord f k
  | None =>
      forall f, In f fs -> ParsedFile.locale f = locale ->
                obj_has k (ParsedFile.flatten f) = false
  end.
Proof.
  induction fs as [|f fs IH] using rev_ind; [simpl; taut|].
  rewrite lastFlatten_snoc.
  destruct (String.eqb_spec (ParsedFile.locale f) locale) as [E|E]; simpl.
  - destruct (obj_has k (ParsedFile.flatten f)) eqn:Hk.
    + exists f. repeat split; auto. apply in_or_app. simpl. auto.
    + destruct (lastFlatten fs locale k) as [r|].
      * destruct IH as (f0 & Hin & H). exists f0. split; auto.
        apply in_or_app. auto.
      * intros f0 Hin. apply in_app_or in Hin.
        destruct Hin as [Hin|[<-|[]]]; auto.
  - destruct (lastFlatten fs locale k) as [r|].
    + destruct IH as (f0 & Hin & H). exists f0. split; auto.
      apply in_or_app. auto.
    + intros f0 Hin. apply in_app_or in Hin.
      destruct Hin as [Hin|[<-|[]]]; auto. congruence.
Qed.

(** A key has an entry in the rebuilt flatten index exactly when a loaded
    file has it. *)
Lemma entryOf_rebuild l k :
  entryOf (rebuild l) k <> None
  <-> exists f, In f (allFiles l) /\ obj_has k (ParsedFile.flatten f) = true.
Proof.
  unfold entryOf. rewrite rebuild_flatten.
  pose proof (flattenIndex_get (allFiles l) k) as H.
  destruct (obj_get k (fold_left indexFile (allFiles l) [])) as [n|].
  - destruct H as (_ & _ & H & _). split; auto. discriminate.
  - split; [congruence|]. intros (f & Hin & Hk). rewrite (H f Hin) in Hk.
    discriminate.
Qed.

Lemma getNodeByKey_Own_rebuild l k :
  (exists node, getNodeByKey (rebuild l) k = Own node)
  <-> exists f, In f (allFiles l) /\ obj_has k (ParsedFile.flatten f) = true.
Proof.
  rewrite <- entryOf_rebuild. split.
  - intros (node & H). apply getNodeByKey_entryOf in H. congruence.
  - intros H. destruct (entryOf (rebuild l) k) as [node|] eqn:E; [|congruence].
    exists node. now apply getNodeByKey_entryOf.
Qed.



(** The call of [update] in an async method: it rejects with a
    [TypeError] exactly when a full key path of a loaded file is a name of
    [Object.prototype]. *)
Lemma call_update_run w :
  call update w
  = (if indexable (allFiles (loader w)) then Fulfilled tt
     else Rejected TypeError,
     mkWorld (updated (loader w)) (disk w)).
Proof.
  unfold call, updated. rewrite update_run.
  now destruct (indexable (allFiles (loader w))).
Qed.

(** The file store the handler rebuilds the indexes from. *)
Lemma updateFile_run type fsPath w :
  extname (resolve cwd fsPath) = ".json" ->
  let filepath := resolve cwd fsPath in
  let l1 :=
    match type with
    | Del => mkLoader (obj_delete filepath (files (loader w)))
               (flattenLocaleTree (loader w)) (localeTree (loader w))
    | _ => loader (snd (loadFile filepath w))
    end in
  updateFile type fsPath w
  = (if indexable (allFiles l1) then Fulfilled tt else Rejected TypeError,
     mkWorld (updated l1) (disk w)).
Proof.
  intros E. cbv zeta. unfold updateFile. rewrite E.
  change (negb (String.eqb ".json" ".json")) with false. cbv iota.
  destruct type; unfold bind, getLoader, setLoader;
    rewrite ?loadFile_run; cbv beta iota; rewrite call_update_run;
    reflexivity.
Qed.


(** X5.  After a deletion event on a [.json] path the file is gone from the
    file store; and when the handler is fulfilled, a key path has an entry
    in the flatten index exactly when a file stored under another path has
    it: the keys that only the deleted file had are forgotten. *)
Theorem updateFile_del_forgets_the_file (fsPath : string) (w : World) :
  let filepath := resolve cwd fsPath in
  extname filepath = ".json" ->
  let l' := loader (snd (updateFile Del fsPath w)) in
  obj_get filepath (files l') = None
  /\ (fst (updateFile Del fsPath w) = Fulfilled tt ->
      forall keypath,
        (exists node, getNodeByKey l' keypath = Own node)
        <-> exists other f,
              other <> filepath /\ In (other, f) (files (loader w))
              /\ obj_has keypath (ParsedFile.flatten f) = true).
Proof.
  cbv zeta. intros E. rewrite (updateFile_run Del w E). cbv zeta.
  cbn [fst snd loader].
  set (l1 := mkLoader _ _ _). split.
  - rewrite updated_files. apply obj_get_delete_eq.
  - destruct (indexable (allFiles l1)) eqn:Hi; [|discriminate]. intros _.
    rewrite (updated_rebuild (proj2 (rebuilt_indexable l1) Hi)).
    intros keypath. rewrite getNodeByKey_Own_rebuild. unfold allFiles, l1.
    cbn [files]. split.
    + intros (f & Hin & Hk). apply In_values_delete in Hin.
      destruct Hin as (other & Hne & Hin). eauto.
    + intros (other & f & Hne & Hin & Hk). exists f. split; auto.
      apply In_values_delete. eauto.
Qed.

(** X6.  After a change or creation event on a [.json] path whose file is
    read and parsed, when the handler is fulfilled, every key of the
    flattened document has an entry in the flatten index, and the entry
    holds a record for the locale of the file. *)
Theorem updateFile_change_indexes_the_file (type : WatchEvent)
  (fsPath : string) (w : World) (value : list (string * json))
  (keypath : string) :
  let filepath := resolve cwd fsPath in
  extname filepath = ".json" -> type <> Del ->
  readDocument w filepath = Some value ->
  In keypath (Object_keys (flat value)) ->
  fst (updateFile type fsPath w) = Fulfilled tt ->
  let l' := loader (snd (updateFile type fsPath w)) in
  exists node record,
    getNodeByKey l' keypath = Own node
    /\ LocaleNode.keypath node = keypath
    /\ obj_get (fst (getFileInfo filepath)) (LocaleNode.locales node)
       = Some record
    /\ LocaleRecord.locale record = fst (getFileInfo filepath)
    /\ LocaleRecord.keypath record = keypath.
Proof.
  cbv zeta. intros E Htype Hread Hk. rewrite (updateFile_run type w E).
  cbv zeta. cbn [fst snd loader].
  set (filepath := resolve cwd fsPath) in *.
  set (pf := ParsedFile.mk filepath (fst (getFileInfo filepath)) value
               (snd (getFileInfo filepath)) (flat value)).
  set (l1 := mkLoader (obj_set filepath pf (files (loader w)))
               (flattenLocaleTree (loader w)) (localeTree (loader w))).
  assert (Hl1 : match type with
                | Del => mkLoader (obj_delete filepath (files (loader w)))
                           (flattenLocaleTree (loader w)) (localeTree (loader w))
                | _ => loader (snd (loadFile filepath w))
                end = l1).
  { destruct type; [congruence | |]; rewrite loadFile_run, Hread; reflexivity. }
  rewrite Hl1. destruct (indexable (allFiles l1)) eqn:Hi; [|discriminate].
  intros _. rewrite (updated_rebuild (proj2 (rebuilt_indexable l1) Hi)).
  assert (Hin : In pf (allFiles l1)).
  { unfold allFiles, Object_values, l1. simpl.
    apply in_map_iff. exists (filepath, pf). split; auto. apply In_obj_set. }
  assert (Hhas : obj_has keypath (ParsedFile.flatten pf) = true).
  { apply obj_has_true. exact Hk. }
  pose proof (flattenIndex_get (allFiles l1) keypath) as H.
  rewrite <- rebuild_flatten in H. fold (entryOf (rebuild l1) keypath) in H.
  destruct (entryOf (rebuild l1) keypath) as [n|] eqn:En.
  - destruct H as (H1 & _ & _ & H4).
    pose proof (lastFlatten_spec (allFiles l1) (fst (getFileInfo filepath))
                  keypath) as Hl.
    rewrite <- H4 in Hl.
    destruct (obj_get (fst (getFileInfo filepath)) (LocaleNode.locales n))
      as [r|] eqn:Er.
    + destruct Hl as (f & _ & Hloc & _ & Hr). exists n, r. subst r.
      split; [now apply getNodeByKey_entryOf|]. repeat split; auto.
    + rewrite (Hl pf Hin eq_refl) in Hhas. discriminate.
  - rewrite (H pf Hin) in Hhas. discriminate.
Qed.

(* ================================================================== *)
(** ** The records of the flatten index *)

Lemma flattenRecord_value f k :
  obj_has k (ParsedFile.flatten f) = true ->
  obj_get k (ParsedFile.flatten f) = Some (LocaleRecord.value (flattenRecord f k)).
Proof.
  unfold obj_has, flattenRecord. simpl.
  destruct (obj_get k (ParsedFile.flatten f)); [reflexivity | discriminate].
Qed.

Lemma locales_rebuild l : locales (rebuild l) = locales l.
Proof. reflexivity. Qed.

Lemma locales_updated l : locales (updated l) = locales l.
Proof. unfold locales. now rewrite updated_files. Qed.

Lemma locales_member l locale :
  In locale (locales l) ->
  exists f, In f (allFiles l) /\ ParsedFile.locale f = locale.
Proof.
  unfold locales, allFiles. rewrite uniq_In, in_map_iff.
  intros (f & H & Hin). eauto.
Qed.

Lemma locales_In l f : In f (allFiles l) -> In (ParsedFile.locale f) (locales l).
Proof.
  intros H. unfold locales. apply uniq_In. apply in_map_iff. eauto.
Qed.

(** What is known of a record found in the rebuilt flatten index. *)
Lemma flattenIndex_record l keypath locale node record :
  entryOf (rebuild l) keypath = Some node ->
  obj_get locale (LocaleNode.locales node) = Some record ->
  LocaleNode.keypath node = keypath
  /\ LocaleNode.keyname node = getKeyname keypath
  /\ exists f, In f (allFiles l) /\ ParsedFile.locale f = locale
               /\ obj_has keypath (ParsedFile.flatten f) = true
               /\ record = flattenRecord f keypath.
Proof.
  unfold entryOf. rewrite rebuild_flatten. intros Hn Hr.
  pose proof (flattenIndex_get (allFiles l) keypath) as H.
  rewrite Hn in H. destruct H as (H1 & H2 & _ & H4).
  split; auto. split; auto.
  pose proof (lastFlatten_spec (allFiles l) locale keypath) as Hl.
  rewrite <- H4, Hr in Hl. exact Hl.
Qed.

(** X7.  After a rebuild that completes, every record of the flatten index
    is the record of a loaded file: it stands under its own locale, which is
    a known locale, in the entry of its own key path; it is no shadow; and
    its value and file path are those of a loaded file of that locale that
    has the key. *)
Theorem flatten_index_records (l : LocaleLoader) (keypath locale : string)
  (node : LocaleNode.t) (record : LocaleRecord.t) :
  rebuilt l ->
  getNodeByKey (updated l) keypath = Own node ->
  obj_get locale (LocaleNode.locales node) = Some record ->
  LocaleNode.keypath node = keypath
  /\ LocaleNode.keyname node = getKeyname keypath
  /\ LocaleRecord.keypath record = keypath
  /\ LocaleRecord.keyname record = getKeyname keypath
  /\ LocaleRecord.locale record = locale
  /\ LocaleRecord.shadow record = false
  /\ In locale (locales (updated l))
  /\ exists f,
       In f (allFiles l) /\ ParsedFile.locale f = locale
       /\ LocaleRecord.filepath record = Some (ParsedFile.filepath f)
       /\ obj_get keypath (ParsedFile.flatten f)
          = Some (LocaleRecord.value record).
Proof.
  intros Hb Hn Hr. rewrite locales_updated.
  rewrite (updated_rebuild Hb) in Hn. apply getNodeByKey_entryOf in Hn.
  destruct (@flattenIndex_record l keypath locale node record Hn Hr) as (H1 & H2 & f & Hin & Hloc & Hk & ->).
  repeat split; auto.
  - rewrite <- Hloc. now apply locales_In.
  - exists f. repeat split; auto. now apply flattenRecord_value.
Qed.


(** X9.  A locale without a loaded file has no translation at all: after a
    rebuild that completes, its coverage counts no key as translated,
    whatever the key set.  (The call throws a [TypeError] when the key set
    holds the name of a member of [Object.prototype], and only then.) *)
Theorem getCoverage_of_unknown_locale (l : LocaleLoader) (locale : string)
  (keys : option (list string)) :
  ~ In locale (locales l) -> rebuilt l ->
  match getCoverage (updated l) locale keys with
  | Return c => Coverage.translated c = 0
  | Throw e =>
      e = TypeError
      /\ exists ks, keys = Some ks /\ existsb inherited ks = true
  end.
Proof.
  intros Hloc Hb. rewrite (updated_rebuild Hb).
  pose proof (proj1 (rebuilt_indexable l) Hb) as Hi.
  rewrite getCoverage_run. cbv zeta. rewrite (existsb_inherited_own l _ Hi).
  destruct (existsb inherited _) eqn:Ex.
  - split; [reflexivity|]. destruct keys as [ks|]; [eauto|].
    exfalso. apply existsb_exists in Ex. destruct Ex as (k & Hin & Hk).
    rewrite (indexable_ordinary l k Hi Hin) in Hk. discriminate.
  - cbn [Coverage.translated].
    match goal with
    | |- length (filter ?f ?ks) = 0 =>
        assert (H : forall k, f k = false); [|generalize ks as ks0]
    end.
    + intros k. rewrite hasTranslation_rebuild.
      pose proof (lastFlatten_spec (allFiles l) locale k) as Hl.
      destruct (lastFlatten (allFiles l) locale k) as [r|]; auto.
      exfalso. apply Hloc. destruct Hl as (f & Hin & <- & _).
      now apply locales_In.
    + intros ks0. induction ks0 as [|k ks0 IH]; simpl; auto. now rewrite H.
Qed.

(* ================================================================== *)
(** ** Machine translation through [MachineTranslate] *)

Lemma MachineTranslateRecord_fulfilled l record source v :
  MachineTranslateRecord l record source = Fulfilled v ->
  LocaleRecord.locale record <> source
  /\ exists node sourceRecord text,
       getNodeByKey l (LocaleRecord.keypath record) = Own node
       /\ obj_get source (LocaleNode.locales node) = Some sourceRecord
       /\ truthy (LocaleRecord.value sourceRecord) = true
       /\ MachinTranslate (LocaleRecord.value sourceRecord) source
            (LocaleRecord.locale record) = inl text
       /\ v = Some (PendingWrite.mk (LocaleRecord.locale record) (JStr text)
                      (LocaleRecord.filepath record)
                      (LocaleRecord.keypath record)).
Proof.
  unfold MachineTranslateRecord.
  destruct (String.eqb_spec (LocaleRecord.locale record) source) as [E|E];
    [discriminate|].
  intros H. split; auto.
  destruct (getNodeByKey l (LocaleRecord.keypath record)) as [node|m|];
    try discriminate H.
  destruct (obj_get source (LocaleNode.locales node)) as [sr|] eqn:Es;
    try discriminate H.
  destruct (truthy (LocaleRecord.value sr)) eqn:Et; try discriminate H.
  cbn [negb] in H.
  destruct (MachinTranslate (LocaleRecord.value sr) source
              (LocaleRecord.locale record)) as [text|cause] eqn:Em;
    try discriminate H.
  inversion H. exists node, sr, text. auto.
Qed.

Lemma MachineTranslateRecord_rejected l record source e :
  MachineTranslateRecord l record source = Rejected e ->
  (exists type cause, e = AllyError type cause)
  \/ (e = TypeError /\ readsMember l (LocaleRecord.keypath record) = true).
Proof.
  unfold MachineTranslateRecord. rewrite getNodeByKey_run. intros H.
  destruct (readsMember l (LocaleRecord.keypath record)).
  - destruct (String.eqb _ _); inversion H; eauto.
  - left. destruct (entryOf l (LocaleRecord.keypath record)); cbn [toRead] in H;
    repeat match type of H with
           | context [match ?x with _ => _ end] => destruct x
           | context [if ?x then _ else _] => destruct x
           end; try discriminate H; inversion H; eauto.
Qed.

(** X10.  [MachineTranslate] on a record works with the given source
    language, and with the configured one when none (or an empty one) is
    given.  When it succeeds, the locale of the record is not the source
    language, the key path of the record has an entry in the flatten index
    with a record of the source language whose value is non-empty, and the
    call returns exactly one pending write, for the locale, key path and
    file path of the record, with the text the translation function gives
    for that value.  When it fails it fails as [MachineTranslateRecord]
    does: with an error of the loader, or with a [TypeError] when the key
    path is the name of a member of [Object.prototype] that is no key of
    the index. *)
Theorem MachineTranslate_of_record (l : LocaleLoader) (record : LocaleRecord.t)
  (source : option string) (order : list nat) :
  let src := effectiveSource source in
  match MachineTranslate l (OfRecord record) source order with
  | Fulfilled pendings =>
      LocaleRecord.locale record <> src
      /\ exists node sourceRecord text,
           getNodeByKey l (LocaleRecord.keypath record) = Own node
           /\ obj_get src (LocaleNode.locales node) = Some sourceRecord
           /\ truthy (LocaleRecord.value sourceRecord) = true
           /\ MachinTranslate (LocaleRecord.value sourceRecord) src
                (LocaleRecord.locale record) = inl text
           /\ pendings
              = [PendingWrite.mk (LocaleRecord.locale record) (JStr text)
                   (LocaleRecord.filepath record)
                   (LocaleRecord.keypath record)]
  | Rejected e =>
      MachineTranslateRecord l record src = Rejected e
      /\ ((exists type cause, e = AllyError type cause)
          \/ (e = TypeError
              /\ inherited (LocaleRecord.keypath record) = true
              /\ entryOf l (LocaleRecord.keypath record) = None))
  end.
Proof.
  cbv zeta. unfold MachineTranslate. fold (effectiveSource source).
  destruct (MachineTranslateRecord l record (effectiveSource source))
    as [v|e] eqn:E.
  - destruct (MachineTranslateRecord_fulfilled _ _ _ E)
      as (Hne & node & sr & text & H1 & H2 & H3 & H4 & ->).
    split; auto. exists node, sr, text. auto.
  - split; auto.
    destruct (MachineTranslateRecord_rejected _ _ _ E) as [H|[-> H]]; auto.
    right. split; auto. split.
    + unfold readsMember in H. now apply andb_true_iff in H.
    + now apply readsMember_entryOf.
Qed.

(** Every entry of the flatten index stores its records under their own
    locales. *)
Lemma forallb_obj_set {A} (P : string * A -> bool) k v o :
  forallb P o = true -> P (k, v) = true -> forallb P (obj_set k v o) = true.
Proof.
  intros Ho Hv. induction o as [|[k' v'] o IH]; simpl in *.
  - now rewrite Hv.
  - apply andb_true_iff in Ho. destruct Ho as [H1 H2].
    destruct (String.eqb_spec k' k) as [->|Hne]; simpl.
    + now rewrite Hv, H2.
    + now rewrite H1, IH.
Qed.

Lemma flattenIndex_keyed fs : forall tree,
  forallb (fun kn => keyedByLocale (snd kn)) tree = true ->
  forallb (fun kn => keyedByLocale (snd kn))
    (fold_left indexFile fs tree) = true.
Proof.
  induction fs as [|f fs IH]; intros tree H; simpl; auto.
  apply IH. unfold indexFile.
  generalize (Object_keys (ParsedFile.flatten f)) as ks. intros ks.
  revert tree H. induction ks as [|k ks IHk]; intros tree H; simpl; auto.
  apply IHk. rewrite indexKey_eq. apply forallb_obj_set; auto.
  simpl. unfold flattenEntry, keyedByLocale, setLocale. simpl.
  apply forallb_obj_set.
  - destruct (obj_get k tree) as [n|] eqn:E; simpl; auto.
    apply obj_get_In in E. rewrite forallb_forall in H. apply (H _ E).
  - simpl. apply String.eqb_refl.
Qed.

Lemma index_node_keyed l keypath node :
  entryOf (rebuild l) keypath = Some node -> keyedByLocale node = true.
Proof.
  unfold entryOf. rewrite rebuild_flatten. intros H.
  apply obj_get_In in H.
  pose proof (@flattenIndex_keyed (allFiles l) [] eq_refl) as Hk.
  rewrite forallb_forall in Hk. apply (Hk _ H).
Qed.

Lemma shadowRecord_keypath l keypath node locale :
  entryOf (rebuild l) keypath = Some node ->
  LocaleRecord.keypath (shadowRecord (rebuild l) node locale) = keypath.
Proof.
  intros Hn. unfold shadowRecord.
  destruct (obj_get locale (LocaleNode.locales node)) as [r|] eqn:Er.
  - destruct (@flattenIndex_record l keypath locale node r Hn Er)
      as (_ & _ & f & _ & _ & _ & ->). reflexivity.
  - simpl. exact (@rebuild_entry_keypath l keypath node Hn).
Qed.

(** For an entry of the index that stands under its own key path,
    [getShadowLocales] returns. *)
Lemma getShadowLocales_entry l keypath node :
  entryOf l keypath = Some node -> LocaleNode.keypath node = keypath ->
  getShadowLocales l node = Return (shadowLocales l node).
Proof.
  intros E Hkp. rewrite getShadowLocales_run, Hkp.
  replace (readsMember l keypath) with false; [reflexivity|].
  unfold readsMember, obj_has. unfold entryOf in E. rewrite E.
  now rewrite andb_false_r.
Qed.

Lemma entryOf_readsMember l keypath node :
  entryOf l keypath = Some node -> readsMember l keypath = false.
Proof.
  intros E. unfold readsMember, obj_has. unfold entryOf in E. rewrite E.
  now rewrite andb_false_r.
Qed.

Lemma pendings_of_records l source records : forall values,
  map (fun record => MachineTranslateRecord l record source) records
  = map Fulfilled values ->
  map PendingWrite.locale (filter_notEmpty values)
  = map LocaleRecord.locale records
  /\ map PendingWrite.keypath (filter_notEmpty values)
     = map LocaleRecord.keypath records
  /\ map PendingWrite.filepath (filter_notEmpty values)
     = map LocaleRecord.filepath records
  /\ Forall (fun p => exists text, PendingWrite.value p = JStr text)
       (filter_notEmpty values).
Proof.
  induction records as [|r records IH]; intros [|v values] H;
    try discriminate H; simpl.
  - repeat split; constructor.
  - simpl in H. inversion H as [[Hv Hrest]].
    destruct (MachineTranslateRecord_fulfilled _ _ _ Hv)
      as (_ & _ & _ & text & _ & _ & _ & _ & ->).
    destruct (IH _ Hrest) as (H1 & H2 & H3 & H4). simpl.
    rewrite H1, H2, H3. repeat split; auto. constructor; auto.
    exists text. reflexivity.
Qed.

(** X11.  [MachineTranslate] on an entry of the flatten index after a
    rebuild that completes.  When it succeeds it returns one pending write
    for every known locale other than the source language, in the order of
    the known locales, each for the key path of the entry and with a
    translated text; the write of a locale that has a record in the entry
    goes to the file of that record.  When it fails, it fails with an error
    of the loader. *)
Theorem MachineTranslate_of_index_node (l : LocaleLoader) (keypath : string)
  (node : LocaleNode.t) (source : option string) (order : list nat) :
  rebuilt l ->
  getNodeByKey (updated l) keypath = Own node ->
  let src := effectiveSource source in
  match MachineTranslate (updated l) (OfNode node) source order with
  | Fulfilled pendings =>
      map PendingWrite.locale pendings
      = filter (fun locale => negb (String.eqb locale src)) (locales l)
      /\ Forall (fun p => PendingWrite.keypath p = keypath) pendings
      /\ Forall (fun p => exists text, PendingWrite.value p = JStr text)
           pendings
      /\ Forall (fun p =>
                   forall record,
                     obj_get (PendingWrite.locale p) (LocaleNode.locales node)
                     = Some record ->
                     PendingWrite.filepath p = LocaleRecord.filepath record)
           pendings
  | Rejected e => exists type cause, e = AllyError type cause
  end.
Proof.
  intros Hb Hn. rewrite (updated_rebuild Hb) in *.
  apply getNodeByKey_entryOf in Hn.
  cbv zeta. unfold MachineTranslate.
  fold (effectiveSource source). set (src := effectiveSource source).
  pose proof (@rebuild_entry_keypath l keypath node Hn) as Hkp.
  rewrite (@MachineTranslateNode_run (rebuild l) node src order _
             (@getShadowLocales_entry (rebuild l) keypath node Hn Hkp)).
  unfold translationTasks.
  pose proof (@index_node_keyed l keypath node Hn) as Hkeyed.
  match goal with
  | |- context [Promise_all ?tasks order] =>
      pose proof (Promise_all_spec tasks order) as H;
      destruct (Promise_all tasks order) as [values|e]
  end.
  - destruct (pendings_of_records _ _ _ _ H) as (H1 & H2 & H3 & H4).
    rewrite (@translationTargets_eq (rebuild l) node src Hkeyed) in H1, H2, H3.
    rewrite map_map in H1, H2, H3.
    set (ls := filter (fun locale => negb (String.eqb locale src))
                 (locales (rebuild l))) in *.
    assert (E1 : map PendingWrite.locale (filter_notEmpty values) = ls).
    { rewrite H1. rewrite <- (map_id ls) at 2. apply map_ext.
      intros locale. now apply shadowRecord_locale. }
    split; [exact E1|]. split; [|split; [exact H4|]].
    + apply Forall_forall. intros p Hp.
      assert (Hin : In (PendingWrite.keypath p)
                      (map PendingWrite.keypath (filter_notEmpty values))).
      { apply in_map. exact Hp. }
      rewrite H2 in Hin. apply in_map_iff in Hin.
      destruct Hin as (locale & <- & _).
      now apply shadowRecord_keypath.
    + revert E1 H3. generalize (filter_notEmpty values) as ps.
      generalize ls as ls0. clear.
      induction ls0 as [|locale ls0 IH]; intros [|p ps] E1 H3;
        try discriminate E1; constructor.
      * simpl in *. inversion E1 as [[Hl Hrest]]. inversion H3 as [[Hf Hr]].
        intros record Hrec. rewrite Hf. rewrite Hl in Hrec.
        unfold shadowRecord. now rewrite Hrec.
      * simpl in *. inversion E1. inversion H3. apply IH; auto.
  - apply in_map_iff in H. destruct H as (record & H & Hin).
    destruct (MachineTranslateRecord_rejected _ _ _ H) as [Ha|[_ Hm]]; auto.
    exfalso. rewrite (@translationTargets_eq (rebuild l) node src Hkeyed) in Hin.
    apply in_map_iff in Hin. destruct Hin as (locale & <- & _).
    rewrite (@shadowRecord_keypath l keypath node locale Hn) in Hm.
    rewrite (@entryOf_readsMember (rebuild l) keypath node Hn) in Hm. discriminate.
Qed.

(* ================================================================== *)
(** ** Shadow records *)

(** X12.  After a rebuild that completes, asking for the translations of a
    key with shadow records only adds to what is stored: whenever the query
    without shadows returns a mapping, the query with shadows returns one
    too; every stored record is returned as it is, and a returned record is
    flagged as a shadow exactly when the entry stores nothing for its
    locale; every returned record is for its own locale and for the key path
    asked for. *)
Theorem getTranslationsByKey_shadow_only_adds (l : LocaleLoader)
  (keypath locale : string) (stored : Obj LocaleRecord.t) :
  rebuilt l ->
  getTranslationsByKey (updated l) keypath false = Return (Some stored) ->
  exists shown,
    getTranslationsByKey (updated l) keypath true = Return (Some shown)
    /\ (forall record,
          obj_get locale stored = Some record ->
          obj_get locale shown = Some record)
    /\ (forall record,
          obj_get locale shown = Some record ->
          LocaleRecord.shadow record = negb (obj_has locale stored)
          /\ LocaleRecord.locale record = locale
          /\ LocaleRecord.keypath record = keypath).
Proof.
  intros Hb. rewrite (updated_rebuild Hb).
  unfold getTranslationsByKey at 1. rewrite getNodeByKey_run.
  destruct (readsMember (rebuild l) keypath) eqn:Hm; [discriminate|].
  destruct (entryOf (rebuild l) keypath) as [node|] eqn:En; cbn [toRead].
  2:{ intros H. inversion H; subst. exists []. split.
      - unfold getTranslationsByKey. now rewrite getNodeByKey_run, Hm, En.
      - split; intros record Hr; discriminate Hr. }
  intros H. inversion H; subst. clear H.
  pose proof (@rebuild_entry_keypath l keypath node En) as Hkp.
  eexists. split; [apply (@getTranslationsByKey_shadow_run (rebuild l) keypath node En Hkp)|]. split.
  - intros record Hr. rewrite obj_get_map_keys.
    destruct (in_dec string_dec locale (locales (rebuild l))) as [Hin|Hin].
    + unfold shadowRecord. now rewrite Hr.
    + destruct Hin. rewrite locales_rebuild.
      destruct (@flattenIndex_record l keypath locale node record En Hr)
        as (_ & _ & f & Hf & <- & _). now apply locales_In.
  - intros record. rewrite obj_get_map_keys.
    destruct (in_dec string_dec locale (locales (rebuild l))) as [Hin|Hin];
      [|discriminate].
    intros H. inversion H as [Hrec]. clear H.
    split; [|split].
    + unfold shadowRecord, obj_has.
      destruct (obj_get locale (LocaleNode.locales node)) as [r|] eqn:Er;
        [|reflexivity].
      destruct (@flattenIndex_record l keypath locale node r En Er)
        as (_ & _ & f & _ & _ & _ & ->). reflexivity.
    + apply shadowRecord_locale. eapply index_node_keyed; eauto.
    + now apply shadowRecord_keypath.
Qed.

Lemma obj_get_head {A} k (v : A) o : obj_get k ((k, v) :: o) = Some v.
Proof. simpl. now rewrite String.eqb_refl. Qed.

(** X13.  After a rebuild that completes, the file path of a shadow record
    is always resolved, provided that no loaded file has an empty path: for
    a key of the flatten index, [getShadowFilePath] is [replaceLocalePath]
    applied to the path of a loaded file that has the key, and to the path
    of a file of the source language whenever such a file has the key. *)
Theorem getShadowFilePath_resolves (l : LocaleLoader) (keypath locale : string)
  (node : LocaleNode.t) :
  Forall (fun f => ParsedFile.filepath f <> EmptyString) (allFiles l) ->
  rebuilt l ->
  getNodeByKey (updated l) keypath = Own node ->
  exists f,
    In f (allFiles l)
    /\ obj_has keypath (ParsedFile.flatten f) = true
    /\ getShadowFilePath (updated l) keypath locale
       = Return (Some (replaceLocalePath (ParsedFile.filepath f) locale))
    /\ ((exists g, In g (allFiles l) /\ ParsedFile.locale g = sourceLanguage
                   /\ obj_has keypath (ParsedFile.flatten g) = true) ->
        ParsedFile.locale f = sourceLanguage).
Proof.
  intros Hpaths Hb En. rewrite (updated_rebuild Hb) in *.
  apply getNodeByKey_entryOf in En. rewrite Forall_forall in Hpaths.
  assert (Hk : entryOf (rebuild l) keypath <> None) by congruence.
  pose proof (proj1 (@entryOf_rebuild l keypath) Hk) as Hex.
  rewrite getShadowFilePath_run, (@entryOf_readsMember (rebuild l) keypath node En).
  rewrite (@shadowFilePath_inferred (rebuild l) keypath node locale En).
  unfold inferredFilePath, sourceRecordOf.
  assert (Hrec : forall loc r,
             obj_get loc (LocaleNode.locales node) = Some r ->
             exists f, In f (allFiles l) /\ ParsedFile.locale f = loc
                       /\ obj_has keypath (ParsedFile.flatten f) = true
                       /\ option_map (fun fp => replaceLocalePath fp locale)
                            (recordPath r)
                          = Some (replaceLocalePath (ParsedFile.filepath f)
                                    locale)).
  { intros loc r Hr.
    destruct (@flattenIndex_record l keypath loc node r En Hr)
      as (_ & _ & f & Hin & Hloc & Hhas & ->).
    exists f. repeat split; auto. unfold recordPath, resolved. simpl.
    destruct (String.eqb_spec (ParsedFile.filepath f) EmptyString) as [E|E];
      [|reflexivity].
    now destruct (Hpaths f Hin). }
  destruct (obj_get sourceLanguage (LocaleNode.locales node)) as [r|] eqn:Es.
  - destruct (Hrec _ _ Es) as (f & Hin & Hloc & Hhas & Hfp).
    exists f. rewrite Hfp. repeat split; auto.
  - assert (Hne : forall g, In g (allFiles l) ->
                            ParsedFile.locale g = sourceLanguage ->
                            obj_has keypath (ParsedFile.flatten g) = false).
    { unfold entryOf in En. rewrite rebuild_flatten in En.
      pose proof (flattenIndex_get (allFiles l) keypath) as H.
      rewrite En in H. destruct H as (_ & _ & _ & H4).
      pose proof (lastFlatten_spec (allFiles l) sourceLanguage keypath) as Hl.
      rewrite <- H4, Es in Hl. exact Hl. }
    destruct (LocaleNode.locales node) as [|[loc0 r0] rest] eqn:El.
    + exfalso. destruct Hex as (f & Hin & Hhas).
      unfold entryOf in En. rewrite rebuild_flatten in En.
      pose proof (flattenIndex_get (allFiles l) keypath) as H.
      rewrite En in H. destruct H as (_ & _ & _ & H4).
      pose proof (lastFlatten_spec (allFiles l) (ParsedFile.locale f) keypath)
        as Hl.
      rewrite <- H4, El in Hl. simpl in Hl.
      rewrite (Hl f Hin eq_refl) in Hhas. discriminate.
    + simpl.
      destruct (Hrec loc0 r0 (@obj_get_head _ loc0 r0 rest))
        as (f & Hin & Hloc & Hhas & Hfp).
      exists f. rewrite Hfp. repeat split; auto.
      intros (g & Hg & Hgl & Hgk). rewrite (Hne g Hg Hgl) in Hgk.
      discriminate.
Qed.

(* ================================================================== *)
(** ** Lookups in the namespace tree *)










(** A path along which a file without a key [__proto__] has something
    does not lead through [__proto__]. *)
Lemma doc_get_no_proto object p v :
  noProtoKey object = true ->
  doc_get p (JObj KObject object) = Some v -> ~ In "__proto__" p.
Proof.
  intros Ho Hget Hin.
  pose proof (@everyObject_keys (fun key => negb (String.eqb key "__proto__"))
                p (JObj KObject object) v Ho Hget) as H.
  rewrite Forall_forall in H. specialize (H _ Hin). discriminate.
Qed.

(** X16.  Whether a path of the rebuilt tree is a group or an entry does
    not depend on the order of the files (for files whose keys are
    non-empty, without a dot and distinct within a mapping, and none of
    them [__proto__]): the path is a group as soon as one loaded file has a
    nested mapping there, whatever values other files have at the path; and
    it is an entry exactly when no file has a nested mapping there, some
    file has a value, and the last segment of the path is not the name of a
    member of [Object.prototype] (a value under such a name is skipped). *)
Theorem tree_group_hides_entry (l : LocaleLoader) (p : list string) :
  Forall (fun f => plainKeys (ParsedFile.value f) = true
                   /\ noProtoKey (ParsedFile.value f) = true) (allFiles l) ->
  p <> [] ->
  let item := tree_get p (localeTree (updated l)) in
  ((exists kp kn children, item = Some (Tree kp kn children))
   <-> exists f, In f (allFiles l) /\ groupIn f p = true)
  /\ ((exists n, item = Some (Node n))
      <-> (forall f, In f (allFiles l) -> groupIn f p = false)
          /\ (exists f, In f (allFiles l) /\ entryIn f p = true)
          /\ inherited (last p EmptyString) = false).
Proof.
  intros Hfiles Hp. cbv zeta.
  rewrite updated_tree, updateLocalesTree_treeOf.
  assert (Hplain : Forall (fun f => plainKeys (ParsedFile.value f) = true)
                     (allFiles l)).
  { revert Hfiles. apply Forall_impl. intros f [H _]. exact H. }
  assert (Hhas : forall f, In f (allFiles l) ->
                           groupIn f p = true \/ entryIn f p = true ->
                           ~ In "__proto__" p).
  { intros f Hin H. rewrite Forall_forall in Hfiles.
    destruct (Hfiles f Hin) as [_ Hno]. unfold groupIn, entryIn in H.
    destruct (doc_get p (JObj KObject (ParsedFile.value f))) as [v|] eqn:Ed.
    - exact (@doc_get_no_proto (ParsedFile.value f) p v Hno Ed).
    - destruct H; discriminate. }
  assert (Hg : existsb (fun f => groupIn f p) (allFiles l) = false
               <-> forall f, In f (allFiles l) -> groupIn f p = false).
  { split.
    - intros E f Hin. destruct (groupIn f p) eqn:G; auto.
      assert (existsb (fun f => groupIn f p) (allFiles l) = true)
        by (apply existsb_exists; eauto).
      congruence.
    - intros E. destruct (existsb (fun f => groupIn f p) (allFiles l)) eqn:G;
        auto.
      apply existsb_exists in G. destruct G as (f & Hin & G).
      rewrite (E f Hin) in G. discriminate. }
  destruct Hg as [Hg1 Hg2].
  destruct (tree_get p (treeOf (allFiles l))) as [[n|kp kn cs]|] eqn:Et.
  - pose proof (@treeOf_get _ Hplain p Hp (@treeOf_no_proto (allFiles l) p _ Et)) as H.
    rewrite Et in H. destruct H as (H1 & H2 & H3 & _). split.
    + split.
      * intros (a & b & c & E). discriminate.
      * intros (f & Hin & G). rewrite (Hg1 H1 f Hin) in G. discriminate.
    + split; [|eauto]. intros _. split; [now apply Hg1|].
      apply existsb_exists in H2. auto.
  - pose proof (@treeOf_get _ Hplain p Hp (@treeOf_no_proto (allFiles l) p _ Et)) as H.
    rewrite Et in H. split.
    + split; [|eauto]. intros _. apply existsb_exists in H. exact H.
    + split; [intros (n & E); discriminate|].
      intros (Hno & _). apply Hg2 in Hno. congruence.
  - split.
    + split; [intros (a & b & c & E); discriminate|].
      intros (f & Hin & G).
      pose proof (@treeOf_get _ Hplain p Hp (Hhas f Hin (or_introl G))) as H.
      rewrite Et in H. destruct H as [H1 _].
      rewrite (Hg1 H1 f Hin) in G. discriminate.
    + split; [intros (n & E); discriminate|].
      intros (_ & (f & Hin & G) & Hlast).
      pose proof (@treeOf_get _ Hplain p Hp (Hhas f Hin (or_intror G))) as H.
      rewrite Et in H. destruct H as [_ [H|H]]; [|congruence].
      assert (existsb (fun f => entryIn f p) (allFiles l) = true)
        by (apply existsb_exists; eauto).
      congruence.
Qed.

(* ================================================================== *)
(** ** Writing several items *)

Lemma writeAll_app ps1 : forall ps2 w,
  writeAll (ps1 ++ ps2) w = (writeAll ps1 ;;; writeAll ps2) w.
Proof.
  induction ps1 as [|p ps1 IH]; intros ps2 w; simpl.
  - reflexivity.
  - unfold bind.
    destruct (writeToSingleFile p w) as [[[]|e] w1]; [|reflexivity].
    rewrite IH. reflexivity.
Qed.

Lemma filter_notEmpty_app {A} (l1 l2 : list (option A)) :
  filter_notEmpty (l1 ++ l2) = (filter_notEmpty l1 ++ filter_notEmpty l2)%list.
Proof.
  induction l1 as [|[a|] l1 IH]; simpl; auto. now rewrite IH.
Qed.

(** X17.  [writeToFile] writes its items one after the other with
    [writeToSingleFile]: an item alone is written as [writeToSingleFile]
    writes it, items that are missing are skipped, nothing at all is a
    successful write that changes nothing, and writing a list is writing a
    first part of it and then the rest. *)
Theorem writeToFile_writes_in_sequence (w : World) :
  writeToFile (One None) w = (Fulfilled tt, w)
  /\ writeToFile (Many []) w = (Fulfilled tt, w)
  /\ (forall pending,
        writeToFile (One (Some pending)) w = writeToSingleFile pending w)
  /\ (forall pendings,
        writeToFile (Many pendings) w
        = writeToFile (Many (map Some (filter_notEmpty pendings))) w)
  /\ (forall first rest,
        writeToFile (Many (first ++ rest)) w
        = (writeToFile (Many first) ;;; writeToFile (Many rest)) w).
Proof.
  unfold writeToFile. repeat split.
  - intros pending. simpl. unfold bind, ret.
    destruct (writeToSingleFile pending w) as [[[]|e] w1]; reflexivity.
  - intros pendings. now rewrite filter_notEmpty_Some.
  - intros first rest. rewrite filter_notEmpty_app. apply writeAll_app.
Qed.

(** X18.  [writeToFile] is not atomic and stops at the first failure: when
    the items before a failing one are written, the call is rejected with
    the error of the failing item, the items before it stay written on the
    disk, and no item after it is written. *)
Theorem writeToFile_stops_at_first_failure (before after : list PendingWrite.t)
  (pending : PendingWrite.t) (w w1 : World) (e : Thrown) :
  writeToFile (Many (map Some before)) w = (Fulfilled tt, w1) ->
  fst (writeToSingleFile pending w1) = Rejected e ->
  writeToFile (Many (map Some (before ++ pending :: after))) w
  = (Rejected e, w1).
Proof.
  unfold writeToFile. rewrite !filter_notEmpty_Some. intros Hb Hp.
  rewrite writeAll_app. unfold bind at 1. rewrite Hb. simpl.
  unfold bind. revert Hp. rewrite writeToSingleFile_run.
  destruct (targetPath (loader w1) pending) as [fp|].
  - destruct (existingDocument w1 fp) as [original|]; simpl;
      [|intros H; congruence].
    unfold writeFile. destruct (writeError fp); simpl; intros H;
      [congruence | discriminate].
  - simpl. congruence.
Qed.

(** X19.  A file whose document is no mapping and no array (a number, a
    string, a boolean or [null]) swallows the write: [set] leaves such a
    document as it is, so [writeToSingleFile] does what writing back the
    document it read does, and the value of the pending write is not
    stored: when the host takes the write, it succeeds and the file holds
    the text of the document that was read. *)
Theorem writeToSingleFile_into_scalar_document (w : World)
  (pending : PendingWrite.t) (filepath : string) (original : json) :
  targetPath (loader w) pending = Some filepath ->
  existingDocument w filepath = Some original ->
  isObject original = false ->
  writeToSingleFile pending w
  = writeFile filepath (JSON_stringify original ++ newline) w
  /\ (writeError filepath = None ->
      writeToSingleFile pending w
      = (Fulfilled tt,
         mkWorld (loader w)
           (obj_set filepath (JSON_stringify original ++ newline) (disk w)))).
Proof.
  intros Ht Hd Hs. rewrite writeToSingleFile_run, Ht, Hd.
  assert (E : lodash_set original (PendingWrite.keypath pending)
                (PendingWrite.value pending) = original).
  { destruct original; try reflexivity. discriminate. }
  rewrite E. split; [reflexivity|]. intros Hw. now apply writeFile_taken.
Qed.

(* ================================================================== *)
(** ** Writing and loading again *)

Lemma plainValue_make k props :
  NoDup (Object_keys props) -> Forall plain_key (Object_keys props) ->
  Forall (fun kv => plainValue (snd kv) = true) props ->
  plainValue (JObj k props) = true.
Proof.
  intros Hd Hp Hall. unfold plainValue. rewrite everyObject_obj, !andb_true_iff.
  split; [split|].
  - now apply distinct_NoDup.
  - apply forallb_forall. intros x Hx. apply plain_keyb_spec.
    rewrite Forall_forall in Hp. now apply Hp.
  - apply forallb_forall. rewrite Forall_forall in Hall. exact Hall.
Qed.

Lemma plainValue_set k key x props :
  plainValue (JObj k props) = true -> plain_key key -> plainValue x = true ->
  plainValue (JObj k (obj_set key x props)) = true.
Proof.
  intros H Hkey Hx. apply plainValue_obj in H. destruct H as (Hd & Hp & Hall).
  apply plainValue_make.
  - now apply NoDup_keys_set.
  - rewrite Object_keys_set. destruct (obj_has key props); auto.
    apply Forall_app. split; auto.
  - apply Forall_obj_set; auto.
Qed.

(** [set] keeps the keys of a document plain. *)
Lemma baseSet_from_plain value path : forall k nested,
  plainValue (JObj k nested) = true -> Forall plain_key path ->
  plainValue value = true ->
  plainValue (JObj k (baseSet_from path value nested)) = true.
Proof.
  induction path as [|key rest IH]; intros k nested Hn Hp Hv; [exact Hn|].
  rewrite baseSet_from_cons. destruct (unsafe_key key); [exact Hn|].
  inversion Hp as [|? ? Hkey Hrest]; subst.
  destruct rest as [|next rest'].
  - now apply plainValue_set.
  - destruct (_ && _); [exact Hn|].
    apply plainValue_set; auto.
    destruct (obj_get key nested) as [[| | | |k' inner]|] eqn:E;
      try (apply IH; auto; reflexivity).
    apply IH; auto. eapply plainValue_member; eauto.
Qed.

(** A value without an empty mapping or array inside. *)
Lemma noEmpty_value_obj k props :
  everyObject (fun _ ps => match ps with [] => false | _ => true end)
    (JObj k props)
  = match props with [] => false | _ => true end && noEmptyObjects props.
Proof. now rewrite everyObject_obj. Qed.

Lemma obj_set_nonempty {A} k (v : A) o : obj_set k v o <> [].
Proof.
  destruct o as [|[k' v'] o]; simpl; [discriminate|].
  destruct (String.eqb k' k); discriminate.
Qed.

(** [set] of a value that is no mapping creates no empty mapping. *)
Lemma baseSet_from_noEmpty value path : forall nested,
  noEmptyObjects nested = true -> path <> [] ->
  forallb (fun key => negb (unsafe_key key)) path = true ->
  ordinaryWay path = true ->
  isObject value = false ->
  noEmptyObjects (baseSet_from path value nested) = true
  /\ baseSet_from path value nested <> [].
Proof.
  induction path as [|key rest IH]; intros nested Hn Hne Hsafe Hway Hv;
    [congruence|].
  simpl in Hsafe. apply andb_true_iff in Hsafe. destruct Hsafe as [Hkey Hrest].
  apply negb_true_iff in Hkey. rewrite baseSet_from_cons, Hkey.
  destruct rest as [|next rest'].
  - split; [|apply obj_set_nonempty].
    apply forallb_obj_set; auto. simpl. destruct value; auto. discriminate.
  - apply ordinaryWay_cons in Hway. destruct Hway as [Hi Hway].
    rewrite Hi. cbn [andb].
    split; [|destruct (obj_get key nested) as [[| | | |k' inner]|];
              apply obj_set_nonempty].
    assert (Hfresh : forall k0,
               everyObject (fun _ ps => match ps with [] => false | _ => true end)
                 (JObj k0 (baseSet_from (next :: rest') value [])) = true).
    { intros k0. rewrite noEmpty_value_obj.
      destruct (IH [] eq_refl ltac:(discriminate) Hrest Hway Hv) as [H1 H2].
      rewrite H1. destruct (baseSet_from (next :: rest') value []);
        [congruence | reflexivity]. }
    destruct (obj_get key nested) as [[| | | |k' inner]|] eqn:E;
      apply forallb_obj_set; auto; try apply Hfresh.
    cbn [snd]. rewrite noEmpty_value_obj.
    assert (Hin : noEmptyObjects inner = true).
    { apply obj_get_In in E. unfold noEmptyObjects in Hn.
      rewrite forallb_forall in Hn. specialize (Hn _ E). cbn [snd] in Hn.
      rewrite noEmpty_value_obj in Hn. apply andb_true_iff in Hn. apply Hn. }
    destruct (IH inner Hin ltac:(discriminate) Hrest Hway Hv) as [H1 H2].
    rewrite H1. destruct (baseSet_from (next :: rest') value inner);
      [congruence | reflexivity].
Qed.

Lemma castPath_plain p props :
  p <> [] -> Forall plain_key p -> Forall plain_key (Object_keys props) ->
  castPath (join_dot p) props = p.
Proof.
  intros Hp Hpl Hkeys. unfold castPath.
  pose proof (split_join Hp (plain_dot_free Hpl)) as Hs.
  destruct (has_dot (join_dot p)) eqn:Hdot; simpl.
  - destruct (obj_has (join_dot p) props) eqn:Hhas; [|exact Hs].
    apply obj_has_true in Hhas. rewrite Forall_forall in Hkeys.
    destruct (Hkeys _ Hhas) as [_ H]. congruence.
  - rewrite <- Hs at 2. symmetry. now apply split_dot_plain.
Qed.

(** X20.  What is written is read back.  Take a document that is a mapping
    with plain keys (non-empty, without a dot, distinct within a mapping) and
    without empty nested mappings, a key path of non-empty segments none of
    which [set] refuses and none of which, but possibly the last, is the
    name of a member of [Object.prototype], and a value that is no mapping;
    assume that the host takes the write and that [JSON.parse] reads back
    the text written for the new document.  Then after [writeToSingleFile]
    and a [loadFile] of the target, the file store holds the file with the
    written document, and its flattened form maps the key path of the
    pending write to the written value. *)
Theorem write_then_load_reads_back (w : World) (pending : PendingWrite.t)
  (filepath : string) (k : kind) (props : list (string * json))
  (p : list string) :
  targetPath (loader w) pending = Some filepath ->
  existingDocument w filepath = Some (JObj k props) ->
  writeError filepath = None ->
  plainKeys props = true -> noEmptyObjects props = true ->
  PendingWrite.keypath pending = join_dot p ->
  p <> [] -> Forall plain_key p ->
  forallb (fun key => negb (unsafe_key key)) p = true ->
  ordinaryWay p = true ->
  isObject (PendingWrite.value pending) = false ->
  let written := baseSet_from p (PendingWrite.value pending) props in
  JSON_parse (JSON_stringify (JObj k written) ++ newline)
  = Some (JObj k written) ->
  let w1 := snd (writeToSingleFile pending w) in
  let w2 := snd (loadFile filepath w1) in
  fst (writeToSingleFile pending w) = Fulfilled tt
  /\ exists f,
       obj_get filepath (files (loader w2)) = Some f
       /\ ParsedFile.value f = written
       /\ obj_get (PendingWrite.keypath pending) (ParsedFile.flatten f)
          = Some (PendingWrite.value pending).
Proof.
  intros Ht Hd Hw Hplain Hnoempty Hkp Hp Hpl Hsafe Hway Hv. cbv zeta.
  intros Hparse.
  assert (Hkeys : Forall plain_key (Object_keys props)).
  { apply (@plainValue_obj KObject props Hplain). }
  rewrite writeToSingleFile_run, Ht, Hd, (writeFile_taken _ _ Hw).
  cbn [fst snd].
  split; [reflexivity|].
  unfold lodash_set. rewrite Hkp, (castPath_plain props Hp Hpl Hkeys).
  rewrite loadFile_run. cbn [snd loader files].
  unfold readDocument. cbn [disk]. rewrite obj_get_set_eq, Hparse.
  cbn [own_props]. rewrite obj_get_set_eq. eexists. split; [reflexivity|].
  split; [reflexivity|].
  set (written := baseSet_from p (PendingWrite.value pending) props).
  set (f := ParsedFile.mk filepath (fst (getFileInfo filepath)) written
              (snd (getFileInfo filepath)) (flat written)).
  assert (H1 : plainKeys (ParsedFile.value f) = true).
  { apply (@baseSet_from_plain (PendingWrite.value pending) p KObject props);
      auto.
    unfold plainValue. destruct (PendingWrite.value pending); auto.
    discriminate. }
  assert (H2 : noEmptyObjects (ParsedFile.value f) = true).
  { now apply baseSet_from_noEmpty. }
  rewrite (@flatten_at_path f p eq_refl H1 H2 Hp Hpl). cbn [ParsedFile.value f].
  unfold written. rewrite baseSet_from_get; auto. now rewrite Hv.
Qed.

(** *** The document a write leaves *)

Lemma everyObject_set P k key x props :
  everyObject P (JObj k props) = true -> everyObject P x = true ->
  P k (obj_set key x props) = true ->
  everyObject P (JObj k (obj_set key x props)) = true.
Proof.
  rewrite !everyObject_obj, !andb_true_iff. intros [_ Hall] Hx HP.
  split; auto. apply forallb_obj_set; auto.
Qed.

(** [set] on a document without arrays, along a path without an array
    index, creates no array. *)
Lemma baseSet_from_noArrays value path : forall k nested,
  noIndex path = true ->
  noArraysValue (JObj k nested) = true -> noArraysValue value = true ->
  noArraysValue (JObj k (baseSet_from path value nested)) = true.
Proof.
  unfold noArraysValue.
  induction path as [|key rest IH]; intros k nested Hidx Hn Hv; [exact Hn|].
  rewrite baseSet_from_cons. destruct (unsafe_key key); [exact Hn|].
  assert (Hk : match k with KObject => true | KArray => false end = true).
  { rewrite everyObject_obj in Hn. now apply andb_true_iff in Hn. }
  unfold noIndex in Hidx. cbn [forallb] in Hidx.
  apply andb_true_iff in Hidx. destruct Hidx as [_ Hrest].
  destruct rest as [|next rest'].
  - now apply everyObject_set.
  - destruct (_ && _); [exact Hn|].
    apply everyObject_set; auto.
    assert (Hnext : isIndex next = false).
    { cbn [forallb] in Hrest. apply andb_true_iff in Hrest.
      destruct Hrest as [H _]. now apply negb_true_iff in H. }
    rewrite Hnext.
    destruct (obj_get key nested) as [[| | | |k' inner]|] eqn:E;
      try (apply IH; auto; reflexivity).
    apply IH; auto. apply obj_get_In in E.
    rewrite everyObject_obj, andb_true_iff, forallb_forall in Hn.
    destruct Hn as [_ Hn]. apply (Hn _ E).
Qed.

Lemma exactNumbers_obj k props :
  exactNumbers (JObj k props)
  = forallb (fun kv => exactNumbers (snd kv)) props.
Proof.
  unfold exactNumbers at 1.
  induction props as [|[key x] props IH]; [reflexivity|].
  cbn [forallb snd]. rewrite <- IH. reflexivity.
Qed.

(** [set] of a value with exact numbers keeps the numbers of a document
    exact. *)
Lemma baseSet_from_exact value path : forall k nested,
  exactNumbers (JObj k nested) = true -> exactNumbers value = true ->
  exactNumbers (JObj k (baseSet_from path value nested)) = true.
Proof.
  induction path as [|key rest IH]; intros k nested Hn Hv; [exact Hn|].
  rewrite baseSet_from_cons. destruct (unsafe_key key); [exact Hn|].
  pose proof Hn as Hall. rewrite exactNumbers_obj in Hall.
  destruct rest as [|next rest'].
  - rewrite exactNumbers_obj. now apply forallb_obj_set.
  - destruct (_ && _); [exact Hn|].
    rewrite exactNumbers_obj. apply forallb_obj_set; auto. cbn [snd].
    destruct (obj_get key nested) as [[| | | |k' inner]|] eqn:E;
      try (apply IH; auto; reflexivity).
    apply IH; auto. apply obj_get_In in E.
    rewrite forallb_forall in Hall. apply (Hall _ E).
Qed.

(** C3, amended.  A pending write whose file path resolves, into a file that
    is absent or holds a document of nested mappings, is fulfilled when the
    host takes the write, and leaves in the file the text of the document
    obtained by [set]: two-space indented, members in the order of the
    keys, ending in a newline.  For a key path without bracket notation,
    without a key lodash refuses and without an array index, that document
    maps the path to the new value; it maps every path of the original
    document that neither leads through the written path nor lies on the way
    to it to its original value; the keys of the document keep their order,
    a new key coming last; and the document is again one of nested mappings.
    (No segment before the last is the name of a member of
    [Object.prototype], and the numbers of the document are integers that a
    double holds exactly; what a write does otherwise is left out.) *)
Theorem writeToSingleFile_sets_key (w : World) (pending : PendingWrite.t)
  (filepath : string) (props : list (string * json)) :
  targetPath (loader w) pending = Some filepath ->
  existingDocument w filepath = Some (JObj KObject props) ->
  writeError filepath = None ->
  noArrays props = true ->
  noArraysValue (PendingWrite.value pending) = true ->
  exactNumbers (JObj KObject props) = true ->
  exactNumbers (PendingWrite.value pending) = true ->
  has_bracket (PendingWrite.keypath pending) = false ->
  forallb (fun key => negb (unsafe_key key))
    (castPath (PendingWrite.keypath pending) props) = true ->
  noIndex (castPath (PendingWrite.keypath pending) props) = true ->
  ordinaryWay (castPath (PendingWrite.keypath pending) props) = true ->
  let path := castPath (PendingWrite.keypath pending) props in
  let document :=
    lodash_set (JObj KObject props) (PendingWrite.keypath pending)
      (PendingWrite.value pending) in
  fst (writeToSingleFile pending w) = Fulfilled tt
  /\ obj_get filepath (disk (snd (writeToSingleFile pending w)))
     = Some (JSON_stringify document ++ newline)
  /\ doc_get path document = Some (PendingWrite.value pending)
  /\ (forall q,
        incomparable q path = true ->
        doc_get q document = doc_get q (JObj KObject props))
  /\ (exists members,
        document = JObj KObject members
        /\ Object_keys members
           = if obj_has (hd EmptyString path) props then Object_keys props
             else (Object_keys props ++ [hd EmptyString path])%list)
  /\ (forall member members,
        document = JObj KObject (member :: members) ->
        JSON_stringify document
        = "{" ++ newline ++ "  "
          ++ String.concat ("," ++ newline ++ "  ")
               (map (fun kv => quote (fst kv) ++ ": " ++ stringify "  " (snd kv))
                  (member :: members))
          ++ newline ++ "}")
  /\ noArraysValue document = true
  /\ exactNumbers document = true.
Proof.
  intros Ht Hd Hw Hna Hva Hex Hvex Hb Hsafe Hidx Hway. cbv zeta.
  rewrite writeToSingleFile_run, Ht, Hd, (writeFile_taken _ _ Hw).
  cbn [fst snd disk lodash_set].
  split; [reflexivity|]. split; [apply obj_get_set_eq|].
  split; [apply baseSet_from_get; auto using castPath_nonempty|].
  split; [intros q Hq; now apply baseSet_from_frame|].
  split; [|split; [|split]].
  - eexists. split; [reflexivity|]. rewrite (@baseSet_from_keys (PendingWrite.value pending) _ props Hway).
    pose proof (castPath_nonempty (PendingWrite.keypath pending) props) as Hne.
    destruct (castPath (PendingWrite.keypath pending) props) as [|key rest];
      [congruence|].
    simpl in Hsafe. apply andb_true_iff in Hsafe. destruct Hsafe as [Hkey _].
    apply negb_true_iff in Hkey. now rewrite Hkey.
  - intros member members ->. apply JSON_stringify_object.
  - now apply baseSet_from_noArrays.
  - now apply baseSet_from_exact.
Qed.

(* ================================================================== *)
(** ** The key paths of the items of the tree *)

(** X21.  After a rebuild every item of the namespace tree carries the key
    path under which it is found: a group reached along a path of segments
    has the key path built from these segments and the key name derived from
    it, an entry has that key path too, and every record of the entry
    carries the key path, the last segment as key name and the locale it is
    stored under; it has a file path and is no shadow. *)
Theorem tree_items_carry_their_key_path (l : LocaleLoader) (p : list string)
  (item : TreeItem) :
  tree_get p (localeTree (updated l)) = Some item ->
  match item with
  | Tree kp kn _ => kp = pathKey EmptyString p /\ kn = getKeyname kp
  | Node n =>
      LocaleNode.keypath n = pathKey EmptyString p
      /\ forall locale record,
           obj_get locale (LocaleNode.locales n) = Some record ->
           LocaleRecord.keypath record = pathKey EmptyString p
           /\ LocaleRecord.keyname record = last p EmptyString
           /\ LocaleRecord.locale record = locale
           /\ LocaleRecord.shadow record = false
           /\ LocaleRecord.filepath record <> None
  end.
Proof.
  rewrite updated_tree, updateLocalesTree_treeOf. intros Hget.
  pose proof (@keyedAt_get p EmptyString EmptyString (treeOf (allFiles l)) item
                (treeOf_keyed (allFiles l)) Hget) as H.
  destruct item as [n|kp kn cs].
  - cbn [keyedAt] in H. destruct H as (H1 & _ & H3). split; auto.
    intros locale record Hr. apply obj_get_In in Hr.
    rewrite Forall_forall in H3. apply (H3 _ Hr).
  - apply keyedAt_Tree in H. destruct H as (H1 & H2 & _). subst. auto.
Qed.

(* ================================================================== *)
(** ** Asking for a file path *)

(** X22.  [requestMissingFilepath] never fails and changes nothing.  The
    candidates are the paths of the loaded files of the locale.  When there
    is exactly one, it is the answer and the user is not asked; the user is
    asked to enter a path exactly when the locale is unknown (no loaded file
    has it), and to pick one of the candidates when there are several; a
    cancelled prompt gives no path. *)
Theorem requestMissingFilepath_asks_when_needed (locale keypath : string)
  (w : World) :
  let paths := getFilepathsOfLocale (loader w) locale in
  let answer := fst (requestMissingFilepath locale keypath w) in
  snd (requestMissingFilepath locale keypath w) = w
  /\ (forall p,
        In p paths
        <-> exists f, In f (allFiles (loader w))
                      /\ ParsedFile.locale f = locale
                      /\ ParsedFile.filepath f = p)
  /\ (forall p, paths = [p] -> answer = Fulfilled (Some p))
  /\ (paths = [] <-> ~ In locale (locales (loader w)))
  /\ (paths = [] -> answer = Fulfilled (showInputBox keypath locale))
  /\ (2 <= length paths -> answer = Fulfilled (showQuickPick paths keypath)).
Proof.
  cbv zeta. rewrite requestMissingFilepath_run. cbn [fst snd].
  assert (Hin : forall p,
             In p (getFilepathsOfLocale (loader w) locale)
             <-> exists f, In f (allFiles (loader w))
                           /\ ParsedFile.locale f = locale
                           /\ ParsedFile.filepath f = p).
  { intros p. unfold getFilepathsOfLocale, allFiles.
    rewrite in_map_iff. split.
    - intros (f & <- & Hf). apply filter_In in Hf. destruct Hf as [Hf E].
      apply String.eqb_eq in E. eauto.
    - intros (f & Hf & E & <-). exists f. split; auto. apply filter_In.
      split; auto. now apply String.eqb_eq. }
  split; [reflexivity|]. split; [exact Hin|]. split; [|split; [|split]].
  - intros p ->. reflexivity.
  - split.
    + intros E Hloc.
      apply locales_member in Hloc. destruct Hloc as (f & Hf & Hl).
      assert (H : In (ParsedFile.filepath f)
                    (getFilepathsOfLocale (loader w) locale)).
      { apply Hin. eauto. }
      rewrite E in H. destruct H.
    + intros Hloc.
      destruct (getFilepathsOfLocale (loader w) locale) as [|p ps] eqn:E; auto.
      exfalso. apply Hloc.
      destruct (proj1 (Hin p) (or_introl eq_refl)) as (f & Hf & <- & _).
      now apply locales_In.
  - intros ->. reflexivity.
  - intros H.
    destruct (getFilepathsOfLocale (loader w) locale) as [|p [|q ps]];
      simpl in H; try reflexivity; arith.
Qed.

(* ================================================================== *)
(* ================================================================== *)
(** ** The directory scan *)

Lemma loadedOnly_refl paths w : loadedOnly paths w w.
Proof. repeat split. Qed.

Lemma loadedOnly_trans ps1 ps2 w w1 w2 :
  loadedOnly ps1 w w1 -> loadedOnly ps2 w1 w2 ->
  loadedOnly (ps1 ++ ps2) w w2.
Proof.
  intros (A1 & A2 & A3 & A4) (B1 & B2 & B3 & B4).
  split; [congruence|]. split; [congruence|]. split; [congruence|].
  intros other Hother. rewrite B4, A4; auto.
  - intros H. apply Hother. apply in_or_app. auto.
  - intros H. apply Hother. apply in_or_app. auto.
Qed.

Lemma loadFile_loadedOnly filepath w :
  fst (loadFile filepath w) = Fulfilled tt
  /\ loadedOnly [filepath] w (snd (loadFile filepath w)).
Proof.
  rewrite loadFile_run. cbn [fst snd]. split; [reflexivity|].
  repeat split. intros other Hother. cbn [loader files].
  assert (Hne : filepath <> other).
  { intros ->. apply Hother. simpl. auto. }
  destruct (readDocument w filepath).
  - now apply obj_get_set_neq.
  - now apply obj_get_delete_neq.
Qed.

Lemma loadFiles_loadedOnly paths : forall w,
  fst (loadFiles paths w) = Fulfilled tt
  /\ loadedOnly paths w (snd (loadFiles paths w)).
Proof.
  induction paths as [|p paths IH]; intros w; simpl.
  - split; [reflexivity | apply loadedOnly_refl].
  - unfold bind. destruct (loadFile_loadedOnly p w) as [H1 H2].
    destruct (loadFile p w) as [[[]|e] w1]; [|discriminate H1].
    cbn [snd] in H2. destruct (IH w1) as [H3 H4]. split; auto.
    apply (loadedOnly_trans H2 H4).
Qed.

(** The paths one entry of a scanned directory may load. *)
Lemma loadDirectory_entry_loadedOnly rootPath filename w :
  loadedOnly
    (if String.prefix "_" filename then []
     else
       match isDirectory (resolve rootPath filename) with
       | inl false =>
           if String.eqb (extname (resolve rootPath filename)) ".json"
           then [resolve rootPath filename] else []
       | inl true =>
           match readdir (resolve rootPath filename) with
           | inl children => map (resolve (resolve rootPath filename)) children
           | inr _ => []
           end
       | inr _ => []
       end)
    w (snd (loadDirectory_entry rootPath filename w))
  /\ (forall e, fst (loadDirectory_entry rootPath filename w) = Rejected e ->
                exists msg, e = HostError msg).
Proof.
  unfold loadDirectory_entry.
  destruct (String.prefix "_" filename).
  { split; [apply loadedOnly_refl | discriminate]. }
  cbv zeta. unfold bind, await.
  destruct (isDirectory (resolve rootPath filename)) as [[|]|e0];
    cbn [negb andb]; cbv beta iota.
  - destruct (readdir (resolve rootPath filename)) as [children|e1];
      cbv beta iota.
    + destruct (loadFiles_loadedOnly
                  (map (resolve (resolve rootPath filename)) children) w)
        as [H1 H2].
      split; auto. intros e He. rewrite H1 in He. discriminate.
    + split; [apply loadedOnly_refl|]. intros e He. inversion He. eauto.
  - destruct (String.eqb (extname (resolve rootPath filename)) ".json");
      cbn [negb andb]; cbv beta iota.
    + destruct (loadFile_loadedOnly (resolve rootPath filename) w) as [H1 H2].
      split; auto. intros e He. rewrite H1 in He. discriminate.
    + split; [apply loadedOnly_refl | discriminate].
  - split; [apply loadedOnly_refl|]. intros e He. inversion He. eauto.
Qed.

Lemma loadedOnly_incl ps qs w w' :
  incl ps qs -> loadedOnly ps w w' -> loadedOnly qs w w'.
Proof.
  intros Hincl (H1 & H2 & H3 & H4).
  split; [exact H1|]. split; [exact H2|]. split; [exact H3|].
  intros other Hother. apply H4. intros H. apply Hother. now apply Hincl.
Qed.

Lemma loadDirectory_entries_loadedOnly rootPath paths : forall w,
  loadedOnly
    (flat_map
       (fun filename =>
          if String.prefix "_" filename then []
          else
            match isDirectory (resolve rootPath filename) with
            | inl false =>
                if String.eqb (extname (resolve rootPath filename)) ".json"
                then [resolve rootPath filename] else []
            | inl true =>
                match readdir (resolve rootPath filename) with
                | inl children =>
                    map (resolve (resolve rootPath filename)) children
                | inr _ => []
                end
            | inr _ => []
            end)
       paths)
    w (snd (loadDirectory_entries rootPath paths w))
  /\ (forall e, fst (loadDirectory_entries rootPath paths w) = Rejected e ->
                exists msg, e = HostError msg).
Proof.
  induction paths as [|filename paths IH]; intros w; cbn [loadDirectory_entries flat_map].
  - split; [apply loadedOnly_refl | discriminate].
  - unfold bind.
    destruct (loadDirectory_entry_loadedOnly rootPath filename w) as [H1 H2].
    destruct (loadDirectory_entry rootPath filename w) as [[[]|e0] w1];
      cbn [fst snd] in *.
    + destruct (IH w1) as [H3 H4]. split; auto.
      apply (loadedOnly_trans H1 H3).
    + split; [|intros e He; apply H2; exact He].
      eapply loadedOnly_incl; [|exact H1]. apply incl_appl, incl_refl.
Qed.


(** X23.  A scan of a directory only loads: it leaves the disk, the
    namespace tree and the flatten index as they are, and it changes the
    entry of no path of the file store but those of its candidates, the
    [.json] files of the directory and all the files of its sub-directories,
    leaving aside every entry whose name starts with an underscore.  It
    fails only with an exception of the host (a directory that cannot be
    listed, an entry that cannot be inspected), never for a file that cannot
    be read or parsed; a root that cannot be listed changes nothing. *)
Theorem loadDirectory_loads_only_candidates (rootPath : string) (w : World) :
  let result := fst (loadDirectory rootPath w) in
  let w' := snd (loadDirectory rootPath w) in
  loadedOnly (scanCandidates rootPath) w w'
  /\ (forall e, result = Rejected e -> exists msg, e = HostError msg)
  /\ (forall e, readdir rootPath = inr e ->
                result = Rejected (HostError e) /\ w' = w).
Proof.
  cbv zeta. unfold loadDirectory, scanCandidates, bind, await.
  destruct (readdir rootPath) as [paths|e0].
  - destruct (loadDirectory_entries_loadedOnly rootPath paths w) as [H1 H2].
    split; auto. split; auto. discriminate.
  - cbn [fst snd]. split; [apply loadedOnly_refl|]. split.
    + intros e He. inversion He. eauto.
    + intros e He. inversion He. auto.
Qed.



(* ================================================================== *)
(** ** Loading again, and creating and deleting *)

Lemma obj_delete_idem {A} k (o : Obj A) :
  obj_delete k (obj_delete k o) = obj_delete k o.
Proof.
  induction o as [|[k' v'] o IH]; simpl; auto.
  destruct (String.eqb k' k) eqn:E; simpl; auto. now rewrite E, IH.
Qed.

Lemma obj_delete_set {A} k (v : A) o :
  obj_delete k (obj_set k v o) = obj_delete k o.
Proof.
  induction o as [|[k' v'] o IH]; simpl.
  - now rewrite String.eqb_refl.
  - destruct (String.eqb k' k) eqn:E; simpl; rewrite E; auto. now rewrite IH.
Qed.

Lemma obj_delete_absent {A} k (o : Obj A) :
  obj_has k o = false -> obj_delete k o = o.
Proof.
  unfold obj_has. induction o as [|[k' v'] o IH]; simpl; auto.
  destruct (String.eqb k' k); [discriminate|]. intros H. now rewrite IH.
Qed.

(** A file store with one more file at a new path is indexable only when
    the store without it is. *)
Lemma indexable_set filepath (f : ParsedFile.t) (fs : Obj ParsedFile.t) :
  obj_has filepath fs = false ->
  indexable (Object_values (obj_set filepath f fs)) = true ->
  indexable (Object_values fs) = true.
Proof.
  unfold obj_has, indexable, Object_values.
  induction fs as [|[k g] fs IH]; cbn [obj_get obj_set map forallb]; auto.
  destruct (String.eqb k filepath); [discriminate|].
  cbn [map forallb snd]. intros Hnew H. apply andb_true_iff in H.
  destruct H as [H1 H2]. rewrite H1. now apply IH.
Qed.

(** The loader a rebuild leaves, by the file store it starts from. *)
Lemma updated_run l :
  updated l
  = mkLoader (files l)
      (if indexable (allFiles l) then fold_left indexFile (allFiles l) []
       else flattenLocaleTree l)
      (updateLocalesTree l).
Proof.
  unfold updated. rewrite update_run.
  destruct (indexable (allFiles l)); reflexivity.
Qed.

(** X25.  Loading a file again while the disk is as it was changes
    nothing: [loadFile] of a path, run a second time, leaves the world the
    first run has left. *)
Theorem loadFile_idempotent (filepath : string) (w : World) :
  loadFile filepath (snd (loadFile filepath w)) = loadFile filepath w.
Proof.
  rewrite !loadFile_run. cbn [snd loader disk files flattenLocaleTree localeTree].
  assert (E : forall fs a b,
             readDocument (mkWorld (mkLoader fs a b) (disk w)) filepath
             = readDocument w filepath) by reflexivity.
  rewrite E. destruct (readDocument w filepath).
  - now rewrite obj_set_idem.
  - now rewrite obj_delete_idem.
Qed.

(** X26.  Creating a file and deleting it again gives the state of a plain
    rebuild: after a creation event and a deletion event on a [.json] path
    that was not loaded before, the file store is what it was, the loader is
    the one a rebuild of the original loader leaves, whatever the file held
    and whether the rebuilds succeed or not, and the disk is untouched. *)
Theorem updateFile_create_then_delete (fsPath : string) (w : World) :
  let filepath := resolve cwd fsPath in
  extname filepath = ".json" ->
  obj_has filepath (files (loader w)) = false ->
  let w1 := snd (updateFile Create fsPath w) in
  let w2 := snd (updateFile Del fsPath w1) in
  files (loader w2) = files (loader w)
  /\ loader w2 = updated (loader w)
  /\ disk w2 = disk w.
Proof.
  intros filepath E Hnew. cbv zeta. subst filepath.
  rewrite (@updateFile_run Create fsPath w E). cbn [snd].
  rewrite (@updateFile_run Del fsPath _ E). cbn [snd loader disk].
  rewrite loadFile_run. cbn [snd loader disk].
  set (filepath := resolve cwd fsPath) in *.
  set (l1 := mkLoader _ (flattenLocaleTree (loader w)) (localeTree (loader w))).
  assert (Hfiles : obj_delete filepath (files l1) = files (loader w)).
  { subst l1. cbn [files]. destruct (readDocument w filepath).
    - rewrite obj_delete_set. now apply obj_delete_absent.
    - rewrite obj_delete_idem. now apply obj_delete_absent. }
  rewrite (updated_files l1), Hfiles.
  split; [rewrite updated_files; reflexivity|]. split; [|reflexivity].
  rewrite (updated_run (loader w)), updated_run.
  unfold allFiles, updateLocalesTree, allFiles. cbn [files flattenLocaleTree].
  destruct (indexable (Object_values (files (loader w)))) eqn:Hi;
    [reflexivity|].
  rewrite updated_run. cbn [flattenLocaleTree].
  destruct (indexable (allFiles l1)) eqn:Hi1; [|reflexivity].
  exfalso. subst l1. unfold allFiles in Hi1. cbn [files] in Hi1.
  destruct (readDocument w filepath).
  - apply indexable_set in Hi1; congruence.
  - rewrite (obj_delete_absent _ _ Hnew) in Hi1. congruence.
Qed.

(** X27.  A file that cannot be read is a deleted file: a change or
    creation event on a path whose file is missing, does not parse or
    parses to [null] leaves the world a deletion event on that path would
    leave, with the same result. *)
Theorem updateFile_of_unreadable_is_deletion (type : WatchEvent)
  (fsPath : string) (w : World) :
  readDocument w (resolve cwd fsPath) = None ->
  updateFile type fsPath w = updateFile Del fsPath w.
Proof.
  intros Hread. unfold updateFile.
  destruct (negb (String.eqb (extname (resolve cwd fsPath)) ".json"));
    [reflexivity|].
  destruct type; [reflexivity| |];
    unfold bind, getLoader, setLoader; rewrite loadFile_run, Hread;
    reflexivity.
Qed.

(* ================================================================== *)
(** ** The entries of the tree in the flatten index *)

(** X28.  Every entry of the rebuilt tree is an entry of the rebuilt
    flatten index, for loaded files whose keys are plain (non-empty, without
    a dot, distinct within a mapping), whatever their shapes: an entry found
    in the tree along a path has the dot-joined path as key path, the
    flatten index has an entry under that key path, and the two entries hold
    records for the same locales with the same key path, value, locale and
    file path.  (The converse fails: a key of the flatten index can be a
    group of the tree.) *)
Theorem tree_entry_is_indexed (l : LocaleLoader) (p : list string)
  (n : LocaleNode.t) :
  Forall (fun f => ParsedFile.flatten f = flat (ParsedFile.value f)
                   /\ plainKeys (ParsedFile.value f) = true) (allFiles l) ->
  rebuilt l ->
  tree_get p (localeTree (updated l)) = Some (Node n) ->
  LocaleNode.keypath n = join_dot p
  /\ exists n',
       getNodeByKey (updated l) (join_dot p) = Own n'
       /\ LocaleNode.keypath n' = join_dot p
       /\ forall locale,
            sameRecord (obj_get locale (LocaleNode.locales n))
              (obj_get locale (LocaleNode.locales n')).
Proof.
  intros Hok Hre. rewrite updated_tree, updateLocalesTree_treeOf.
  rewrite (updated_rebuild Hre). intros Hget.
  assert (Hp : p <> []).
  { intros ->. simpl in Hget. destruct (treeOf_Tree (allFiles l))
      as (kp & kn & cs & E). rewrite E in Hget. discriminate. }
  assert (Hplain : Forall (fun f => plainKeys (ParsedFile.value f) = true)
                     (allFiles l)).
  { revert Hok. apply Forall_impl. intros f [_ H]. exact H. }
  pose proof (@treeOf_get (allFiles l) Hplain p Hp
                (@treeOf_no_proto (allFiles l) p (Node n) Hget)) as H.
  rewrite Hget in H.
  destruct H as (Hg & He & _ & Hkp & Hloc).
  apply existsb_exists in He. destruct He as (f & Hf & Hentry).
  rewrite Forall_forall in Hok. destruct (Hok f Hf) as [Hload Hfplain].
  assert (Hpl : Forall plain_key p).
  { unfold entryIn in Hentry.
    destruct (doc_get p (JObj KObject (ParsedFile.value f))) as [v|] eqn:Ed;
      [|discriminate].
    eapply doc_get_plain_path; eauto. }
  assert (Hnogroup : forall g, In g (allFiles l) -> groupIn g p = false).
  { intros g Hin. destruct (groupIn g p) eqn:G; auto.
    assert (existsb (fun f0 => groupIn f0 p) (allFiles l) = true)
      by (apply existsb_exists; eauto).
    congruence. }
  rewrite (pathKey_join Hp Hpl) in Hkp. split; [exact Hkp|].
  assert (Hhas : obj_has (join_dot p) (ParsedFile.flatten f) = true).
  { unfold obj_has. rewrite (@flatten_at_leaf f p Hload Hfplain Hp Hpl).
    unfold entryIn in Hentry.
    destruct (doc_get p (JObj KObject (ParsedFile.value f))) as [v|];
      [|discriminate].
    apply negb_true_iff in Hentry. now rewrite (isLeaf_not_object _ Hentry). }
  pose proof (flattenIndex_get (allFiles l) (join_dot p)) as Hi.
  destruct (obj_get (join_dot p) (fold_left indexFile (allFiles l) []))
    as [n'|] eqn:En.
  - destruct Hi as (H1 & _ & _ & H4). exists n'. split.
    + apply getNodeByKey_entryOf. unfold entryOf. rewrite rebuild_flatten.
      exact En.
    + split; [exact H1|]. intros locale. rewrite Hloc, H4.
      apply last_records_agree_at_entry; auto.
      apply Forall_forall. intros g Hin. destruct (Hok g Hin). auto.
  - rewrite (Hi f Hf) in Hhas. discriminate.
Qed.

End Loader.

(* ================================================================== *)
(** * The properties at the sample files *)

(** C1 as stated fails: with [en.json], [fr.json] and [de.json] loaded and
    the translation to German failing, the French translation of [a.b]
    succeeds on its own, yet translating the entry fails as a whole, in every
    settle order, and returns no pending write. *)
Lemma MachineTranslateNode_no_partial_success :
  let l := updated sample_getKeyname
             (loaderOf [en_json; fr_empty_json; de_empty_json]) in
  exists node shadows fr_record pending,
    getNodeByKey l "a.b" = Own node
    /\ getShadowLocales sample_replaceLocalePath "en" l node = Return shadows
    /\ In fr_record (translationTargets shadows "en")
    /\ MachineTranslateRecord sample_translate l fr_record "en"
       = Fulfilled (Some pending)
    /\ forall order,
         MachineTranslateNode sample_replaceLocalePath "en" sample_translate
           l node "en" order
         = Rejected (AllyError translating_unknown_error
                       (Some "service unavailable")).
Proof.
  cbv zeta.
  eexists. eexists. eexists. eexists.
  split; [reflexivity|].
  split; [reflexivity|].
  split; [left; reflexivity|].
  split; [reflexivity|].
  intros order.
  erewrite (@MachineTranslateNode_run sample_replaceLocalePath "en"
              sample_translate) by reflexivity.
  unfold translationTasks.
  match goal with
  | |- context [Promise_all ?tasks order] =>
      pose proof (Promise_all_spec tasks order) as H;
      destruct (Promise_all tasks order) as [vs|e]
  end.
  - destruct vs as [|v1 [|v2 vs]]; discriminate H.
  - destruct H as [H|[H|[]]]; [discriminate H | inversion H; reflexivity].
Qed.

(** With a translation service that answers, translating the entry [a.b] of
    the three sample files from English yields the pending writes for French
    and German. *)
Lemma MachineTranslateNode_witness :
  MachineTranslateNode sample_replaceLocalePath "en" sample_translate_ok
    (updated sample_getKeyname
       (loaderOf [en_json; fr_empty_json; de_empty_json]))
    (LocaleNode.mk "a.b" "b"
       [("en", LocaleRecord.mk "a.b" "b" (JStr "hello") "en"
                 (Some "en.json") false)])
    "en" []
  = Fulfilled
      [PendingWrite.mk "fr" (JStr "translated to fr") (Some "fr.json") "a.b";
       PendingWrite.mk "de" (JStr "translated to de") (Some "de.json") "a.b"].
Proof.
  pose proof (MachineTranslateNode_all_or_nothing
                sample_replaceLocalePath "en" sample_translate_ok
                (updated sample_getKeyname
                   (loaderOf [en_json; fr_empty_json; de_empty_json]))
                (LocaleNode.mk "a.b" "b"
                   [("en", LocaleRecord.mk "a.b" "b" (JStr "hello") "en"
                             (Some "en.json") false)])
                "en" [] eq_refl) as H.
  hnf in H. destruct H as (_ & H & _). apply H. reflexivity.
Defined.

(** C2 fails on the code for a key path that is the name of a member of
    [Object.prototype]: with [en.json] and [fr.json] loaded, the flatten
    index has no entry for [toString]; the read gives the inherited
    function, and translating a French record of that key path from English
    is rejected with a [TypeError], not with the error of an empty source,
    although the translation service answers. *)
Theorem MachineTranslateRecord_of_inherited_key :
  let l := updated sample_getKeyname (loaderOf [en_json; fr_json]) in
  let record :=
    LocaleRecord.mk "toString" "toString" (JStr EmptyString) "fr"
      (Some "fr.json") false in
  rebuilt sample_getKeyname (loaderOf [en_json; fr_json])
  /\ obj_has "toString" (flattenLocaleTree l) = false
  /\ getNodeByKey l "toString" = Member "toString"
  /\ MachineTranslateRecord sample_translate_ok l record "en"
     = Rejected TypeError
  /\ MachineTranslate sample_replaceLocalePath "en" sample_translate_ok l
       (OfRecord record) None []
     = Rejected TypeError.
Proof. cbv zeta. repeat split; reflexivity. Qed.

(** C6 as stated fails for a key path that has no entry: with [en.json]
    loaded the locale [en] is known, yet the query for the key path [zzz]
    returns the empty mapping, which holds no record for it, stored or
    shadow. *)
Lemma getTranslationsByKey_unknown_key :
  let l := updated sample_getKeyname (loaderOf [en_json]) in
  In "en" (locales l)
  /\ getNodeByKey l "zzz" = Undefined
  /\ exists shown,
       getTranslationsByKey sample_replaceLocalePath "en" l "zzz" true
       = Return (Some shown)
       /\ shown = []
       /\ obj_get "en" shown = None.
Proof.
  cbv zeta. split; [left; reflexivity|]. split; [reflexivity|].
  eexists. repeat split; reflexivity.
Qed.

(** The scenario of the specification: the key [a.b] exists only in [en];
    the query over the locales [en] and [fr] returns the stored record for
    [en] and for [fr] a shadow record with an empty value and the inferred
    file path [fr.json]. *)
Lemma getTranslationsByKey_shadow_witness :
  let l := updated sample_getKeyname (loaderOf [en_json; fr_empty_json]) in
  exists node shown,
    getNodeByKey l "a.b" = Own node
    /\ getTranslationsByKey sample_replaceLocalePath "en" l "a.b" true
       = Return (Some shown)
    /\ (forall locale, obj_has locale shown = true <-> In locale (locales l))
    /\ forall locale,
         In locale (locales l) ->
         obj_get locale shown
         = Some match obj_get locale (LocaleNode.locales node) with
                | Some stored => stored
                | None =>
                    LocaleRecord.mk "a.b" (LocaleNode.keyname node)
                      (JStr EmptyString) locale
                      (inferredFilePath sample_replaceLocalePath "en" node
                         locale)
                      true
                end.
Proof.
  cbv zeta.
  pose proof (@getTranslationsByKey_shadow sample_getKeyname
                sample_replaceLocalePath "en"
                (loaderOf [en_json; fr_empty_json]) "a.b" eq_refl eq_refl)
    as H.
  hnf in H. destruct H as (shown & H1 & H2 & H3).
  eexists. exists shown. split; [reflexivity|]. split; [exact H1|].
  split; [exact H2 | exact H3].
Defined.

Example getTranslationsByKey_scenario :
  getTranslationsByKey sample_replaceLocalePath "en"
    (updated sample_getKeyname (loaderOf [en_json; fr_empty_json])) "a.b" true
  = Return
      (Some
         [("en", LocaleRecord.mk "a.b" "b" (JStr "hello") "en"
                   (Some "en.json") false);
          ("fr", LocaleRecord.mk "a.b" "b" (JStr EmptyString) "fr"
                   (Some "fr.json") true)]).
Proof. reflexivity. Qed.

(** C3 as stated fails when the written path leads through a value of the
    document: writing [a.b] into [fr.json = {"a":"x"}] is fulfilled and
    replaces the value at the other key path [a] by a group. *)
Lemma writeToSingleFile_overwrites_value_on_the_way :
  let w := mkWorld (loaderOf [])
             [("fr.json", JSON_stringify (obj [("a", JStr "x")]) ++ newline)] in
  let pending := PendingWrite.mk "fr" (JStr "y") (Some "fr.json") "a.b" in
  let original := obj [("a", JStr "x")] in
  let written := obj [("a", obj [("b", JStr "y")])] in
  existingDocument sample_JSON_parse w "fr.json" = Some original
  /\ writeToSingleFile sample_showInputBox sample_showQuickPick
       sample_JSON_parse sample_writeError pending w
     = (Fulfilled tt,
        mkWorld (loader w) [("fr.json", JSON_stringify written ++ newline)])
  /\ castPath "a.b" [("a", JStr "x")] = ["a"; "b"]
  /\ doc_get ["a"] original = Some (JStr "x")
  /\ doc_get ["a"] written = Some (obj [("b", JStr "y")])
  /\ doc_get ["a"] written <> doc_get ["a"] original.
Proof. cbv zeta. repeat split; try reflexivity. discriminate. Qed.

(** Writing [a.b.c] into a document that also has [a.b.d = 1]: the write is
    fulfilled, [a.b.c] holds the new value and [a.b.d] is still [1]. *)
Lemma writeToSingleFile_witness :
  let original := obj [("a", obj [("b", obj [("d", JNum 1)])])] in
  let w := mkWorld (loaderOf [])
             [("fr.json", JSON_stringify original ++ newline)] in
  let pending := PendingWrite.mk "fr" (JStr "v") (Some "fr.json") "a.b.c" in
  let document := lodash_set original "a.b.c" (JStr "v") in
  fst (writeToSingleFile sample_showInputBox sample_showQuickPick
         sample_JSON_parse sample_writeError pending w) = Fulfilled tt
  /\ obj_get "fr.json"
       (disk (snd (writeToSingleFile sample_showInputBox sample_showQuickPick
                     sample_JSON_parse sample_writeError pending w)))
     = Some (JSON_stringify document ++ newline)
  /\ doc_get ["a"; "b"; "c"] document = Some (JStr "v")
  /\ doc_get ["a"; "b"; "d"] document = Some (JNum 1).
Proof.
  cbv zeta.
  pose proof (@writeToSingleFile_sets_key
                sample_showInputBox sample_showQuickPick sample_JSON_parse
                sample_writeError
                (mkWorld (loaderOf [])
                   [("fr.json",
                     JSON_stringify
                       (obj [("a", obj [("b", obj [("d", JNum 1)])])])
                     ++ newline)])
                (PendingWrite.mk "fr" (JStr "v") (Some "fr.json") "a.b.c")
                "fr.json" [("a", obj [("b", obj [("d", JNum 1)])])]
                eq_refl eq_refl eq_refl eq_refl eq_refl eq_refl eq_refl
                eq_refl eq_refl eq_refl eq_refl) as H.
  cbv zeta in H. destruct H as (H1 & H2 & H3 & H4 & _).
  split; [exact H1|]. split; [exact H2|]. split; [exact H3|].
  exact (H4 ["a"; "b"; "d"] eq_refl).
Defined.

(** The scenario of the specification: writing [bonjour] at [a.b] into
    [fr.json = {"a":{"b":""}}] leaves [{"a":{"b":"bonjour"}}] in the file,
    indented by two spaces and followed by a newline. *)
Example writeToSingleFile_scenario :
  let w := mkWorld (loaderOf [en_json; fr_json])
             [("fr.json",
               JSON_stringify (obj [("a", obj [("b", JStr EmptyString)])])
               ++ newline)] in
  writeToSingleFile sample_showInputBox sample_showQuickPick sample_JSON_parse
    sample_writeError
    (PendingWrite.mk "fr" (JStr "bonjour") (Some "fr.json") "a.b") w
  = (Fulfilled tt,
     mkWorld (loader w)
       [("fr.json",
         "{" ++ newline
         ++ "  " ++ dquote ++ "a" ++ dquote ++ ": {" ++ newline
         ++ "    " ++ dquote ++ "b" ++ dquote ++ ": "
         ++ dquote ++ "bonjour" ++ dquote ++ newline
         ++ "  }" ++ newline
         ++ "}" ++ newline)]).
Proof. reflexivity. Qed.

(** A write the disk refuses is rejected with the error of the host and
    leaves the file as it is. *)
Example writeToSingleFile_refused :
  let w := mkWorld (loaderOf []) [] in
  writeToSingleFile sample_showInputBox sample_showQuickPick sample_JSON_parse
    (fun _ => Some "EACCES")
    (PendingWrite.mk "fr" (JStr "bonjour") (Some "fr.json") "a.b") w
  = (Rejected (HostError "EACCES"), w).
Proof. reflexivity. Qed.


(** A key path that ends in an empty segment is cut short: with
    [en.json = {"a":{"":"x"}}] the entry of the key path [a.] exists, and the
    lookup for [a.] returns the group [a]. *)
Example getClosestNodeByKey_trailing_dot :
  let l := updated sample_getKeyname (loaderOf [en_a_empty_key_json]) in
  (exists n, tree_get ["a"; EmptyString] (localeTree l) = Some (Node n)
             /\ getNodeByKey l "a." = Own n)
  /\ exists kp kn children,
       getClosestNodeByKey l "a." None = Own (Tree kp kn children).
Proof.
  cbv zeta. split.
  - eexists. split; reflexivity.
  - do 3 eexists. reflexivity.
Qed.

(** C8 as stated fails: the documents [{"a":{"b":1}}] and [{"a.b":1}] have
    the same flattened form, so no inverse of [flat] gives both of them back;
    unflattening the flattened form of the second gives the first. *)
Lemma flat_unflatten_dotted_key :
  let nested := [("a", obj [("b", JNum 1)])] in
  let dotted := [("a.b", JNum 1)] in
  flat nested = [("a.b", JNum 1)]
  /\ flat dotted = [("a.b", JNum 1)]
  /\ unflatten (flat dotted) = nested
  /\ unflatten (flat dotted) <> dotted
  /\ forall inverse : Obj json -> list (string * json),
       ~ (inverse (flat nested) = nested /\ inverse (flat dotted) = dotted).
Proof.
  cbv zeta. repeat split; try reflexivity.
  - discriminate.
  - intros inverse [H1 H2].
    change (flat [("a.b", JNum 1)]) with (flat [("a", obj [("b", JNum 1)])]) in H2.
    rewrite H1 in H2. discriminate.
Qed.

(** The round trip on a nested mapping with plain keys. *)
Lemma unflatten_flat_witness :
  let document :=
    [("a", obj [("b", JStr "hello"); ("c", obj [("d", JNum 1)])]);
     ("e", JNull); ("f", obj [])] in
  unflatten (flat document) = document.
Proof.
  cbv zeta.
  exact (unflatten_flat
           [("a", obj [("b", JStr "hello"); ("c", obj [("d", JNum 1)])]);
            ("e", JNull); ("f", obj [])] eq_refl eq_refl).
Defined.

(** C4 as stated fails on three kinds of files.  With a value at [a] in one
    file and a nested mapping at [a] in another, and with an empty nested
    mapping at [a], the key path [a] is a key of the flatten index and a
    group of the tree.  With the key path [a.b] nested in one file and
    written as one dotted key in another, both indices have the entry, and
    the flatten index holds a French record that the entry of the tree does
    not have. *)
Lemma tree_and_flatten_index_disagree :
  (let l := updated sample_getKeyname (loaderOf [en_a_json; fr_a_b_json]) in
   (exists n', getNodeByKey l "a" = Own n')
   /\ exists kp kn cs, getTreeNodeByKey l "a" None = Own (Tree kp kn cs))
  /\ (let l := updated sample_getKeyname (loaderOf [en_a_empty_json]) in
      (exists n', getNodeByKey l "a" = Own n')
      /\ exists kp kn cs, getTreeNodeByKey l "a" None = Own (Tree kp kn cs))
  /\ (let l := updated sample_getKeyname
                 (loaderOf [en_nested_json; fr_dotted_json]) in
      exists n n' r',
        getTreeNodeByKey l "a.b" None = Own (Node n)
        /\ LocaleNode.keypath n = "a.b"
        /\ getNodeByKey l "a.b" = Own n'
        /\ obj_get "fr" (LocaleNode.locales n) = None
        /\ obj_get "fr" (LocaleNode.locales n') = Some r'
        /\ LocaleRecord.value r' = JStr "y").
Proof.
  cbv zeta. split; [|split].
  - split; [eexists; reflexivity | do 3 eexists; reflexivity].
  - split; [eexists; reflexivity | do 3 eexists; reflexivity].
  - do 3 eexists. repeat split; reflexivity.
Qed.

Lemma sample_wellShaped : wellShaped [en_json; fr_json].
Proof.
  split; [|split].
  - repeat constructor.
  - reflexivity.
  - reflexivity.
Defined.

Lemma sample_ordinaryKeys :
  Forall (fun f => ordinaryKeys (ParsedFile.value f) = true) [en_json; fr_json].
Proof. repeat constructor. Defined.

(** The two indices on the sample files [en.json] and [fr.json], at the key
    path [a.b]. *)
Lemma tree_and_flatten_index_witness :
  let l' := updated sample_getKeyname (loaderOf [en_json; fr_json]) in
  rebuilt sample_getKeyname (loaderOf [en_json; fr_json])
  /\ ((exists n, getTreeNodeByKey l' "a.b" None = Own (Node n)
                 /\ LocaleNode.keypath n = "a.b")
      <-> (exists n', getNodeByKey l' "a.b" = Own n'))
  /\ forall n n',
       getTreeNodeByKey l' "a.b" None = Own (Node n) ->
       LocaleNode.keypath n = "a.b" ->
       getNodeByKey l' "a.b" = Own n' ->
       forall locale,
         sameRecord (obj_get locale (LocaleNode.locales n))
           (obj_get locale (LocaleNode.locales n')).
Proof.
  exact (@tree_and_flatten_index_agree sample_getKeyname
           (loaderOf [en_json; fr_json]) "a.b" sample_wellShaped
           sample_ordinaryKeys).
Defined.

(** C5 as stated fails for the tree.  With the key path [a.b] nested in a
    first English file and written as one dotted key in a second one, the
    flatten index holds the value of the second file and the tree, looked up
    at [a.b], that of the first.  With two English files that give [a] a
    value and a French file that has a nested mapping at [a], the flatten
    index holds the value of the second English file and the tree holds a
    group at [a], no value. *)
Lemma last_file_does_not_win_in_tree :
  (let l := updated sample_getKeyname
              (loaderOf [en_nested_json; en_dotted_json]) in
   obj_get "a.b" (ParsedFile.flatten en_nested_json) = Some (JStr "x")
   /\ obj_get "a.b" (ParsedFile.flatten en_dotted_json) = Some (JStr "y")
   /\ exists n n' r r',
        getNodeByKey l "a.b" = Own n'
        /\ obj_get "en" (LocaleNode.locales n') = Some r'
        /\ LocaleRecord.value r' = JStr "y"
        /\ getTreeNodeByKey l "a.b" None = Own (Node n)
        /\ obj_get "en" (LocaleNode.locales n) = Some r
        /\ LocaleRecord.value r = JStr "x")
  /\ (let l := updated sample_getKeyname
                 (loaderOf [en_a_json; en_a_y_json; fr_a_b_json]) in
      exists n' r' kp kn cs,
        getNodeByKey l "a" = Own n'
        /\ obj_get "en" (LocaleNode.locales n') = Some r'
        /\ LocaleRecord.value r' = JStr "y"
        /\ getTreeNodeByKey l "a" None = Own (Tree kp kn cs)).
Proof.
  cbv zeta. split.
  - split; [reflexivity|]. split; [reflexivity|].
    do 4 eexists. repeat split; reflexivity.
  - do 5 eexists. repeat split; reflexivity.
Qed.

Lemma sample_entries_at_a :
  Forall (fun g => ParsedFile.flatten g = flat (ParsedFile.value g)
                   /\ plainKeys (ParsedFile.value g) = true
                   /\ noProtoKey (ParsedFile.value g) = true
                   /\ groupIn g (split_dot "a") = false)
    [en_a_json; en_a_y_json; fr_a_json].
Proof. repeat constructor. Defined.

Lemma sample_later_files :
  Forall (fun g => ParsedFile.locale g = ParsedFile.locale en_a_y_json ->
                   obj_get "a" (ParsedFile.flatten g) = None) [fr_a_json].
Proof. repeat constructor. intros H. discriminate H. Defined.

(** Two English files give [a] different values and a French file follows:
    both indices hold the value and the file path of the second English
    file. *)
Lemma last_file_wins_witness :
  let l' := updated sample_getKeyname
              (loaderOf [en_a_json; en_a_y_json; fr_a_json]) in
  (exists n' r',
     getNodeByKey l' "a" = Own n'
     /\ obj_get "en" (LocaleNode.locales n') = Some r'
     /\ LocaleRecord.value r' = JStr "y"
     /\ LocaleRecord.filepath r' = Some "en/more.json")
  /\ exists n r,
       getTreeNodeByKey l' "a" None = Own (Node n)
       /\ LocaleNode.keypath n = "a"
       /\ obj_get "en" (LocaleNode.locales n) = Some r
       /\ LocaleRecord.value r = JStr "y"
       /\ LocaleRecord.filepath r = Some "en/more.json".
Proof.
  cbv zeta.
  pose proof (@last_file_wins sample_getKeyname
                (loaderOf [en_a_json; en_a_y_json; fr_a_json])
                [en_a_json] [fr_a_json] en_a_y_json "a" (JStr "y")
                eq_refl eq_refl sample_later_files) as H.
  cbv zeta in H. destruct H as [H1 H2].
  split; [exact (H1 eq_refl)|].
  apply (H2 sample_entries_at_a). repeat constructor.
Defined.

(** C7 fails on the code for a key that is the name of a member of
    [Object.prototype].  With [en.json] and [fr.json] loaded and the key set
    [a.b], [toString], the read of the flatten index under [toString] gives
    the inherited function, which has no [getValue]: the call throws a
    [TypeError] and no coverage is returned.  With [en.json] holding the
    only key [constructor], the rebuild of the flatten index throws and
    leaves the index empty: the coverage over the default key set has the
    total 0 while the loaded files have one full key path. *)
Theorem getCoverage_of_inherited_key :
  (let l := updated sample_getKeyname (loaderOf [en_json; fr_json]) in
   rebuilt sample_getKeyname (loaderOf [en_json; fr_json])
   /\ getNodeByKey l "toString" = Member "toString"
   /\ getCoverage l "en" (Some ["a.b"; "toString"]) = Throw TypeError)
  /\ (let l0 := loaderOf [en_constructor_json] in
      let l := updated sample_getKeyname l0 in
      fst (update sample_getKeyname l0) = Throw TypeError
      /\ flattenLocaleTree l = []
      /\ getCoverage l "en" None = Return (Coverage.mk "en" 0 0 [])
      /\ nodup string_dec (allKeyPaths l) = ["constructor"]).
Proof. cbv zeta. repeat split; reflexivity. Qed.

(** The scenarios of the specification on [en.json = {"a":{"b":"hello"}}]
    and [fr.json = {"a":{"b":""}}]: the coverage of French is 0 of 1, that of
    English 1 of 1, and translating [a.b] from English to English is
    refused. *)
Example getCoverage_scenario :
  let l := updated sample_getKeyname (loaderOf [en_json; fr_json]) in
  getCoverage l "fr" None = Return (Coverage.mk "fr" 1 0 ["a.b"])
  /\ getCoverage l "en" None = Return (Coverage.mk "en" 1 1 ["a.b"]).
Proof. split; reflexivity. Qed.

Example MachineTranslateRecord_scenario :
  let l := updated sample_getKeyname (loaderOf [en_json; fr_json]) in
  MachineTranslateRecord sample_translate_ok l
    (LocaleRecord.mk "a.b" "b" (JStr "hello") "en" (Some "en.json") false) "en"
  = Rejected (AllyError translating_same_locale None).
Proof. reflexivity. Qed.

(** What the rebuild does with a key that is a name of [Object.prototype].
    At the top of a document the flatten index cannot be rebuilt.  Below
    [a], the flatten index has the key [a.constructor] and the tree has no
    item there, while the other keys are entries of both. *)
Example update_of_inherited_key :
  (let l0 := loaderOf [en_constructor_json] in
   fst (update sample_getKeyname l0) = Throw TypeError
   /\ tree_get ["constructor"] (localeTree (updated sample_getKeyname l0))
      = None)
  /\ (let l0 := loaderOf [en_a_constructor_json] in
      let l := updated sample_getKeyname l0 in
      rebuilt sample_getKeyname l0
      /\ (exists n', getNodeByKey l "a.constructor" = Own n')
      /\ getTreeNodeByKey l "a.constructor" None = Member "constructor"
      /\ tree_get ["a"; "constructor"] (localeTree l) = None
      /\ exists n, getTreeNodeByKey l "a.b" None = Own (Node n)).
Proof.
  cbv zeta. split.
  - split; reflexivity.
  - split; [reflexivity|]. split; [eexists; reflexivity|].
    split; [reflexivity|]. split; [reflexivity|]. eexists; reflexivity.
Qed.

(* ================================================================== *)
(** * The further properties at the sample files *)

(** Deleting [/locales/fr.json] from a loader that holds the two files of
    the directory. *)
Lemma updateFile_del_witness :
  let w := mkWorld
             (updated sample_getKeyname
                (loaderOf [locales_en_json; locales_fr_json]))
             [] in
  let l' := loader (snd (updateFile sample_getKeyname sample_getFileInfo
                           sample_extname sample_JSON_parse sample_resolve
                           "/" Del "/locales/fr.json" w)) in
  obj_get "/locales/fr.json" (files l') = None
  /\ forall keypath,
       (exists node, getNodeByKey l' keypath = Own node)
       <-> exists other f,
             other <> "/locales/fr.json" /\ In (other, f) (files (loader w))
             /\ obj_has keypath (ParsedFile.flatten f) = true.
Proof.
  pose proof (@updateFile_del_forgets_the_file sample_getKeyname
                sample_getFileInfo sample_extname sample_JSON_parse
                sample_resolve "/" "/locales/fr.json"
                (mkWorld
                   (updated sample_getKeyname
                      (loaderOf [locales_en_json; locales_fr_json]))
                   [])
                eq_refl) as H.
  cbv zeta in *. destruct H as [H1 H2].
  split; [exact H1 | exact (H2 eq_refl)].
Defined.

(** A change of [/locales/fr.json] to [{"a":"x"}] while the English file is
    loaded: the key [a] is indexed with a record for [fr]. *)
Lemma updateFile_change_witness :
  let w := mkWorld (loaderOf [locales_en_json])
             [("/locales/fr.json",
               JSON_stringify (obj [("a", JStr "x")]) ++ newline)] in
  let l' := loader (snd (updateFile sample_getKeyname sample_getFileInfo
                           sample_extname sample_JSON_parse sample_resolve
                           "/" Change "/locales/fr.json" w)) in
  exists node record,
    getNodeByKey l' "a" = Own node
    /\ LocaleNode.keypath node = "a"
    /\ obj_get "fr" (LocaleNode.locales node) = Some record
    /\ LocaleRecord.locale record = "fr"
    /\ LocaleRecord.keypath record = "a".
Proof.
  refine (@updateFile_change_indexes_the_file sample_getKeyname
            sample_getFileInfo sample_extname sample_JSON_parse sample_resolve
            "/" Change "/locales/fr.json"
            (mkWorld (loaderOf [locales_en_json])
               [("/locales/fr.json",
                 JSON_stringify (obj [("a", JStr "x")]) ++ newline)])
            [("a", JStr "x")] "a" eq_refl _ eq_refl (or_introl eq_refl)
            eq_refl).
  discriminate.
Defined.

(** The English record of [a.b] in the index of [en.json] and [fr.json]. *)
Lemma flatten_index_records_witness :
  let l := loaderOf [en_json; fr_json] in
  exists node record,
    getNodeByKey (updated sample_getKeyname l) "a.b" = Own node
    /\ obj_get "en" (LocaleNode.locales node) = Some record
    /\ LocaleNode.keypath node = "a.b"
    /\ LocaleNode.keyname node = sample_getKeyname "a.b"
    /\ LocaleRecord.keypath record = "a.b"
    /\ LocaleRecord.keyname record = sample_getKeyname "a.b"
    /\ LocaleRecord.locale record = "en"
    /\ LocaleRecord.shadow record = false
    /\ In "en" (locales (updated sample_getKeyname l))
    /\ exists f,
         In f (allFiles l) /\ ParsedFile.locale f = "en"
         /\ LocaleRecord.filepath record = Some (ParsedFile.filepath f)
         /\ obj_get "a.b" (ParsedFile.flatten f)
            = Some (LocaleRecord.value record).
Proof.
  cbv zeta. eexists. eexists.
  split; [reflexivity|]. split; [reflexivity|].
  apply (@flatten_index_records sample_getKeyname
           (loaderOf [en_json; fr_json]) "a.b" "en"); reflexivity.
Defined.


(** German has no file among [en.json] and [fr.json]: nothing is
    translated. *)
Lemma getCoverage_of_unknown_locale_witness :
  exists c,
    getCoverage (updated sample_getKeyname (loaderOf [en_json; fr_json]))
      "de" None = Return c
    /\ Coverage.translated c = 0.
Proof.
  assert (Hde : ~ In "de" (locales (loaderOf [en_json; fr_json]))).
  { intros [H|[H|[]]]; discriminate H. }
  pose proof (@getCoverage_of_unknown_locale sample_getKeyname
                (loaderOf [en_json; fr_json]) "de" None Hde eq_refl) as H.
  hnf in H. eexists. split; [reflexivity | exact H].
Defined.

(** Translating the entry [a.b] of [en.json], an empty [fr.json] and an
    empty [de.json] from the configured source language. *)
Lemma MachineTranslate_of_index_node_witness :
  let l := loaderOf [en_json; fr_empty_json; de_empty_json] in
  let node :=
    LocaleNode.mk "a.b" "b"
      [("en", LocaleRecord.mk "a.b" "b" (JStr "hello") "en" (Some "en.json")
                false)] in
  match MachineTranslate sample_replaceLocalePath "en" sample_translate_ok
          (updated sample_getKeyname l) (OfNode node) None [] with
  | Fulfilled pendings =>
      map PendingWrite.locale pendings
      = filter (fun locale =>
                  negb (String.eqb locale (effectiveSource "en" None)))
          (locales l)
      /\ Forall (fun p => PendingWrite.keypath p = "a.b") pendings
      /\ Forall (fun p => exists text, PendingWrite.value p = JStr text)
           pendings
      /\ Forall (fun p =>
                   forall record,
                     obj_get (PendingWrite.locale p) (LocaleNode.locales node)
                     = Some record ->
                     PendingWrite.filepath p = LocaleRecord.filepath record)
           pendings
  | Rejected e => exists type cause, e = AllyError type cause
  end.
Proof.
  exact (@MachineTranslate_of_index_node sample_getKeyname
           sample_replaceLocalePath "en" sample_translate_ok
           (loaderOf [en_json; fr_empty_json; de_empty_json]) "a.b"
           (LocaleNode.mk "a.b" "b"
              [("en", LocaleRecord.mk "a.b" "b" (JStr "hello") "en"
                        (Some "en.json") false)])
           None [] eq_refl eq_refl).
Defined.

(** The translations of [a.b] with and without the shadow for French. *)
Lemma getTranslationsByKey_shadow_only_adds_witness :
  let l := updated sample_getKeyname (loaderOf [en_json; fr_empty_json]) in
  let stored :=
    [("en", LocaleRecord.mk "a.b" "b" (JStr "hello") "en" (Some "en.json")
              false)] in
  exists shown,
    getTranslationsByKey sample_replaceLocalePath "en" l "a.b" true
    = Return (Some shown)
    /\ (forall record,
          obj_get "fr" stored = Some record ->
          obj_get "fr" shown = Some record)
    /\ forall record,
         obj_get "fr" shown = Some record ->
         LocaleRecord.shadow record = negb (obj_has "fr" stored)
         /\ LocaleRecord.locale record = "fr"
         /\ LocaleRecord.keypath record = "a.b".
Proof.
  exact (@getTranslationsByKey_shadow_only_adds sample_getKeyname
           sample_replaceLocalePath "en" (loaderOf [en_json; fr_empty_json])
           "a.b" "fr"
           [("en", LocaleRecord.mk "a.b" "b" (JStr "hello") "en"
                     (Some "en.json") false)]
           eq_refl eq_refl).
Defined.

Lemma sample_paths_not_empty :
  Forall (fun f => ParsedFile.filepath f <> EmptyString)
    (allFiles (loaderOf [en_json; fr_empty_json])).
Proof. constructor; [discriminate|]. constructor; [discriminate|]. constructor. Defined.

(** The shadow of [a.b] for French, next to [en.json]. *)
Lemma getShadowFilePath_resolves_witness :
  let l := loaderOf [en_json; fr_empty_json] in
  exists f,
    In f (allFiles l)
    /\ obj_has "a.b" (ParsedFile.flatten f) = true
    /\ getShadowFilePath sample_replaceLocalePath "en"
         (updated sample_getKeyname l) "a.b" "fr"
       = Return (Some (sample_replaceLocalePath (ParsedFile.filepath f) "fr"))
    /\ ((exists g, In g (allFiles l) /\ ParsedFile.locale g = "en"
                   /\ obj_has "a.b" (ParsedFile.flatten g) = true) ->
        ParsedFile.locale f = "en").
Proof.
  exact (@getShadowFilePath_resolves sample_getKeyname
           sample_replaceLocalePath "en" (loaderOf [en_json; fr_empty_json])
           "a.b" "fr"
           (LocaleNode.mk "a.b" "b"
              [("en", LocaleRecord.mk "a.b" "b" (JStr "hello") "en"
                        (Some "en.json") false)])
           sample_paths_not_empty eq_refl eq_refl).
Defined.

Lemma sample_plain_path : Forall plain_key ["a"; "b"].
Proof.
  constructor; [split; [discriminate | reflexivity]|].
  constructor; [split; [discriminate | reflexivity]|]. constructor.
Defined.


Lemma sample_plain_files :
  Forall (fun f => plainKeys (ParsedFile.value f) = true
                   /\ noProtoKey (ParsedFile.value f) = true)
    (allFiles (loaderOf [en_a_json; fr_a_b_json])).
Proof. repeat constructor. Defined.

(** A value at [a] in [en.json] and a nested mapping at [a] in [fr.json]:
    the path [a] is a group. *)
Lemma tree_group_hides_entry_witness :
  let l := loaderOf [en_a_json; fr_a_b_json] in
  let item := tree_get ["a"] (localeTree (updated sample_getKeyname l)) in
  ((exists kp kn children, item = Some (Tree kp kn children))
   <-> exists f, In f (allFiles l) /\ groupIn f ["a"] = true)
  /\ ((exists n, item = Some (Node n))
      <-> (forall f, In f (allFiles l) -> groupIn f ["a"] = false)
          /\ (exists f, In f (allFiles l) /\ entryIn f ["a"] = true)
          /\ inherited "a" = false).
Proof.
  refine (@tree_group_hides_entry sample_getKeyname
            (loaderOf [en_a_json; fr_a_b_json]) ["a"] sample_plain_files _).
  discriminate.
Defined.

(** A write to [fr.json], then a write without a file path for a locale
    without a file while the prompt is cancelled, then another write: the
    first one is on the disk, the call fails, the third is not made. *)
Lemma writeToFile_stops_at_first_failure_witness :
  let first := PendingWrite.mk "fr" (JStr EmptyString) (Some "fr.json") "a.b" in
  let second := PendingWrite.mk "de" (JStr "v") None "a.b" in
  let third := PendingWrite.mk "fr" (JStr "w") (Some "fr.json") "c" in
  let w := mkWorld (loaderOf []) [] in
  let w1 := mkWorld (loaderOf [])
              [("fr.json",
                JSON_stringify (obj [("a", obj [("b", JStr EmptyString)])])
                ++ newline)] in
  writeToFile sample_showInputBox sample_showQuickPick sample_JSON_parse
    sample_writeError (Many (map Some ([first] ++ second :: [third]))) w
  = (Rejected (AllyError filepath_not_specified None), w1).
Proof.
  exact (@writeToFile_stops_at_first_failure sample_showInputBox
           sample_showQuickPick sample_JSON_parse sample_writeError
           [PendingWrite.mk "fr" (JStr EmptyString) (Some "fr.json") "a.b"]
           [PendingWrite.mk "fr" (JStr "w") (Some "fr.json") "c"]
           (PendingWrite.mk "de" (JStr "v") None "a.b")
           (mkWorld (loaderOf []) [])
           (mkWorld (loaderOf [])
              [("fr.json",
                JSON_stringify (obj [("a", obj [("b", JStr EmptyString)])])
                ++ newline)])
           (AllyError filepath_not_specified None) eq_refl eq_refl).
Defined.

(** A write into a file that holds the number [42]. *)
Lemma writeToSingleFile_into_scalar_document_witness :
  let w := mkWorld (loaderOf []) [("n.json", "42")] in
  let pending := PendingWrite.mk "fr" (JStr "v") (Some "n.json") "a.b" in
  writeToSingleFile sample_showInputBox sample_showQuickPick
    sample_JSON_parse_number sample_writeError pending w
  = (Fulfilled tt,
     mkWorld (loader w)
       (obj_set "n.json" (JSON_stringify (JNum 42) ++ newline) (disk w))).
Proof.
  exact (proj2
           (@writeToSingleFile_into_scalar_document sample_showInputBox
              sample_showQuickPick sample_JSON_parse_number sample_writeError
              (mkWorld (loaderOf []) [("n.json", "42")])
              (PendingWrite.mk "fr" (JStr "v") (Some "n.json") "a.b")
              "n.json" (JNum 42) eq_refl eq_refl eq_refl)
           eq_refl).
Defined.

(** Writing an empty text at [a.b] into a new [fr.json] and loading it. *)
Lemma write_then_load_reads_back_witness :
  let w := mkWorld (loaderOf []) [] in
  let pending := PendingWrite.mk "fr" (JStr EmptyString) (Some "fr.json") "a.b" in
  let written := baseSet_from ["a"; "b"] (JStr EmptyString) [] in
  let w1 := snd (writeToSingleFile sample_showInputBox sample_showQuickPick
                   sample_JSON_parse sample_writeError pending w) in
  let w2 := snd (loadFile sample_getFileInfo sample_JSON_parse "fr.json" w1) in
  fst (writeToSingleFile sample_showInputBox sample_showQuickPick
         sample_JSON_parse sample_writeError pending w) = Fulfilled tt
  /\ exists f,
       obj_get "fr.json" (files (loader w2)) = Some f
       /\ ParsedFile.value f = written
       /\ obj_get "a.b" (ParsedFile.flatten f) = Some (JStr EmptyString).
Proof.
  refine (@write_then_load_reads_back sample_getFileInfo sample_showInputBox
            sample_showQuickPick sample_JSON_parse sample_writeError
            (mkWorld (loaderOf []) [])
            (PendingWrite.mk "fr" (JStr EmptyString) (Some "fr.json") "a.b")
            "fr.json" KObject [] ["a"; "b"]
            eq_refl eq_refl eq_refl eq_refl eq_refl eq_refl _
            sample_plain_path eq_refl eq_refl eq_refl eq_refl).
  discriminate.
Defined.

(** The entry [a.b] in the tree of [en.json]. *)
Lemma tree_items_carry_their_key_path_witness :
  let l := loaderOf [en_json] in
  exists n,
    tree_get ["a"; "b"] (localeTree (updated sample_getKeyname l))
    = Some (Node n)
    /\ LocaleNode.keypath n = "a.b"
    /\ forall locale record,
         obj_get locale (LocaleNode.locales n) = Some record ->
         LocaleRecord.keypath record = "a.b"
         /\ LocaleRecord.keyname record = "b"
         /\ LocaleRecord.locale record = locale
         /\ LocaleRecord.shadow record = false
         /\ LocaleRecord.filepath record <> None.
Proof.
  cbv zeta. eexists. split; [reflexivity|].
  exact (@tree_items_carry_their_key_path sample_getKeyname
           (loaderOf [en_json]) ["a"; "b"] _ eq_refl).
Defined.

(** [/locales/fr.json] is created next to the English file and deleted
    again. *)
Lemma updateFile_create_then_delete_witness :
  let w := mkWorld (loaderOf [locales_en_json])
             [("/locales/fr.json",
               JSON_stringify (obj [("a", JStr "x")]) ++ newline)] in
  let w1 := snd (updateFile sample_getKeyname sample_getFileInfo sample_extname
                   sample_JSON_parse sample_resolve "/" Create
                   "/locales/fr.json" w) in
  let w2 := snd (updateFile sample_getKeyname sample_getFileInfo sample_extname
                   sample_JSON_parse sample_resolve "/" Del
                   "/locales/fr.json" w1) in
  obj_has "/locales/fr.json" (files (loader w1)) = true
  /\ files (loader w2) = files (loader w)
  /\ loader w2 = updated sample_getKeyname (loader w)
  /\ disk w2 = disk w.
Proof.
  split; [reflexivity|].
  exact (@updateFile_create_then_delete sample_getKeyname sample_getFileInfo
           sample_extname sample_JSON_parse sample_resolve "/"
           "/locales/fr.json"
           (mkWorld (loaderOf [locales_en_json])
              [("/locales/fr.json",
                JSON_stringify (obj [("a", JStr "x")]) ++ newline)])
           eq_refl eq_refl).
Defined.

(** [/locales/fr.json] is loaded and then gone from the disk: the change
    event is a deletion. *)
Lemma updateFile_of_unreadable_is_deletion_witness :
  let w := mkWorld
             (updated sample_getKeyname
                (loaderOf [locales_en_json; locales_fr_json]))
             [] in
  updateFile sample_getKeyname sample_getFileInfo sample_extname
    sample_JSON_parse sample_resolve "/" Change "/locales/fr.json" w
  = updateFile sample_getKeyname sample_getFileInfo sample_extname
      sample_JSON_parse sample_resolve "/" Del "/locales/fr.json" w.
Proof.
  exact (@updateFile_of_unreadable_is_deletion sample_getKeyname
           sample_getFileInfo sample_extname sample_JSON_parse sample_resolve
           "/" Change "/locales/fr.json"
           (mkWorld
              (updated sample_getKeyname
                 (loaderOf [locales_en_json; locales_fr_json]))
              [])
           eq_refl).
Defined.

Lemma sample_loaded_plain_files :
  Forall (fun f => ParsedFile.flatten f = flat (ParsedFile.value f)
                   /\ plainKeys (ParsedFile.value f) = true)
    (allFiles (loaderOf [en_json; fr_a_json])).
Proof. repeat constructor. Defined.

(** Files of mixed shapes, [en.json = {"a":{"b":"hello"}}] and
    [fr.json = {"a":"z"}]: the entry [a.b] of the tree is in the flatten
    index. *)
Lemma tree_entry_is_indexed_witness :
  let l := loaderOf [en_json; fr_a_json] in
  exists n,
    tree_get ["a"; "b"] (localeTree (updated sample_getKeyname l))
    = Some (Node n)
    /\ LocaleNode.keypath n = "a.b"
    /\ exists n',
         getNodeByKey (updated sample_getKeyname l) "a.b" = Own n'
         /\ LocaleNode.keypath n' = "a.b"
         /\ forall locale,
              sameRecord (obj_get locale (LocaleNode.locales n))
                (obj_get locale (LocaleNode.locales n')).
Proof.
  cbv zeta. eexists. split; [reflexivity|].
  exact (@tree_entry_is_indexed sample_getKeyname
           (loaderOf [en_json; fr_a_json]) ["a"; "b"] _
           sample_loaded_plain_files eq_refl eq_refl).
Defined.

(** The coverage of French over [en.json] and [fr.json]: the key [a.b] has
    an empty French value. *)
Lemma getCoverage_counts_witness :
  let l := loaderOf [en_json; fr_json] in
  (exists c,
     getCoverage (updated sample_getKeyname l) "fr" None = Return c
     /\ Coverage.locale c = "fr"
     /\ Coverage.keys c = ["a.b"]
     /\ Coverage.total c = 1
     /\ Coverage.translated c = 0
     /\ Coverage.translated c <= Coverage.total c)
  /\ length ["a.b"] = length (nodup string_dec (allKeyPaths l)).
Proof.
  pose proof (@getCoverage_counts sample_getKeyname
                (loaderOf [en_json; fr_json]) "fr" None eq_refl) as H.
  cbv zeta in *. destruct H as [H1 H2]. split.
  - exact H1.
  - exact (proj2 (H2 eq_refl)).
Defined.

(** The handler of the watcher and a file with the key [constructor].  A
    change event on [/locales/fr.json] next to the English file is
    fulfilled.  When the English file holds the key [constructor], a
    deletion event on the French file is rejected: the tree is rebuilt, the
    flatten index is not. *)
Example updateFile_of_inherited_key :
  let w := mkWorld (loaderOf [locales_en_json])
             [("/locales/fr.json",
               JSON_stringify (obj [("a", JStr "x")]) ++ newline)] in
  let w0 := mkWorld (loaderOf [locales_en_constructor_json]) [] in
  let w0' := snd (updateFile sample_getKeyname sample_getFileInfo
                    sample_extname sample_JSON_parse sample_resolve "/" Del
                    "/locales/fr.json" w0) in
  fst (updateFile sample_getKeyname sample_getFileInfo sample_extname
         sample_JSON_parse sample_resolve "/" Change "/locales/fr.json" w)
  = Fulfilled tt
  /\ fst (updateFile sample_getKeyname sample_getFileInfo sample_extname
            sample_JSON_parse sample_resolve "/" Del "/locales/fr.json" w0)
     = Rejected TypeError
  /\ flattenLocaleTree (loader w0') = []
  /\ treeInSync sample_getKeyname (loader w0').
Proof. cbv zeta. repeat split; reflexivity. Qed.

(** [init] on the workspace [/] with the locales path [locales]: the file
    [en.json] of the directory is a candidate of the scan, the draft is
    not; the file is loaded under its resolved path, the indexes are
    rebuilt and the directory is watched.  With a second locales path that
    cannot be listed, [init] fails with the error of the host after the
    first path is scanned and watched, and the indexes are not rebuilt.
    With a file that holds the key [constructor], [init] fails with the
    [TypeError] of the rebuild after the directory is watched. *)
Example init_scenario :
  let text := JSON_stringify (obj [("a", JStr "x")]) ++ newline in
  let w := mkWorld (loaderOf []) [("/locales/en.json", text)] in
  scanRoots sample_resolve (Some "/") ["locales"] = ["/locales"]
  /\ scanCandidates sample_extname sample_readdir sample_isDirectory
       sample_resolve "/locales" = ["/locales/en.json"]
  /\ init sample_getKeyname sample_getFileInfo sample_extname
       sample_JSON_parse sample_readdir sample_isDirectory sample_resolve
       (Some "/") ["locales"] [] w
     = (Fulfilled tt,
        mkWorld (updated sample_getKeyname (loaderOf [locales_en_json]))
          (disk w),
        ["/locales"])
  /\ init sample_getKeyname sample_getFileInfo sample_extname
       sample_JSON_parse sample_readdir sample_isDirectory sample_resolve
       (Some "/") ["locales"; "missing"] [] w
     = (Rejected (HostError "ENOENT"),
        mkWorld (loaderOf [locales_en_json]) (disk w), ["/locales"])
  /\ init sample_getKeyname sample_getFileInfo sample_extname
       (fun _ => Some (obj [("constructor", JStr "x")]))
       sample_readdir sample_isDirectory sample_resolve
       (Some "/") ["locales"] [] w
     = (Rejected TypeError,
        mkWorld
          (updated sample_getKeyname (loaderOf [locales_en_constructor_json]))
          (disk w),
        ["/locales"]).
Proof. cbv zeta. repeat split; reflexivity. Qed.
